(** * memory.core: the keyword similarity index and the extraction pipeline

    A shallow embedding of [src/services/SubjectIndex.ts] and of
    [src/services/ChatMemoryService.ts], with the properties the
    specification states about them, and of the code around them: the
    handler [src/handlers/ChatMemoryHandler.ts], the identifier functions of
    [src/migration/subject-migration.ts], and the search methods of
    [src/plans/SubjectMemoryPlan.ts], which keep the index behind a cache.

    Modelling conventions.
    - A JavaScript string is a [string] whose characters are read as the
      UTF-16 code units 0..255 (the Latin-1 range); the built-ins
      [toLowerCase], [trim] and the regular expression classes [\w] and [\s]
      are written out for that range.
    - A JavaScript [Map] is a [gmap] and a [Set] is a [gset]: the state of the
      index is what the maps and sets contain.  Their iteration order, which
      the specification declares insignificant, is the order of [elements].
    - A JavaScript number that counts is a [nat]; a quotient of two counts
      (a similarity, a confidence) is the exact rational of [Q].
    - A collaborator is a record of functions; a call that can throw gives a
      sum, the error on the left.  Readings of the clock and printed numbers
      are arguments.  Writes to the object store are left out. *)

From Stdlib Require Import QArith Qminmax Lqa Ascii.
From stdpp Require Import gmap strings list fin_maps fin_sets sorting.

#[local] Set Warnings "-clear-no-such-hyp".

Local Open Scope string_scope.
Local Open Scope nat_scope.
Local Open Scope list_scope.

(** ** JavaScript string built-ins *)

Module JsString.

Definition code (c : ascii) : nat := nat_of_ascii c.

(** [\s] of a regular expression and the characters [trim] strips: TAB, LF,
    VT, FF, CR, SPACE and NBSP. *)
Definition isWhitespace (c : ascii) : bool :=
  let n := code c in
  ((9 <=? n) && (n <=? 13)) || (n =? 32) || (n =? 160).

Definition isUpper (c : ascii) : bool :=
  let n := code c in (65 <=? n) && (n <=? 90).

Definition isLower (c : ascii) : bool :=
  let n := code c in (97 <=? n) && (n <=? 122).

Definition isDigit (c : ascii) : bool :=
  let n := code c in (48 <=? n) && (n <=? 57).

Definition isUnderscore (c : ascii) : bool := code c =? 95.

(** [\w] of a regular expression without the unicode flag: [A-Za-z0-9_]. *)
Definition isWordChar (c : ascii) : bool :=
  isUpper c || isLower c || isDigit c || isUnderscore c.

(** The upper case letters of Latin-1: A-Z and U+00C0..U+00DE without the
    multiplication sign U+00D7.  Each has its lower case 32 code units up. *)
Definition hasLowerCase (c : ascii) : bool :=
  let n := code c in
  isUpper c || ((192 <=? n) && (n <=? 222) && negb (n =? 215)).

Definition lowerChar (c : ascii) : ascii :=
  if hasLowerCase c then ascii_of_nat (code c + 32) else c.

(** [s.toLowerCase()] *)
Fixpoint toLowerCase (s : string) : string :=
  match s with
  | EmptyString => EmptyString
  | String c r => String (lowerChar c) (toLowerCase r)
  end.

(** [s.replace(/[^\w\s]/g, '')] *)
Fixpoint removeNonWordNonSpace (s : string) : string :=
  match s with
  | EmptyString => EmptyString
  | String c r =>
      if isWordChar c || isWhitespace c
      then String c (removeNonWordNonSpace r)
      else removeNonWordNonSpace r
  end.

Fixpoint trimStart (s : string) : string :=
  match s with
  | EmptyString => EmptyString
  | String c r => if isWhitespace c then trimStart r else s
  end.

Fixpoint trimEnd (s : string) : string :=
  match s with
  | EmptyString => EmptyString
  | String c r =>
      match trimEnd r with
      | EmptyString => if isWhitespace c then EmptyString else String c EmptyString
      | r' => String c r'
      end
  end.

(** [s.trim()] *)
Definition trim (s : string) : string := trimEnd (trimStart s).

Fixpoint isPrefixOf (p s : string) : bool :=
  match p, s with
  | EmptyString, _ => true
  | String a p', String b s' => if Ascii.eqb a b then isPrefixOf p' s' else false
  | String _ _, EmptyString => false
  end.

(** [s.includes(sub)] *)
Fixpoint includes (s sub : string) : bool :=
  isPrefixOf sub s ||
  match s with
  | EmptyString => false
  | String _ r => includes r sub
  end.

(** [parts.join(sep)] *)
Fixpoint join (sep : string) (parts : list string) : string :=
  match parts with
  | [] => EmptyString
  | [p] => p
  | p :: rest => p +:+ sep +:+ join sep rest
  end.

(** [s.substring(0, n)] for [0 <= n] *)
Fixpoint substring0 (n : nat) (s : string) : string :=
  match n, s with
  | S n', String c r => String c (substring0 n' r)
  | _, _ => EmptyString
  end.

(** [s.split(sep)] for a separator [sep] of one character; the empty string
    gives the array of the empty string. *)
Fixpoint split (sep : ascii) (s : string) : list string :=
  match s with
  | EmptyString => [EmptyString]
  | String c r =>
      if Ascii.eqb c sep then EmptyString :: split sep r
      else match split sep r with
           | [] => [String c EmptyString]
           | p :: ps => String c p :: ps
           end
  end.

(** [s.replace(/C+/g, '-')] for a character class [C]: every maximal run of
    characters of the class becomes one hyphen.  [inRun] tells that the
    character before was of the class. *)
Fixpoint replaceRunsFrom (inClass : ascii → bool) (inRun : bool) (s : string) : string :=
  match s with
  | EmptyString => EmptyString
  | String c r =>
      if inClass c
      then if inRun then replaceRunsFrom inClass true r
           else String "-" (replaceRunsFrom inClass true r)
      else String c (replaceRunsFrom inClass false r)
  end.

Definition replaceRuns (inClass : ascii → bool) (s : string) : string :=
  replaceRunsFrom inClass false s.

Definition isHyphen (c : ascii) : bool := code c =? 45.

(** [s.replace(/[^\w\s-]/g, '')] *)
Fixpoint removeSpecial (s : string) : string :=
  match s with
  | EmptyString => EmptyString
  | String c r =>
      if isWordChar c || isWhitespace c || isHyphen c
      then String c (removeSpecial r)
      else removeSpecial r
  end.

End JsString.

(** ** The keyword normalizer *)

(** [SubjectIndex.normalizeKeyword], and the same pipeline inlined in
    [createIndexEntry]. *)
Definition normalizeKeyword (keyword : string) : string :=
  JsString.trim (JsString.removeNonWordNonSpace (JsString.toLowerCase keyword)).

Definition normalizeKeywords (keywords : list string) : list string :=
  map normalizeKeyword keywords.

(** The characters the normalizer keeps. *)
Definition kept (c : ascii) : bool :=
  JsString.isWordChar c || JsString.isWhitespace c.

(** ** The similarity index: data *)

Record SubjectIndexEntry := mkEntry {
  idHash : string;
  name : string;
  keywords : list string;
  normalizedKeywords : gset string;
  metadata : option (gmap string string)
}.

Record SubjectMatch := mkMatch {
  matchIdHash : string;
  matchName : string;
  matchKeywords : list string;
  matchingKeywords : list string;
  relevanceScore : Q
}.

Record IndexStats := mkStats {
  totalSubjects : nat;
  totalKeywords : nat;
  averageKeywordsPerSubject : Q;
  memoryUsageBytes : nat
}.

(** The two private maps of the class: keyword to posting list, and
    identifier to entry. *)
Record SubjectIndex := mkIndex {
  keywordToSubjects : gmap string (gset string);
  subjects : gmap string SubjectIndexEntry
}.

(** [new SubjectIndex()] *)
Definition newIndex : SubjectIndex := mkIndex ∅ ∅.

(** [createIndexEntry]; an absent keyword array counts as the empty one. *)
Definition createIndexEntry (id nm : string) (kws : option (list string))
    (md : option (gmap string string)) : SubjectIndexEntry :=
  let keywords := default [] kws in
  mkEntry id nm keywords (list_to_set (map normalizeKeyword keywords)) md.

(** ** The similarity index: operations *)

(** One turn of the indexing loop of [addSubject]: create the posting list
    when absent, then add the identifier to it. *)
Definition indexKeyword (id keyword : string)
    (m : gmap string (gset string)) : gmap string (gset string) :=
  let m1 := match m !! keyword with
            | Some _ => m
            | None => <[keyword := ∅]> m
            end in
  alter (λ X, X ∪ {[id]}) keyword m1.

(** One turn of the loop of [removeSubject]: delete the identifier from the
    posting list when there is one, and drop the list when it became empty. *)
Definition unindexKeyword (id keyword : string)
    (m : gmap string (gset string)) : gmap string (gset string) :=
  match m !! keyword with
  | Some X =>
      let X' := X ∖ {[id]} in
      if decide (size X' = 0) then delete keyword m else <[keyword := X']> m
  | None => m
  end.

Definition addSubject (entry : SubjectIndexEntry) (s : SubjectIndex) : SubjectIndex :=
  let idHashStr := idHash entry in
  mkIndex
    (set_fold (indexKeyword idHashStr) (keywordToSubjects s) (normalizedKeywords entry))
    (<[idHashStr := entry]> (subjects s)).

Definition removeSubject (id : string) (s : SubjectIndex) : bool * SubjectIndex :=
  match subjects s !! id with
  | None => (false, s)
  | Some entry =>
      (true,
       mkIndex
         (set_fold (unindexKeyword id) (keywordToSubjects s) (normalizedKeywords entry))
         (delete id (subjects s)))
  end.

(** [new Set(from)] followed by a [delete] for every element of [drop]. *)
Definition copyWithout (from drop : gset string) : gset string :=
  set_fold (λ keyword acc, acc ∖ {[keyword]}) from drop.

Definition updateSubject (entry : SubjectIndexEntry) (s : SubjectIndex) : SubjectIndex :=
  let idHashStr := idHash entry in
  match subjects s !! idHashStr with
  | None => addSubject entry s
  | Some oldEntry =>
      let removedKeywords :=
        copyWithout (normalizedKeywords oldEntry) (normalizedKeywords entry) in
      let addedKeywords :=
        copyWithout (normalizedKeywords entry) (normalizedKeywords oldEntry) in
      let m1 := set_fold (unindexKeyword idHashStr) (keywordToSubjects s) removedKeywords in
      let m2 := set_fold (indexKeyword idHashStr) m1 addedKeywords in
      mkIndex m2 (<[idHashStr := entry]> (subjects s))
  end.

Definition getSubject (id : string) (s : SubjectIndex) : option SubjectIndexEntry :=
  subjects s !! id.

Definition hasSubject (id : string) (s : SubjectIndex) : bool :=
  bool_decide (is_Some (subjects s !! id)).

Definition getAllSubjects (s : SubjectIndex) : list SubjectIndexEntry :=
  (map_to_list (subjects s)).*2.

Definition clear (s : SubjectIndex) : SubjectIndex := mkIndex ∅ ∅.

Definition buildFromSubjects (entries : list SubjectIndexEntry) (s : SubjectIndex)
    : SubjectIndex :=
  foldl (λ acc entry, addSubject entry acc) (clear s) entries.

Definition getStats (s : SubjectIndex) : IndexStats :=
  let total := foldr (λ entry acc, size (normalizedKeywords entry) + acc) 0
                 (getAllSubjects s) in
  let nSubjects := size (subjects s) in
  let nKeywords := size (keywordToSubjects s) in
  mkStats nSubjects nKeywords
    (if decide (0 < nSubjects)
     then Z.of_nat total # Pos.of_nat nSubjects else 0%Q)
    (nSubjects * 500 + nKeywords * 100).

(** *** Queries *)

Definition findMatchingKeywords (searchKeywords subjectKeywords : gset string)
    : list string :=
  foldl
    (λ matches keyword,
       if decide (keyword ∈ subjectKeywords) then matches ++ [keyword]
       else if existsb
                 (λ subjectKw, JsString.includes subjectKw keyword
                               || JsString.includes keyword subjectKw)
                 (elements subjectKeywords)
            then matches ++ [keyword]
            else matches)
    [] (elements searchKeywords).

Definition calculateJaccardSimilarity (setA setB : gset string) : Q :=
  let intersection : gset string :=
    set_fold (λ item acc, if decide (item ∈ setB) then acc ∪ {[item]} else acc) ∅ setA in
  let union : gset string := list_to_set (elements setA ++ elements setB) in
  if decide (size union = 0) then 0%Q
  else Z.of_nat (size intersection) # Pos.of_nat (size union).

(** The union of the posting lists of the query keywords. *)
Definition candidateIdHashes (normalized : list string) (s : SubjectIndex)
    : gset string :=
  foldl
    (λ acc keyword,
       match keywordToSubjects s !! keyword with
       | Some ids => acc ∪ ids
       | None => acc
       end)
    ∅ normalized.

(** The comparator given to [sort]: [b.relevanceScore - a.relevanceScore]. *)
Definition compareMatches (a b : SubjectMatch) : Q :=
  (relevanceScore b - relevanceScore a)%Q.

(** [Array.prototype.sort] is stable; an insertion sort that moves an element
    only past those the comparator orders strictly before it gives the same
    array. *)
Fixpoint insertMatch (x : SubjectMatch) (l : list SubjectMatch) : list SubjectMatch :=
  match l with
  | [] => [x]
  | y :: l' =>
      if Qle_bool (compareMatches x y) 0 then x :: y :: l'
      else y :: insertMatch x l'
  end.

Definition sortMatches (l : list SubjectMatch) : list SubjectMatch :=
  foldr insertMatch [] l.

Definition scoreCandidates (searchKeywordSet : gset string) (ids : list string)
    (s : SubjectIndex) : list SubjectMatch :=
  foldl
    (λ matches idHashStr,
       match subjects s !! idHashStr with
       | None => matches
       | Some entry =>
           let matching :=
             findMatchingKeywords searchKeywordSet (normalizedKeywords entry) in
           if 0 <? length matching
           then matches ++
                [mkMatch (idHash entry) (name entry) (keywords entry) matching
                   (calculateJaccardSimilarity searchKeywordSet
                      (normalizedKeywords entry))]
           else matches
       end)
    [] ids.

Definition findByKeywords (kws : list string) (s : SubjectIndex) : list SubjectMatch :=
  let normalized := normalizeKeywords kws in
  let candidates := candidateIdHashes normalized s in
  let searchKeywordSet : gset string := list_to_set normalized in
  sortMatches (scoreCandidates searchKeywordSet (elements candidates) s).

(** [array.slice(0, end)] for an integer [end]: a negative [end] counts from
    the end of the array. *)
Definition slice0 {A} (finish : Z) (l : list A) : list A :=
  let len := Z.of_nat (length l) in
  let final := if (finish <? 0)%Z then Z.max (len + finish) 0 else Z.min finish len in
  take (Z.to_nat final) l.

(** [findSimilar(keywords, limit = 10)]; [None] is the omitted argument. *)
Definition findSimilar (kws : list string) (limit : option Z) (s : SubjectIndex)
    : list SubjectMatch :=
  slice0 (default 10%Z limit) (findByKeywords kws s).

(** *** The states an index can be in *)

Inductive Operation :=
| OpAddSubject (entry : SubjectIndexEntry)
| OpUpdateSubject (entry : SubjectIndexEntry)
| OpRemoveSubject (id : string)
| OpBuildFromSubjects (entries : list SubjectIndexEntry)
| OpClear.

Definition perform (op : Operation) (s : SubjectIndex) : SubjectIndex :=
  match op with
  | OpAddSubject entry => addSubject entry s
  | OpUpdateSubject entry => updateSubject entry s
  | OpRemoveSubject id => (removeSubject id s).2
  | OpBuildFromSubjects entries => buildFromSubjects entries s
  | OpClear => clear s
  end.

(** A state is reachable when a sequence of public operations leads to it
    from a new index. *)
Inductive reachable : SubjectIndex → Prop :=
| reachable_new : reachable newIndex
| reachable_perform op s : reachable s → reachable (perform op s).

(** *** Notions the properties are stated with *)

(** A posting list after the identifier was added to it. *)
Definition addTo (id : string) (o : option (gset string)) : gset string :=
  default ∅ o ∪ {[id]}.

(** A posting list after the identifier was deleted from it: gone when
    nothing is left. *)
Definition dropFrom (id : string) (o : option (gset string)) : option (gset string) :=
  match o with
  | Some X => if decide (X ∖ {[id]} = ∅) then None else Some (X ∖ {[id]})
  | None => None
  end.

(** Every stored entry sits under its own identifier and is listed under each
    of its normalized keywords, and no posting list is empty. *)
Record consistent (s : SubjectIndex) : Prop := mkConsistent {
  consistent_key : ∀ id e, subjects s !! id = Some e → idHash e = id;
  consistent_indexed : ∀ id e k,
    subjects s !! id = Some e → k ∈ normalizedKeywords e →
    ∃ X, keywordToSubjects s !! k = Some X ∧ id ∈ X;
  consistent_nonempty : ∀ k X, keywordToSubjects s !! k = Some X → X ≠ ∅
}.

(** The order of a result: no later match scores higher. *)
Definition scoresNoHigher (a b : SubjectMatch) : Prop :=
  (relevanceScore b <= relevanceScore a)%Q.

(** What [findMatchingKeywords] pushes for one search keyword. *)
Definition keywordMatches (subjectKeywords : gset string) (keyword : string) : bool :=
  bool_decide (keyword ∈ subjectKeywords)
  || existsb (λ subjectKw, JsString.includes subjectKw keyword
                           || JsString.includes keyword subjectKw)
       (elements subjectKeywords).

(** The match the scoring loop builds for one stored entry. *)
Definition matchOf (searchKeywordSet : gset string) (entry : SubjectIndexEntry)
    : SubjectMatch :=
  mkMatch (idHash entry) (name entry) (keywords entry)
    (findMatchingKeywords searchKeywordSet (normalizedKeywords entry))
    (calculateJaccardSimilarity searchKeywordSet (normalizedKeywords entry)).

(** *** Example entries and states *)

Definition rustSystems : SubjectIndexEntry :=
  createIndexEntry "s1" "Rust systems" (Some ["rust"; "systems"]) None.
Definition rustWeb : SubjectIndexEntry :=
  createIndexEntry "s2" "Rust web" (Some ["Rust"; "web"]) None.
Definition rustOnly : SubjectIndexEntry :=
  createIndexEntry "s3" "Rust" (Some ["rust"]) None.
Definition threeSubjects : SubjectIndex :=
  buildFromSubjects [rustSystems; rustWeb; rustOnly] newIndex.

(** One identifier, indexed first under ["cat"] and then under ["cats"]. *)
Definition catEntry : SubjectIndexEntry :=
  createIndexEntry "s1" "Cat" (Some ["cat"]) None.
Definition catsEntry : SubjectIndexEntry :=
  createIndexEntry "s1" "Cats" (Some ["cats"]) None.
Definition dogEntry : SubjectIndexEntry :=
  createIndexEntry "s1" "Dog" (Some ["dog"]) None.

(** Every identifier of a posting list has a stored entry with that
    keyword. *)
Definition noStalePostings (s : SubjectIndex) : Prop :=
  ∀ k X id, keywordToSubjects s !! k = Some X → id ∈ X →
            ∃ e, subjects s !! id = Some e ∧ k ∈ normalizedKeywords e.

(** The states reached when [addSubject] is only given identifiers that are
    not stored, a stored subject being changed by [updateSubject]. *)
Inductive reachableWithoutOverwrite : SubjectIndex → Prop :=
| without_overwrite_new : reachableWithoutOverwrite newIndex
| without_overwrite_add entry s :
    reachableWithoutOverwrite s → subjects s !! idHash entry = None →
    reachableWithoutOverwrite (addSubject entry s)
| without_overwrite_update entry s :
    reachableWithoutOverwrite s → reachableWithoutOverwrite (updateSubject entry s)
| without_overwrite_remove id s :
    reachableWithoutOverwrite s → reachableWithoutOverwrite (removeSubject id s).2
| without_overwrite_clear s :
    reachableWithoutOverwrite s → reachableWithoutOverwrite (clear s).

(** ** The extraction pipeline of the chat memory service *)

Module ChatMemory.

Record ChatMemoryConfig := mkConfig {
  topicId : string;
  enabled : bool;
  autoExtract : bool;
  updateInterval : option Z;
  minConfidence : option Q;
  trackedKeywords : option (list string)
}.

Record Message := mkMessage {
  hash : string;
  content : string;
  text : string
}.

Record ExtractedSubject := mkSubject {
  subjectName : string;
  subjectKeywords : list string;
  confidence : Q;
  description : string;
  messageExcerpt : string
}.

Record ExtractSubjectsRequest := mkRequest {
  requestTopicId : string;
  messageIds : option (list string);
  limit : option Z
}.

Record ExtractSubjectsResponse := mkResponse {
  responseSubjects : list ExtractedSubject;
  totalMessages : nat;
  processingTime : Z
}.

(** What one call of the keyword extractor does: it throws, or it returns
    an array of keywords or nothing. *)
Inductive Extraction :=
| Throws
| Returns (keywords : option (list string)).

(** The collaborators.  [topicAnalyzer] and [memoryPlan] may be missing.
    [getMessages] stands for the private method of that name, the retrieval
    from the channel store: it gives the batch or throws.  [memoryPlan] is
    given the topic and the subject that [storeSubjectAsMemory] stores, and
    gives the identifier of the stored subject or throws. *)
Record Dependencies := mkDeps {
  getMessages : string → option (list string) → option Z → string + list Message;
  topicAnalyzer : option (string → nat → Extraction);
  memoryPlan : option (string → ExtractedSubject → option string)
}.

Record Service := mkService {
  configs : gmap string ChatMemoryConfig;
  deps : Dependencies
}.

(** The calls that leave the service, in order. *)
Inductive Event :=
| ExtractKeywords (body : string) (maxKeywords : nat)
| LogError
| CreateSubject (topic : string) (subject : ExtractedSubject).

Inductive Outcome :=
| Rejected (error : string)
| Resolved (response : ExtractSubjectsResponse).

(** [enableMemories], without the write to the object store. *)
Definition enableMemories (topic : string) (autoExtract' : option bool)
    (updateInterval' : option Z) (minConfidence' : option Q)
    (keywords' : option (list string)) (svc : Service) : Service :=
  let memoryConfig :=
    mkConfig topic true (default true autoExtract')
      (Some (default 60000%Z updateInterval'))
      (Some (default (1 # 2)%Q minConfidence'))
      (Some (default [] keywords')) in
  mkService (<[topic := memoryConfig]> (configs svc)) (deps svc).

Definition getConfig (topic : string) (svc : Service) : option ChatMemoryConfig :=
  configs svc !! topic.

Definition isEnabled (topic : string) (svc : Service) : bool :=
  match configs svc !! topic with
  | Some config => enabled config
  | None => false
  end.

(** [message.text || message.content] *)
Definition body (message : Message) : string :=
  if decide (text message = "") then content message else text message.

Definition getExcerpt (content : string) (maxLength : nat) : string :=
  if String.length content <=? maxLength then content
  else JsString.substring0 maxLength content +:+ "...".

(** One turn of the frequency loop:
    [allKeywords.set(normalized, (allKeywords.get(normalized) || 0) + 1)]. *)
Definition trackKeyword (allKeywords : gmap string nat) (keyword : string)
    : gmap string nat :=
  let normalized := JsString.toLowerCase keyword in
  <[normalized := default 0 (allKeywords !! normalized) + 1]> allKeywords.

(** [allKeywords.get(String(kw).toLowerCase()) || 1] *)
Definition frequencyOf (allKeywords : gmap string nat) (kw : string) : nat :=
  match allKeywords !! JsString.toLowerCase kw with
  | Some (S n) => S n
  | _ => 1
  end.

Definition ratio (a b : nat) : Q := (inject_Z (Z.of_nat a) / inject_Z (Z.of_nat b))%Q.

(** The confidence of the candidate made of [topKeywords], in a batch of
    [total] messages. *)
Definition confidenceOf (allKeywords : gmap string nat) (topKeywords : list string)
    (total : nat) : Q :=
  let avgFreq :=
    ratio (foldl (λ sum kw, sum + frequencyOf allKeywords kw) 0 topKeywords)
          (length topKeywords) in
  Qmin (avgFreq / inject_Z (Z.of_nat total)) 1.

(** [config?.minConfidence ?? 0.5] *)
Definition minimumOf (config : option ChatMemoryConfig) : Q :=
  default (1 # 2)%Q (config ≫= minConfidence).

(** The state of the loop over the messages. *)
Record LoopState := mkLoop {
  extractedSubjects : list ExtractedSubject;
  allKeywords : gmap string nat;
  trace : list Event
}.

(** The body of the loop for one message; [config] is what [getConfig] gave. *)
Definition processMessage (analyze : string → nat → Extraction)
    (config : option ChatMemoryConfig) (total : nat)
    (st : LoopState) (message : Message) : LoopState :=
  let called := trace st ++ [ExtractKeywords (body message) 10] in
  match analyze (body message) 10 with
  | Throws => mkLoop (extractedSubjects st) (allKeywords st) (called ++ [LogError])
  | Returns None | Returns (Some []) => mkLoop (extractedSubjects st) (allKeywords st) called
  | Returns (Some keywords) =>
      let counted := foldl trackKeyword (allKeywords st) keywords in
      let topKeywords := take 3 keywords in
      let subjectName := JsString.join " " topKeywords in
      let confidence := confidenceOf counted topKeywords total in
      if Qle_bool (minimumOf config) confidence
      then mkLoop
             (extractedSubjects st ++
              [mkSubject subjectName topKeywords confidence
                 (getExcerpt (body message) 150) (getExcerpt (body message) 200)])
             counted called
      else mkLoop (extractedSubjects st) counted called
  end.

(** The loop over the messages, from its initial state. *)
Definition runLoop (analyze : string → nat → Extraction)
    (config : option ChatMemoryConfig) (messages : list Message) : LoopState :=
  foldl (processMessage analyze config (length messages)) (mkLoop [] ∅ []) messages.

(** *** Deduplication by label *)

Fixpoint seenGet (key : string) (seen : list (string * ExtractedSubject))
    : option ExtractedSubject :=
  match seen with
  | [] => None
  | (k, v) :: rest => if decide (k = key) then Some v else seenGet key rest
  end.

(** [Map.set]: a present key keeps its place, a new one goes last. *)
Fixpoint seenSet (key : string) (v : ExtractedSubject)
    (seen : list (string * ExtractedSubject)) : list (string * ExtractedSubject) :=
  match seen with
  | [] => [(key, v)]
  | (k, v') :: rest =>
      if decide (k = key) then (k, v) :: rest else (k, v') :: seenSet key v rest
  end.

(** The body of the loop of [deduplicateSubjects]: the subject is set under
    its lower case label when none is there or it has the higher confidence. *)
Definition seenStep (seen : list (string * ExtractedSubject))
    (subject : ExtractedSubject) : list (string * ExtractedSubject) :=
  let key := JsString.toLowerCase (subjectName subject) in
  match seenGet key seen with
  | None => seenSet key subject seen
  | Some existing =>
      if negb (Qle_bool (confidence subject) (confidence existing))
      then seenSet key subject seen
      else seen
  end.

(** [Array.from(seen.values())] after the loop. *)
Definition deduplicateSubjects (found : list ExtractedSubject) : list ExtractedSubject :=
  (foldl seenStep [] found).*2.

(** The loop that stores the unique subjects, each by a call of
    [storeSubjectAsMemory], which is the call of the store (the association
    it records afterwards is left out); it stops at the first call that
    throws. *)
Fixpoint storeSubjects (store : string → ExtractedSubject → option string)
    (topic : string) (unique : list ExtractedSubject) : bool * list Event :=
  match unique with
  | [] => (true, [])
  | subject :: rest =>
      match store topic subject with
      | None => (false, [CreateSubject topic subject])
      | Some _ =>
          let '(ok, events) := storeSubjects store topic rest in
          (ok, CreateSubject topic subject :: events)
      end
  end.

(** [extractAndStoreSubjects]; [startTime] and [endTime] are the two readings
    of the clock.  An error thrown by the store rejects the call. *)
Definition extractAndStoreSubjects (svc : Service) (request : ExtractSubjectsRequest)
    (startTime endTime : Z) : Outcome * list Event :=
  if negb (isEnabled (requestTopicId request) svc)
  then (Rejected ("Memories not enabled for topic: " +:+ requestTopicId request), [])
  else
    match topicAnalyzer (deps svc) with
    | None => (Rejected "Topic analyzer not available", [])
    | Some analyze =>
        match memoryPlan (deps svc) with
        | None => (Rejected "Memory plan not available", [])
        | Some store =>
            let config := getConfig (requestTopicId request) svc in
            match getMessages (deps svc) (requestTopicId request)
                    (messageIds request) (limit request) with
            | inl error => (Rejected error, [])
            | inr messages =>
                let final := runLoop analyze config messages in
                let uniqueSubjects := deduplicateSubjects (extractedSubjects final) in
                let '(stored, events) :=
                  storeSubjects store (requestTopicId request) uniqueSubjects in
                if stored
                then (Resolved (mkResponse (extractedSubjects final) (length messages)
                                  (endTime - startTime)),
                      trace final ++ events)
                else (Rejected "createSubject failed", trace final ++ events)
            end
        end
    end.

(** *** What the loop computes, stated over the batch *)

(** The keywords a message contributes: those the extractor returned, none
    when it threw or returned nothing. *)
Definition usableKeywords (analyze : string → nat → Extraction) (message : Message)
    : list string :=
  match analyze (body message) 10 with
  | Returns (Some keywords) => keywords
  | _ => []
  end.

(** How often [k] is the lower case of a keyword of [kws]. *)
Definition occurrences (k : string) (kws : list string) : nat :=
  length (filter (λ w, JsString.toLowerCase w = k) kws).

(** The frequency of a keyword counted through the messages [processed]. *)
Definition frequencySoFar (analyze : string → nat → Extraction)
    (processed : list Message) (kw : string) : nat :=
  occurrences (JsString.toLowerCase kw) (processed ≫= usableKeywords analyze).

(** The candidate of message [m], which comes after the messages [before] in a
    batch of [total] messages. *)
Definition candidateOf (analyze : string → nat → Extraction) (minimum : Q)
    (total : nat) (before : list Message) (m : Message) : option ExtractedSubject :=
  match usableKeywords analyze m with
  | [] => None
  | kws =>
      let top := take 3 kws in
      let conf :=
        Qmin (ratio (sum_list (frequencySoFar analyze (before ++ [m]) <$> top))
                (length top)
              / inject_Z (Z.of_nat total)) 1 in
      if Qle_bool minimum conf
      then Some (mkSubject (JsString.join " " top) top conf
                   (getExcerpt (body m) 150) (getExcerpt (body m) 200))
      else None
  end.

Fixpoint candidatesFrom (analyze : string → nat → Extraction) (minimum : Q)
    (total : nat) (before rest : list Message) : list ExtractedSubject :=
  match rest with
  | [] => []
  | m :: rest' =>
      option_list (candidateOf analyze minimum total before m)
      ++ candidatesFrom analyze minimum total (before ++ [m]) rest'
  end.


(** *** An example batch *)

Definition exampleAnalyzer (b : string) (maxKeywords : nat) : Extraction :=
  if decide (b = "first") then Returns (Some ["a"])
  else if decide (b = "second") then Returns (Some ["b"; "c"; "d"; "a"])
  else if decide (b = "broken") then Throws
  else Returns None.


Definition brokenBatch : list Message :=
  [mkMessage "h1" "" "first"; mkMessage "h0" "broken" ""; mkMessage "h2" "" "second"].

Definition exampleService : Service :=
  enableMemories "topic" None None (Some (1 # 4)%Q) None
    (mkService ∅
       (mkDeps (λ _ _ _, inr brokenBatch) (Some exampleAnalyzer)
          (Some (λ _ subject, Some (subjectName subject))))).



(** *** Notions the properties of the deduplication are stated with *)

(** The key of the [seen] map: the label in lower case. *)
Definition labelKey (subject : ExtractedSubject) : string :=
  JsString.toLowerCase (subjectName subject).

(** What the loop of [deduplicateSubjects] keeps true of its map, the
    subjects [processed] so far being given. *)
Record seenFor (processed : list ExtractedSubject)
    (seen : list (string * ExtractedSubject)) : Prop := mkSeenFor {
  seen_keys : NoDup seen.*1;
  seen_values : ∀ k v, (k, v) ∈ seen → k = labelKey v ∧ v ∈ processed;
  seen_best : ∀ x, x ∈ processed →
    ∃ v, seenGet (labelKey x) seen = Some v ∧ (confidence x <= confidence v)%Q
}.

(** *** Switching extraction off *)

(** [disableMemories], without the write to the object store: the stored
    configuration, when there is one, gets [enabled = false]. *)
Definition disableMemories (topic : string) (svc : Service) : Service :=
  match configs svc !! topic with
  | Some config =>
      mkService
        (<[topic := mkConfig (topicId config) false (autoExtract config)
                      (updateInterval config) (minConfidence config)
                      (trackedKeywords config)]> (configs svc))
        (deps svc)
  | None => svc
  end.

(** *** Retrieval of related memories *)

(** A stored subject, as [findRelatedMemories] and [updateMemory] read it. *)
Record StoredSubject := mkStored {
  storedName : string;
  storedDescription : option string;
  storedMetadata : option (gmap string string);
  storedCreated : Z;
  storedModified : option Z
}.

(** The memory store as these two methods use it; a call gives its result
    or throws (the message on the left). *)
Record SubjectStore := mkStore {
  listSubjects : string + list string;
  getSubject : string → string + option StoredSubject;
  updateSubject : string → string → gmap string string → option string
}.

Record RelatedMemory := mkRelated {
  subjectIdHash : string;
  relatedName : string;
  relatedKeywords : list string;
  relatedScore : Q;
  lastUpdated : Z
}.

Record FindRelatedMemoriesRequest := mkFind {
  findKeywords : list string;
  findLimit : option Z;
  minRelevance : option Q
}.

Record FindRelatedMemoriesResponse := mkFound {
  memories : list RelatedMemory;
  searchKeywords : list string;
  totalFound : nat
}.

(** [extractKeywordsFromSubject]: the [keywords] metadata split at the
    commas, each piece trimmed; nothing when the metadata or the key is
    missing or the value is the empty string. *)
Definition extractKeywordsFromSubject (subject : StoredSubject) : list string :=
  match storedMetadata subject with
  | Some metadata =>
      match metadata !! "keywords" with
      | Some keywordsStr =>
          if decide (keywordsStr = "") then []
          else JsString.trim <$> JsString.split "," keywordsStr
      | None => []
      end
  | None => []
  end.

(** [calculateRelevance] *)
Definition calculateRelevance (keywords1 keywords2 : list string) : Q :=
  if (length keywords1 =? 0) || (length keywords2 =? 0) then 0%Q
  else
    let set1 : gset string := list_to_set (JsString.toLowerCase <$> keywords1) in
    let set2 : gset string := list_to_set (JsString.toLowerCase <$> keywords2) in
    let overlap := set_fold (λ k n, if decide (k ∈ set2) then S n else n) 0 set1 in
    let union := size (list_to_set (elements set1 ++ elements set2) : gset string) in
    ratio overlap union.

(** The stable sort by [b.relevanceScore - a.relevanceScore]. *)
Fixpoint insertMemory (x : RelatedMemory) (l : list RelatedMemory) : list RelatedMemory :=
  match l with
  | [] => [x]
  | y :: l' =>
      if Qle_bool (relatedScore y - relatedScore x) 0 then x :: y :: l'
      else y :: insertMemory x l'
  end.

Definition sortMemories (l : list RelatedMemory) : list RelatedMemory :=
  foldr insertMemory [] l.

(** The loop over the stored subjects; it stops when a read throws. *)
Fixpoint collectRelated (store : SubjectStore) (request : FindRelatedMemoriesRequest)
    (ids : list string) (relatedMemories : list RelatedMemory)
    : string + list RelatedMemory :=
  match ids with
  | [] => inr relatedMemories
  | idHash :: rest =>
      match getSubject store idHash with
      | inl error => inl error
      | inr None => collectRelated store request rest relatedMemories
      | inr (Some subject) =>
          let subjectKeywords := extractKeywordsFromSubject subject in
          let relevanceScore := calculateRelevance (findKeywords request) subjectKeywords in
          if Qle_bool (default (3 # 10)%Q (minRelevance request)) relevanceScore
          then collectRelated store request rest
                 (relatedMemories ++
                  [mkRelated idHash (storedName subject) subjectKeywords relevanceScore
                     (default (storedCreated subject) (storedModified subject))])
          else collectRelated store request rest relatedMemories
      end
  end.

(** [findRelatedMemories]; a limit of zero counts as none. *)
Definition findRelatedMemories (plan : option SubjectStore)
    (request : FindRelatedMemoriesRequest) : string + FindRelatedMemoriesResponse :=
  match plan with
  | None => inl "Memory plan not available"
  | Some store =>
      match listSubjects store with
      | inl error => inl error
      | inr allSubjectIds =>
          match collectRelated store request allSubjectIds [] with
          | inl error => inl error
          | inr relatedMemories =>
              let sorted := sortMemories relatedMemories in
              let limited :=
                match findLimit request with
                | Some n => if (n =? 0)%Z then sorted else slice0 n sorted
                | None => sorted
                end in
              inr (mkFound limited (findKeywords request) (length sorted))
          end
      end
  end.

(** What the loop pushes for one stored subject that could be read. *)
Definition relatedOf (request : FindRelatedMemoriesRequest) (idHash : string)
    (subject : StoredSubject) : RelatedMemory :=
  mkRelated idHash (storedName subject) (extractKeywordsFromSubject subject)
    (calculateRelevance (findKeywords request) (extractKeywordsFromSubject subject))
    (default (storedCreated subject) (storedModified subject)).

(** The lower case keywords of a list, as a set. *)
Definition lowerSet (keywords : list string) : gset string :=
  list_to_set (JsString.toLowerCase <$> keywords).

(** The metadata [storeSubjectAsMemory] gives to the store; [confidenceText]
    and [extractedAt] are the printed confidence and clock reading. *)
Definition memoryMetadata (topic : string) (subject : ExtractedSubject)
    (confidenceText extractedAt : string) : gmap string string :=
  let metadata : gmap string string :=
    <["extractedAt" := extractedAt]>
      (<["extractedFrom" := topic]>
         (<["confidence" := confidenceText]>
            (<["keywords" := JsString.join "," (subjectKeywords subject)]> ∅))) in
  if decide (messageExcerpt subject = "") then metadata
  else <["excerpt" := messageExcerpt subject]> metadata.

(** What the loop of [findRelatedMemories] pushes for one identifier whose
    read did not throw. *)
Definition relatedFor (store : SubjectStore) (request : FindRelatedMemoriesRequest)
    (idHash : string) : list RelatedMemory :=
  match getSubject store idHash with
  | inr (Some subject) =>
      if Qle_bool (default (3 # 10)%Q (minRelevance request))
           (calculateRelevance (findKeywords request) (extractKeywordsFromSubject subject))
      then [relatedOf request idHash subject]
      else []
  | _ => []
  end.

(** The order of a result: no later memory scores higher. *)
Definition memoryNoHigher (a b : RelatedMemory) : Prop :=
  (relatedScore b <= relatedScore a)%Q.

(** The cut [findRelatedMemories] makes for a limit. *)
Definition limitMemories (limit : option Z) (sorted : list RelatedMemory)
    : list RelatedMemory :=
  match limit with
  | Some n => if (n =? 0)%Z then sorted else slice0 n sorted
  | None => sorted
  end.

(** A store of two subjects with the same keywords. *)
Definition exampleStore : SubjectStore :=
  mkStore (inr ["m1"; "m2"])
    (λ id, inr (Some (mkStored id None (Some {["keywords" := "Rust, cli"]}) 7 None)))
    (λ id _ _, Some id).

(** The identifier [storeSubjectAsMemory] asks the store to create the
    subject under:
    [`chat-${topicId}-${subject.name.toLowerCase().replace(/\s+/g, '-')}`]. *)
Definition memoryId (topic : string) (subject : ExtractedSubject) : string :=
  "chat-" +:+ topic +:+ "-"
  +:+ JsString.replaceRuns JsString.isWhitespace (JsString.toLowerCase (subjectName subject)).


(** *** Updating a memory, and the associations of a topic *)

Record ChatMemoryAssociation := mkAssociation {
  associationId : string;
  associationTopic : string;
  associationSubject : string;
  associationKeywords : list string;
  associationConfidence : Q;
  associationCreated : Z;
  associationUpdated : Z;
  messageCount : nat
}.

(** [getAssociations] *)
Definition getAssociations (topic : string)
    (associations : gmap string (list ChatMemoryAssociation))
    : list ChatMemoryAssociation :=
  default [] (associations !! topic).

(** [createAssociation], without the write to the object store; [created]
    and [updated] are the two readings of the clock. *)
Definition createAssociation (topic subjectIdHash : string) (keywords : list string)
    (confidence : Q) (created updated : Z)
    (associations : gmap string (list ChatMemoryAssociation))
    : gmap string (list ChatMemoryAssociation) :=
  let association :=
    mkAssociation (topic +:+ "-" +:+ subjectIdHash) topic subjectIdHash keywords
      confidence created updated 1 in
  <[topic := default [] (associations !! topic) ++ [association]]> associations.

(** The change [updateAssociation] makes to the first association of the
    subject in an array. *)
Fixpoint updateFirst (subjectIdHash : string) (keywords : list string) (now : Z)
    (l : list ChatMemoryAssociation) : list ChatMemoryAssociation :=
  match l with
  | [] => []
  | a :: rest =>
      if decide (associationSubject a = subjectIdHash)
      then mkAssociation (associationId a) (associationTopic a) (associationSubject a)
             keywords (associationConfidence a) (associationCreated a) now
             (messageCount a + 1)
           :: rest
      else a :: updateFirst subjectIdHash keywords now rest
  end.

(** [updateAssociation], without the write to the object store. *)
Definition updateAssociation (topic subjectIdHash : string) (keywords : list string)
    (now : Z) (associations : gmap string (list ChatMemoryAssociation))
    : gmap string (list ChatMemoryAssociation) :=
  match associations !! topic with
  | Some l => <[topic := updateFirst subjectIdHash keywords now l]> associations
  | None => associations
  end.





End ChatMemory.

(** ** The handler of the chat memory service *)

Module ChatMemoryHandler.
Import ChatMemory.

(** [enableMemories(topicId, autoExtract = true, keywords = [])] *)
Definition enableMemories (topic : string) (autoExtract' : option bool)
    (keywords' : option (list string)) (svc : Service) : Service :=
  ChatMemory.enableMemories topic (Some (default true autoExtract')) None None
    (Some (default [] keywords')) svc.

Definition disableMemories (topic : string) (svc : Service) : Service :=
  ChatMemory.disableMemories topic svc.

(** [toggleMemories]: the state it reports, and the service afterwards. *)
Definition toggleMemories (topic : string) (svc : Service) : bool * Service :=
  if isEnabled topic svc then (false, disableMemories topic svc)
  else (true, enableMemories topic None None svc).

(** [findRelatedMemories(topicId, keywords, limit = 10)] *)
Definition findRelatedMemories (plan : option SubjectStore) (keywords : list string)
    (limit : option Z) : string + FindRelatedMemoriesResponse :=
  ChatMemory.findRelatedMemories plan
    (mkFind keywords (Some (default 10%Z limit)) (Some (3 # 10)%Q)).

End ChatMemoryHandler.

(** ** Identifiers of subjects: chat-scoped and global *)

Module SubjectMigration.

(** [isChatScopedSubjectId] *)
Definition isChatScopedSubjectId (id : string) : bool :=
  JsString.isPrefixOf "chat-" id && (3 <=? length (JsString.split "-" id)).

(** [parseChatScopedId]: the topic is the second piece of the identifier cut
    at its hyphens, the name the remaining pieces joined again. *)
Definition parseChatScopedId (id : string) : option (string * string) :=
  if negb (isChatScopedSubjectId id) then None
  else
    let parts := JsString.split "-" id in
    let name := JsString.join "-" (drop 2 parts) in
    match parts !! 1 with
    | Some topicId =>
        if decide (topicId = "") then None
        else if decide (name = "") then None
        else Some (topicId, name)
    | None => None
    end.

(** [generateGlobalSubjectId] *)
Definition generateGlobalSubjectId (name : string) : string :=
  let normalized :=
    JsString.trim
      (JsString.replaceRuns JsString.isHyphen
         (JsString.replaceRuns JsString.isWhitespace
            (JsString.removeSpecial (JsString.toLowerCase name)))) in
  "subject-" +:+ normalized.

End SubjectMigration.

(** The characters of a global identifier after its prefix. *)
Definition isIdChar (c : ascii) : bool :=
  JsString.isLower c || JsString.isDigit c || JsString.isUnderscore c
  || JsString.isHyphen c.

(** The characters [generateGlobalSubjectId] turns into hyphens. *)
Definition isSeparator (c : ascii) : bool :=
  JsString.isWhitespace c || JsString.isHyphen c.

(** The identifier and the chat source under which
    [SubjectMemoryPlan.createSubject] files a subject it is asked to create
    as [id] with no sources given: a chat-scoped identifier is turned into
    the global one of its name, and its topic becomes the source. *)
Definition globalIdOf (id : string) : string * option string :=
  if SubjectMigration.isChatScopedSubjectId id
  then match SubjectMigration.parseChatScopedId id with
       | Some (topicId, name) =>
           (SubjectMigration.generateGlobalSubjectId name, Some topicId)
       | None => (id, None)
       end
  else (id, None).

(** ** The subject memory plan: the index behind a cache and a store *)

Module SubjectMemoryPlan.

(** A subject as the plan reads it. *)
Record Subject := mkSubject {
  subjectId : string;
  subjectKeywords : option (list string);
  subjectDescription : option string
}.

(** The underlying subject plan; a call gives its result or throws (the
    message on the left). *)
Record Storage := mkStorage {
  storedIds : string + list string;
  storedSubject : string → string + option Subject
}.

(** The fields of the class. *)
Record Plan := mkPlan {
  index : SubjectIndex;
  indexInitialized : bool;
  subjectCache : gmap string Subject
}.

Definition newPlan : Plan := mkPlan newIndex false ∅.

(** [getSubject]: the cache first, then the storage, caching what it finds. *)
Definition getSubject (storage : Storage) (idHash : string) (plan : Plan)
    : (string + option Subject) * Plan :=
  match subjectCache plan !! idHash with
  | Some cached => (inr (Some cached), plan)
  | None =>
      match storedSubject storage idHash with
      | inl error => (inl error, plan)
      | inr None => (inr None, plan)
      | inr (Some subject) =>
          (inr (Some subject),
           mkPlan (index plan) (indexInitialized plan)
             (<[idHash := subject]> (subjectCache plan)))
      end
  end.

(** The loop of [buildIndex] that reads the listed subjects. *)
Fixpoint loadSubjects (storage : Storage) (subjectIds : list string) (plan : Plan)
    (loaded : list Subject) : (string + list Subject) * Plan :=
  match subjectIds with
  | [] => (inr loaded, plan)
  | idHash :: rest =>
      match getSubject storage idHash plan with
      | (inl error, plan') => (inl error, plan')
      | (inr None, plan') => loadSubjects storage rest plan' loaded
      | (inr (Some subject), plan') =>
          loadSubjects storage rest plan' (loaded ++ [subject])
      end
  end.

(** The index entry made of a subject: its [id] as identifier, and its
    description, or else its [id], as name. *)
Definition entryOf (s : Subject) : SubjectIndexEntry :=
  createIndexEntry (subjectId s)
    (match subjectDescription s with
     | Some d => if decide (d = "") then subjectId s else d
     | None => subjectId s
     end)
    (subjectKeywords s) None.

(** [buildIndex], for a plan that has its storage: the error it rethrows, if
    any, and the plan afterwards. *)
Definition buildIndex (storage : Storage) (plan : Plan) : option string * Plan :=
  match storedIds storage with
  | inl error => (Some error, plan)
  | inr subjectIds =>
      match loadSubjects storage subjectIds plan [] with
      | (inl error, plan') => (Some error, plan')
      | (inr loaded, plan') =>
          (None,
           mkPlan (buildFromSubjects (entryOf <$> loaded) (index plan')) true
             (subjectCache plan'))
      end
  end.

Definition ensureIndex (storage : Storage) (plan : Plan) : option string * Plan :=
  if indexInitialized plan then (None, plan) else buildIndex storage plan.

(** [searchByKeywords(keywords, limit = 10)] *)
Definition searchByKeywords (storage : Storage) (keywords : list string)
    (limit : option Z) (plan : Plan) : (string + list SubjectMatch) * Plan :=
  match ensureIndex storage plan with
  | (Some error, plan') => (inl error, plan')
  | (None, plan') =>
      (inr (findSimilar keywords (Some (default 10%Z limit)) (index plan')), plan')
  end.

(** [findSimilar(idHash, limit = 10)]; the [findSimilar] in its body is
    [this.index.findSimilar]. *)
Definition findSimilar (storage : Storage) (idHash : string) (limit : option Z)
    (plan : Plan) : (string + list SubjectMatch) * Plan :=
  match getSubject storage idHash plan with
  | (inl error, plan1) => (inl error, plan1)
  | (inr None, plan1) => (inr [], plan1)
  | (inr (Some subject), plan1) =>
      match subjectKeywords subject with
      | None => (inr [], plan1)
      | Some keywords =>
          match ensureIndex storage plan1 with
          | (Some error, plan2) => (inl error, plan2)
          | (None, plan2) =>
              let matches :=
                findSimilar keywords (Some (default 10 limit + 1)%Z) (index plan2) in
              (inr (slice0 (default 10%Z limit)
                      (filter (λ m, matchIdHash m ≠ idHash) matches)),
               plan2)
          end
      end
  end.

(** What [getSubject] gives for an identifier: the cached subject, or else
    the stored one. *)
Definition visible (storage : Storage) (plan : Plan) (idHash : string)
    : option Subject :=
  match subjectCache plan !! idHash with
  | Some cached => Some cached
  | None =>
      match storedSubject storage idHash with
      | inr (Some subject) => Some subject
      | _ => None
      end
  end.

(** The reads of the listed subjects do not throw. *)
Definition readable (storage : Storage) (plan : Plan) (subjectIds : list string) : Prop :=
  ∀ idHash, idHash ∈ subjectIds →
    is_Some (subjectCache plan !! idHash) ∨ ∃ r, storedSubject storage idHash = inr r.

(** A storage of two subjects, listed under their hashes. *)
Definition exampleStorage : Storage :=
  mkStorage (inr ["h1"; "h2"; "h3"])
    (λ idHash,
       if decide (idHash = "h1")
       then inr (Some (mkSubject "h1" (Some ["rust"; "systems"]) None))
       else if decide (idHash = "h2")
            then inr (Some (mkSubject "h2" (Some ["rust"; "web"]) (Some "web things")))
            else inr None).

(** A storage every call of which throws. *)
Definition brokenStorage : Storage :=
  mkStorage (inl "storage gone") (λ _, inl "storage gone").

End SubjectMemoryPlan.

(** What the scoring loop of [findByKeywords] pushes for one candidate. *)
Definition candidateMatch (searchKeywordSet : gset string) (s : SubjectIndex)
    (idHashStr : string) : list SubjectMatch :=
  match subjects s !! idHashStr with
  | None => []
  | Some entry =>
      if 0 <? length (findMatchingKeywords searchKeywordSet (normalizedKeywords entry))
      then [matchOf searchKeywordSet entry]
      else []
  end.

(** The identifiers of the entries of a list that have the keyword [k]. *)
Definition idsWithKeyword (k : string) (entries : list SubjectIndexEntry) : gset string :=
  list_to_set (idHash <$> filter (λ e, k ∈ normalizedKeywords e) entries).

(** The last entry of a list that has the identifier [id]. *)
Definition lastWithId (id : string) (entries : list SubjectIndexEntry)
    : option SubjectIndexEntry :=
  last (filter (λ e, idHash e = id) entries).

(** The normalized keywords of the stored entries, taken together. *)
Definition storedKeywords (s : SubjectIndex) : gset string :=
  ⋃ (normalizedKeywords <$> getAllSubjects s).

(** [sub] occurs in [s]. *)
Definition occursIn (sub s : string) : Prop :=
  ∃ pre post, s = pre +:+ sub +:+ post.

(** * Properties *)

(** ** The keyword normalizer *)

Example normalize_hyphen : normalizeKeyword "Project-Lama!!" = "projectlama".
Proof. reflexivity. Qed.

Example normalize_space : normalizeKeyword "  Project Lama " = "project lama".
Proof. reflexivity. Qed.

Example normalize_underscore : normalizeKeyword "snake_Case" = "snake_case".
Proof. reflexivity. Qed.

Section string_facts.
Import JsString.

Lemma toLowerCase_chars s :
  String.list_ascii_of_string (toLowerCase s) = map lowerChar (String.list_ascii_of_string s).
Proof. induction s as [|c r IH]; simpl; [done | by rewrite IH]. Qed.

Lemma removeNonWordNonSpace_chars s :
  String.list_ascii_of_string (removeNonWordNonSpace s)
  = List.filter kept (String.list_ascii_of_string s).
Proof.
  induction s as [|c r IH]; simpl; [done |].
  unfold kept at 1. destruct (isWordChar c || isWhitespace c); simpl; by rewrite IH.
Qed.

Lemma trimStart_chars s :
  ∃ w, Forall (λ c, isWhitespace c = true) w
       ∧ String.list_ascii_of_string s = w ++ String.list_ascii_of_string (trimStart s).
Proof.
  induction s as [|c r (w & Hw & IH)]; simpl.
  - by exists [].
  - destruct (isWhitespace c) eqn:Hc.
    + exists (c :: w). split; [by constructor |]. simpl. by rewrite IH.
    + by exists [].
Qed.

Lemma trimStart_head s c :
  head (String.list_ascii_of_string (trimStart s)) = Some c → isWhitespace c = false.
Proof.
  induction s as [|a r IH]; simpl; [done |].
  destruct (isWhitespace a) eqn:Ha; [done |].
  simpl. by intros [= <-].
Qed.

Lemma trimEnd_chars s :
  ∃ w, Forall (λ c, isWhitespace c = true) w
       ∧ String.list_ascii_of_string s = String.list_ascii_of_string (trimEnd s) ++ w.
Proof.
  induction s as [|c r (w & Hw & IH)]; simpl.
  - by exists [].
  - destruct (trimEnd r) as [|c' r'] eqn:Hr.
    + destruct (isWhitespace c) eqn:Hc.
      * exists (c :: w). split; [by constructor |]. simpl in *. by rewrite IH.
      * exists w. split; [done |]. simpl in *. by rewrite IH.
    + exists w. split; [done |]. simpl in *. by rewrite IH.
Qed.

Lemma trimEnd_last s c :
  last (String.list_ascii_of_string (trimEnd s)) = Some c → isWhitespace c = false.
Proof.
  induction s as [|a r IH]; simpl; [done |].
  destruct (trimEnd r) as [|c' r'] eqn:Hr.
  - destruct (isWhitespace a) eqn:Ha; simpl; [done |]. by intros [= <-].
  - simpl in *. destruct (String.list_ascii_of_string r'); simpl in *; by apply IH.
Qed.

Lemma trimEnd_head s c :
  head (String.list_ascii_of_string (trimEnd s)) = Some c →
  head (String.list_ascii_of_string s) = Some c.
Proof.
  destruct s as [|a r]; simpl; [done |].
  destruct (trimEnd r); [destruct (isWhitespace a) |]; simpl; done.
Qed.

Lemma lowerChar_not_upper c : isUpper (lowerChar c) = false.
Proof. by destruct c as [[] [] [] [] [] [] [] []]; vm_compute. Qed.

Lemma kept_lower_cases c :
  kept c = true → isUpper c = false →
  isLower c || isDigit c || isUnderscore c || isWhitespace c = true.
Proof.
  unfold kept, isWordChar. intros Hk Hu. rewrite Hu in Hk. simpl in Hk.
  by destruct (isLower c), (isDigit c), (isUnderscore c), (isWhitespace c).
Qed.

End string_facts.

(** C1 as written does not hold: the hyphen of ["Project-Lama!!"] is deleted,
    not turned into a space, so the two inputs of the specification normalize
    to different strings; and an underscore, which is neither a letter, a
    digit nor whitespace, survives. *)
Lemma normalizeKeyword_hyphen_is_deleted :
  normalizeKeyword "Project-Lama!!" = "projectlama"
  ∧ normalizeKeyword "Project-Lama!!" ≠ normalizeKeyword "project lama"
  ∧ normalizeKeyword "a_b" = "a_b".
Proof. repeat split; done. Qed.

Lemma normalizeKeyword_split (s : string) :
  ∃ before after,
    Forall (λ c, JsString.isWhitespace c = true) before
    ∧ Forall (λ c, JsString.isWhitespace c = true) after
    ∧ List.filter kept (map JsString.lowerChar (String.list_ascii_of_string s))
      = before ++ String.list_ascii_of_string (normalizeKeyword s) ++ after.
Proof.
  unfold normalizeKeyword, JsString.trim.
  rewrite <- toLowerCase_chars, <- removeNonWordNonSpace_chars.
  set (t := JsString.removeNonWordNonSpace (JsString.toLowerCase s)).
  destruct (trimStart_chars t) as (w1 & Hw1 & E1).
  destruct (trimEnd_chars (JsString.trimStart t)) as (w2 & Hw2 & E2).
  exists w1, w2. split_and!; [done | done |]. by rewrite E1, E2.
Qed.

Lemma normalizeKeyword_head (s : string) c :
  head (String.list_ascii_of_string (normalizeKeyword s)) = Some c →
  JsString.isWhitespace c = false.
Proof.
  unfold normalizeKeyword, JsString.trim. intros Hc.
  apply trimEnd_head in Hc. by apply trimStart_head in Hc.
Qed.

Lemma normalizeKeyword_last (s : string) c :
  last (String.list_ascii_of_string (normalizeKeyword s)) = Some c →
  JsString.isWhitespace c = false.
Proof. unfold normalizeKeyword, JsString.trim. apply trimEnd_last. Qed.

Lemma normalizeKeyword_chars (s : string) c :
  c ∈ String.list_ascii_of_string (normalizeKeyword s) →
  JsString.isLower c || JsString.isDigit c || JsString.isUnderscore c
  || JsString.isWhitespace c = true.
Proof.
  intros Hc. destruct (normalizeKeyword_split s) as (w1 & w2 & _ & _ & E).
  assert (Hin : c ∈ List.filter kept
                      (map JsString.lowerChar (String.list_ascii_of_string s))).
  { rewrite E. rewrite !elem_of_app. auto. }
  apply list_elem_of_In, filter_In in Hin as [Hin Hk].
  apply kept_lower_cases; [done |].
  apply in_map_iff in Hin as (c0 & <- & _). apply lowerChar_not_upper.
Qed.

Lemma fixed_chars c :
  JsString.isLower c || JsString.isDigit c || JsString.isUnderscore c
  || JsString.isWhitespace c = true →
  JsString.lowerChar c = c ∧ kept c = true.
Proof. by destruct c as [[] [] [] [] [] [] [] []]; vm_compute. Qed.

Lemma toLowerCase_fixed s :
  (∀ c, c ∈ String.list_ascii_of_string s → JsString.lowerChar c = c) →
  JsString.toLowerCase s = s.
Proof.
  induction s as [|a r IH]; simpl; [done |]. intros Hall.
  rewrite (Hall a) by left. rewrite IH; [done |]. intros c Hc. apply Hall. by right.
Qed.

Lemma removeNonWordNonSpace_fixed s :
  (∀ c, c ∈ String.list_ascii_of_string s → kept c = true) →
  JsString.removeNonWordNonSpace s = s.
Proof.
  induction s as [|a r IH]; simpl; [done |]. intros Hall.
  pose proof (Hall a ltac:(left)) as Ha. unfold kept in Ha. rewrite Ha.
  rewrite IH; [done |]. intros c Hc. apply Hall. by right.
Qed.

Lemma trimStart_fixed s :
  (∀ c, head (String.list_ascii_of_string s) = Some c → JsString.isWhitespace c = false) →
  JsString.trimStart s = s.
Proof. destruct s as [|a r]; simpl; [done |]. intros Hhead. by rewrite Hhead. Qed.

Lemma trimEnd_fixed s :
  (∀ c, last (String.list_ascii_of_string s) = Some c → JsString.isWhitespace c = false) →
  JsString.trimEnd s = s.
Proof.
  induction s as [|a r IH]; simpl; [done |]. intros Hlast.
  destruct r as [|b r'].
  - simpl in *. by rewrite Hlast.
  - rewrite IH; [done |]. intros c Hc. apply Hlast. by rewrite last_cons, Hc.
Qed.

(** Normalization is idempotent. *)
Theorem normalizeKeyword_idempotent (s : string) :
  normalizeKeyword (normalizeKeyword s) = normalizeKeyword s.
Proof.
  set (r := normalizeKeyword s).
  assert (Hfixed : ∀ c, c ∈ String.list_ascii_of_string r →
                        JsString.lowerChar c = c ∧ kept c = true).
  { intros c Hc. by apply fixed_chars, (normalizeKeyword_chars s). }
  unfold normalizeKeyword at 1, JsString.trim.
  rewrite toLowerCase_fixed by (intros c Hc; by apply Hfixed).
  rewrite removeNonWordNonSpace_fixed by (intros c Hc; by apply Hfixed).
  rewrite trimStart_fixed by apply normalizeKeyword_head.
  apply trimEnd_fixed, normalizeKeyword_last.
Qed.

(** C1, amended: for every raw string [s], the normalizer lowercases [s],
    keeps exactly the characters that are word characters (ASCII letters,
    digits, underscore) or whitespace, and strips whitespace at both ends
    only.  Hence the result consists of lower case ASCII letters, digits,
    underscores and whitespace, and neither starts nor ends with whitespace.
    [normalize("Project-Lama!!")] is ["projectlama"] and
    [normalize("project lama")] is ["project lama"]. *)
Theorem normalizeKeyword_spec (s : string) :
  let lowered := map JsString.lowerChar (String.list_ascii_of_string s) in
  let result := String.list_ascii_of_string (normalizeKeyword s) in
  (∃ before after,
      Forall (λ c, JsString.isWhitespace c = true) before
      ∧ Forall (λ c, JsString.isWhitespace c = true) after
      ∧ List.filter kept lowered = before ++ result ++ after)
  ∧ (∀ c, head result = Some c → JsString.isWhitespace c = false)
  ∧ (∀ c, last result = Some c → JsString.isWhitespace c = false)
  ∧ (∀ c, c ∈ result →
       JsString.isLower c || JsString.isDigit c || JsString.isUnderscore c
       || JsString.isWhitespace c = true)
  ∧ normalizeKeyword "Project-Lama!!" = "projectlama"
  ∧ normalizeKeyword "project lama" = "project lama".
Proof.
  simpl. split_and!.
  - apply normalizeKeyword_split.
  - apply normalizeKeyword_head.
  - apply normalizeKeyword_last.
  - apply normalizeKeyword_chars.
  - reflexivity.
  - reflexivity.
Qed.

Lemma normalizeKeyword_spec_witness :
  JsString.isWhitespace "p" = false
  ∧ JsString.isLower "a" || JsString.isDigit "a" || JsString.isUnderscore "a"
    || JsString.isWhitespace "a" = true.
Proof.
  destruct (normalizeKeyword_spec "  Project Lama ") as (_ & Hhead & _ & Hchars & _).
  split.
  - apply Hhead. reflexivity.
  - apply Hchars. compute_done.
Defined.

(** ** Posting lists: what the loops compute *)

Section posting_lists.
Implicit Types (m : gmap string (gset string)) (K : gset string) (id k : string).

Lemma size_zero_empty (X : gset string) : size X = 0 ↔ X = ∅.
Proof. rewrite size_empty_iff. by unfold_leibniz. Qed.

Lemma indexKeyword_lookup id k m k' :
  indexKeyword id k m !! k' =
  if decide (k = k') then Some (addTo id (m !! k)) else m !! k'.
Proof.
  unfold indexKeyword, addTo. case_decide as Hk.
  - subst k'. destruct (m !! k) as [X|] eqn:E.
    + by rewrite lookup_alter_eq, E.
    + by rewrite lookup_alter_eq, lookup_insert_eq.
  - rewrite lookup_alter_ne by done.
    destruct (m !! k); [done | by rewrite lookup_insert_ne].
Qed.

Lemma unindexKeyword_lookup id k m k' :
  unindexKeyword id k m !! k' =
  if decide (k = k') then dropFrom id (m !! k) else m !! k'.
Proof.
  unfold unindexKeyword, dropFrom. destruct (m !! k) as [X|] eqn:E.
  - destruct (decide (size (X ∖ {[id]}) = 0)) as [Hs|Hs];
      destruct (decide (X ∖ {[id]} = ∅)) as [He|He];
      try (by apply size_zero_empty in Hs);
      try (by apply size_zero_empty in He).
    + case_decide; [subst; by rewrite lookup_delete_eq | by rewrite lookup_delete_ne].
    + case_decide; [subst; by rewrite lookup_insert_eq | by rewrite lookup_insert_ne].
  - by case_decide; subst.
Qed.

Lemma index_fold_lookup id m K k :
  set_fold (indexKeyword id) m K !! k =
  if decide (k ∈ K) then Some (addTo id (m !! k)) else m !! k.
Proof.
  revert k.
  pose (P := λ (r : gmap string (gset string)) (X : gset string),
          ∀ k, r !! k = if decide (k ∈ X) then Some (addTo id (m !! k)) else m !! k).
  change (P (set_fold (indexKeyword id) m K) K).
  apply set_fold_ind_L; unfold P; clear P.
  - intros k. by rewrite decide_False by set_solver.
  - intros x X r Hx IH k. rewrite indexKeyword_lookup.
    destruct (decide (x = k)) as [->|Hne].
    + rewrite decide_True by set_solver.
      by rewrite IH, decide_False by done.
    + rewrite IH. destruct (decide (k ∈ X)).
      * by rewrite decide_True by set_solver.
      * by rewrite decide_False by set_solver.
Qed.

Lemma unindex_fold_lookup id m K k :
  set_fold (unindexKeyword id) m K !! k =
  if decide (k ∈ K) then dropFrom id (m !! k) else m !! k.
Proof.
  revert k.
  pose (P := λ (r : gmap string (gset string)) (X : gset string),
          ∀ k, r !! k = if decide (k ∈ X) then dropFrom id (m !! k) else m !! k).
  change (P (set_fold (unindexKeyword id) m K) K).
  apply set_fold_ind_L; unfold P; clear P.
  - intros k. by rewrite decide_False by set_solver.
  - intros x X r Hx IH k. rewrite unindexKeyword_lookup.
    destruct (decide (x = k)) as [->|Hne].
    + rewrite decide_True by set_solver.
      by rewrite IH, decide_False by done.
    + rewrite IH. destruct (decide (k ∈ X)).
      * by rewrite decide_True by set_solver.
      * by rewrite decide_False by set_solver.
Qed.

Lemma copyWithout_difference (A B : gset string) : copyWithout A B = A ∖ B.
Proof.
  unfold copyWithout.
  apply (set_fold_ind_L (λ r X, r = A ∖ X)); [set_solver |].
  intros x X r _ ->. set_solver.
Qed.

Lemma elem_of_addTo id id' o : id' ∈ addTo id o ↔ id' = id ∨ ∃ X, o = Some X ∧ id' ∈ X.
Proof.
  unfold addTo. destruct o as [X|]; simpl; set_unfold; naive_solver.
Qed.

Lemma dropFrom_Some id o Y :
  dropFrom id o = Some Y ↔ ∃ X, o = Some X ∧ Y = X ∖ {[id]} ∧ Y ≠ ∅.
Proof.
  unfold dropFrom. destruct o as [X|]; [| naive_solver].
  case_decide; naive_solver.
Qed.

End posting_lists.

(** ** The operations, read through lookups *)

Section operations.
Implicit Types (s : SubjectIndex) (e entry old : SubjectIndexEntry) (id k : string).

Lemma index_eq s1 s2 :
  keywordToSubjects s1 = keywordToSubjects s2 → subjects s1 = subjects s2 → s1 = s2.
Proof. destruct s1, s2; simpl; by intros -> ->. Qed.

Lemma addSubject_postings e s k :
  keywordToSubjects (addSubject e s) !! k =
  if decide (k ∈ normalizedKeywords e)
  then Some (addTo (idHash e) (keywordToSubjects s !! k))
  else keywordToSubjects s !! k.
Proof. apply index_fold_lookup. Qed.

Lemma addSubject_subjects e s :
  subjects (addSubject e s) = <[idHash e := e]> (subjects s).
Proof. done. Qed.

Lemma removeSubject_unknown id s :
  subjects s !! id = None → removeSubject id s = (false, s).
Proof. unfold removeSubject. by intros ->. Qed.

Lemma removeSubject_known id s e :
  subjects s !! id = Some e →
  (removeSubject id s).1 = true
  ∧ subjects (removeSubject id s).2 = delete id (subjects s)
  ∧ ∀ k, keywordToSubjects (removeSubject id s).2 !! k =
         if decide (k ∈ normalizedKeywords e)
         then dropFrom id (keywordToSubjects s !! k)
         else keywordToSubjects s !! k.
Proof.
  unfold removeSubject. intros ->. simpl. repeat split.
  intros k. apply unindex_fold_lookup.
Qed.

Lemma updateSubject_unknown e s :
  subjects s !! idHash e = None → updateSubject e s = addSubject e s.
Proof. unfold updateSubject. by intros ->. Qed.

Lemma updateSubject_known e s old :
  subjects s !! idHash e = Some old →
  subjects (updateSubject e s) = <[idHash e := e]> (subjects s)
  ∧ ∀ k, keywordToSubjects (updateSubject e s) !! k =
         if decide (k ∈ normalizedKeywords e ∖ normalizedKeywords old)
         then Some (addTo (idHash e) (keywordToSubjects s !! k))
         else if decide (k ∈ normalizedKeywords old ∖ normalizedKeywords e)
              then dropFrom (idHash e) (keywordToSubjects s !! k)
              else keywordToSubjects s !! k.
Proof.
  unfold updateSubject. intros ->. simpl. split; [done |].
  intros k. rewrite index_fold_lookup, unindex_fold_lookup, !copyWithout_difference.
  destruct (decide (k ∈ normalizedKeywords e ∖ normalizedKeywords old)) as [Ha|Ha];
    [| done].
  by rewrite decide_False by set_solver.
Qed.

End operations.

(** ** The invariant of reachable states *)

Section invariant.
Implicit Types (s : SubjectIndex) (e entry old : SubjectIndexEntry) (id k : string).

Lemma consistent_new : consistent newIndex.
Proof. split; simpl; intros *; by rewrite lookup_empty. Qed.

Lemma addTo_nonempty id o : addTo id o ≠ ∅.
Proof. unfold addTo. set_solver. Qed.

Lemma consistent_addSubject e s : consistent s → consistent (addSubject e s).
Proof.
  intros [Hkey Hidx Hne]. split.
  - intros id e'. rewrite addSubject_subjects, lookup_insert.
    case_decide; [by intros [= <-] | apply Hkey].
  - intros id e' k. rewrite addSubject_subjects, lookup_insert, addSubject_postings.
    case_decide as Hid.
    + intros [= <-] Hk. subst id. rewrite decide_True by done.
      eexists; split; [done |]. apply elem_of_addTo. by left.
    + intros He' Hk. destruct (Hidx _ _ _ He' Hk) as (X & HX & Hin).
      case_decide; [| eauto].
      eexists; split; [done |]. apply elem_of_addTo. right. eauto.
  - intros k X. rewrite addSubject_postings. case_decide; [| apply Hne].
    intros [= <-]. apply addTo_nonempty.
Qed.

Lemma consistent_removeSubject id s : consistent s → consistent (removeSubject id s).2.
Proof.
  intros Hs. destruct (subjects s !! id) as [e|] eqn:E;
    [| by rewrite removeSubject_unknown].
  destruct (removeSubject_known _ _ _ E) as (_ & Hsub & Hpost).
  destruct Hs as [Hkey Hidx Hne]. split.
  - intros id' e'. rewrite Hsub, lookup_delete.
    case_decide; [done | apply Hkey].
  - intros id' e' k. rewrite Hsub, lookup_delete, Hpost.
    case_decide as Hid; [done |]. intros He' Hk.
    destruct (Hidx _ _ _ He' Hk) as (X & HX & Hin).
    case_decide; [| eauto]. rewrite HX. simpl.
    rewrite decide_False by set_solver. eexists; split; [done |]. set_solver.
  - intros k X. rewrite Hpost. case_decide; [| apply Hne].
    intros (? & _ & _ & ?)%dropFrom_Some. done.
Qed.

Lemma consistent_updateSubject e s : consistent s → consistent (updateSubject e s).
Proof.
  intros Hs. destruct (subjects s !! idHash e) as [old|] eqn:E;
    [| rewrite updateSubject_unknown by done; by apply consistent_addSubject].
  destruct (updateSubject_known _ _ _ E) as (Hsub & Hpost).
  pose proof Hs as [Hkey Hidx Hne]. split.
  - intros id e'. rewrite Hsub, lookup_insert.
    case_decide; [by intros [= <-] | apply Hkey].
  - intros id e' k. rewrite Hsub, lookup_insert, Hpost.
    case_decide as Hid.
    + intros [= <-] Hk. subst id.
      destruct (decide (k ∈ normalizedKeywords old)) as [Hold|Hold].
      * rewrite decide_False by set_solver. rewrite decide_False by set_solver.
        eauto.
      * rewrite decide_True by set_solver.
        eexists; split; [done |]. apply elem_of_addTo. by left.
    + intros He' Hk. destruct (Hidx _ _ _ He' Hk) as (X & HX & Hin).
      repeat case_decide; [| | eauto].
      * eexists; split; [done |]. apply elem_of_addTo. right. eauto.
      * rewrite HX. simpl. rewrite decide_False by set_solver.
        eexists; split; [done |]. set_solver.
  - intros k X. rewrite Hpost. repeat case_decide; [| | apply Hne].
    + intros [= <-]. apply addTo_nonempty.
    + intros (? & _ & _ & ?)%dropFrom_Some. done.
Qed.

Lemma consistent_buildFromSubjects entries s : consistent (buildFromSubjects entries s).
Proof.
  unfold buildFromSubjects, clear.
  assert (H : consistent (mkIndex ∅ ∅)) by apply consistent_new.
  revert H. generalize (mkIndex ∅ ∅).
  induction entries as [|e es IH]; intros s0 H0; simpl; [done |].
  apply IH. by apply consistent_addSubject.
Qed.

Lemma reachable_consistent s : reachable s → consistent s.
Proof.
  induction 1 as [|op s _ IH]; [apply consistent_new |].
  destruct op; simpl.
  - by apply consistent_addSubject.
  - by apply consistent_updateSubject.
  - by apply consistent_removeSubject.
  - apply consistent_buildFromSubjects.
  - apply consistent_new.
Qed.

End invariant.

(** ** Queries: candidates, matches and their order *)

Section queries.
Implicit Types (s : SubjectIndex) (m : SubjectMatch) (l : list SubjectMatch).

Lemma foldl_push {A B} (f : list B → A → list B) (g : A → list B) :
  (∀ acc x, f acc x = acc ++ g x) →
  ∀ xs acc, foldl f acc xs = acc ++ (xs ≫= g).
Proof.
  intros Hf. induction xs as [|x xs IH]; intros acc; simpl.
  - by rewrite app_nil_r.
  - by rewrite IH, Hf, <- app_assoc.
Qed.

Lemma elem_of_candidateIdHashes (normalized : list string) s id :
  id ∈ candidateIdHashes normalized s ↔
  ∃ k X, k ∈ normalized ∧ keywordToSubjects s !! k = Some X ∧ id ∈ X.
Proof.
  unfold candidateIdHashes.
  assert (G : ∀ (acc : gset string),
    id ∈ foldl (λ acc keyword, match keywordToSubjects s !! keyword with
                               | Some ids => acc ∪ ids
                               | None => acc
                               end) acc normalized
    ↔ id ∈ acc ∨ ∃ k X, k ∈ normalized ∧ keywordToSubjects s !! k = Some X ∧ id ∈ X).
  { induction normalized as [|k ks IH]; intros acc; simpl.
    - split; [auto |]. intros [?|(k & X & Hk & _)]; [done |]. by inversion Hk.
    - rewrite IH. split.
      + intros [Hacc|(k' & X & Hk' & HX & Hin)].
        * destruct (keywordToSubjects s !! k) as [X|] eqn:E; [| auto].
          apply elem_of_union in Hacc as [?|?]; [auto |].
          right. exists k, X. split; [left | done].
        * right. exists k', X. split; [by right | done].
      + intros [Hacc|(k' & X & Hk' & HX & Hin)].
        * left. destruct (keywordToSubjects s !! k); set_solver.
        * apply elem_of_cons in Hk' as [->|Hk'].
          -- left. rewrite HX. set_solver.
          -- right. eauto. }
  rewrite G. set_solver.
Qed.

Lemma findMatchingKeywords_filter (S T : gset string) :
  findMatchingKeywords S T = List.filter (keywordMatches T) (elements S).
Proof.
  unfold findMatchingKeywords.
  rewrite (foldl_push _ (λ k, if keywordMatches T k then [k] else [])).
  - simpl. induction (elements S) as [|k ks IH]; [done |].
    rewrite bind_cons, IH. simpl. by destruct (keywordMatches T k).
  - intros acc k. unfold keywordMatches.
    destruct (decide (k ∈ T)) as [Hk|Hk].
    + by rewrite bool_decide_eq_true_2.
    + rewrite bool_decide_eq_false_2 by done. simpl.
      destruct (existsb _ _); [done | by rewrite app_nil_r].
Qed.

Lemma elem_of_findMatchingKeywords (S T : gset string) k :
  k ∈ findMatchingKeywords S T ↔ k ∈ S ∧ keywordMatches T k = true.
Proof.
  rewrite findMatchingKeywords_filter, list_elem_of_In, filter_In.
  by rewrite <- list_elem_of_In, elem_of_elements.
Qed.

Lemma findMatchingKeywords_exact (S T : gset string) k :
  k ∈ S → k ∈ T → k ∈ findMatchingKeywords S T.
Proof.
  intros HS HT. apply elem_of_findMatchingKeywords. split; [done |].
  unfold keywordMatches. by rewrite bool_decide_eq_true_2.
Qed.

Lemma elem_of_scoreCandidates (S : gset string) (ids : list string) s m :
  m ∈ scoreCandidates S ids s ↔
  ∃ id entry, id ∈ ids ∧ subjects s !! id = Some entry
              ∧ findMatchingKeywords S (normalizedKeywords entry) ≠ []
              ∧ m = matchOf S entry.
Proof.
  unfold scoreCandidates.
  rewrite (foldl_push _ (λ id, match subjects s !! id with
                               | None => []
                               | Some entry =>
                                   if 0 <? length (findMatchingKeywords S
                                                     (normalizedKeywords entry))
                                   then [matchOf S entry] else []
                               end)).
  - simpl. rewrite list_elem_of_bind. split.
    + intros (id & Hm & Hid).
      destruct (subjects s !! id) as [entry|] eqn:E; [| by inversion Hm].
      destruct (0 <? _) eqn:Hlen; [| by inversion Hm].
      apply list_elem_of_singleton in Hm as ->.
      exists id, entry. split_and!; [done.. | | done].
      intros Hnil. rewrite Hnil in Hlen. done.
    + intros (id & entry & Hid & E & Hne & ->).
      exists id. split; [| done].
      rewrite E. destruct (findMatchingKeywords S (normalizedKeywords entry));
        [done | by left].
  - intros acc id. destruct (subjects s !! id); [| by rewrite app_nil_r].
    simpl. destruct (0 <? _); [done | by rewrite app_nil_r].
Qed.

Lemma compareMatches_le x y :
  Qle_bool (compareMatches x y) 0 = true ↔ scoresNoHigher x y.
Proof.
  unfold compareMatches, scoresNoHigher. rewrite Qle_bool_iff.
  split; intros; lra.
Qed.

Lemma insertMatch_Permutation x l : insertMatch x l ≡ₚ x :: l.
Proof.
  induction l as [|y l IH]; simpl; [done |].
  destruct (Qle_bool _ _); [done |]. by rewrite IH, Permutation_swap.
Qed.

Lemma sortMatches_Permutation l : sortMatches l ≡ₚ l.
Proof.
  induction l as [|x l IH]; simpl; [done |].
  by rewrite insertMatch_Permutation, IH.
Qed.

Lemma insertMatch_sorted x l :
  StronglySorted scoresNoHigher l → StronglySorted scoresNoHigher (insertMatch x l).
Proof.
  induction 1 as [|y l Hl IH Hy]; simpl.
  - by repeat constructor.
  - destruct (Qle_bool (compareMatches x y) 0) eqn:Hc.
    + apply compareMatches_le in Hc.
      constructor; [by constructor |]. constructor; [done |].
      eapply Forall_impl; [exact Hy |]. intros z Hz.
      unfold scoresNoHigher in *. lra.
    + constructor; [done |].
      rewrite insertMatch_Permutation. constructor; [| done].
      unfold scoresNoHigher.
      destruct (Qlt_le_dec (relevanceScore y) (relevanceScore x)) as [Hlt|Hle];
        [| done].
      apply Qlt_le_weak, compareMatches_le in Hlt. congruence.
Qed.

Lemma sortMatches_sorted l : StronglySorted scoresNoHigher (sortMatches l).
Proof.
  induction l as [|x l IH]; simpl; [constructor | by apply insertMatch_sorted].
Qed.

Lemma elem_of_findByKeywords kws s m :
  m ∈ findByKeywords kws s ↔
  let S : gset string := list_to_set (normalizeKeywords kws) in
  ∃ id entry k X,
    k ∈ normalizeKeywords kws ∧ keywordToSubjects s !! k = Some X ∧ id ∈ X
    ∧ subjects s !! id = Some entry
    ∧ findMatchingKeywords S (normalizedKeywords entry) ≠ []
    ∧ m = matchOf S entry.
Proof.
  unfold findByKeywords. simpl.
  rewrite sortMatches_Permutation, elem_of_scoreCandidates.
  split.
  - intros (id & entry & Hid & E & Hne & ->).
    apply elem_of_elements, elem_of_candidateIdHashes in Hid as (k & X & ? & ? & ?).
    by exists id, entry, k, X.
  - intros (id & entry & k & X & Hk & HX & Hid & E & Hne & ->).
    exists id, entry. repeat split; [| done..].
    apply elem_of_elements, elem_of_candidateIdHashes. eauto.
Qed.

End queries.

(** ** Jaccard similarity *)

Section jaccard.
Implicit Types (A B : gset string).

Lemma jaccard_intersection A B :
  set_fold (λ item acc, if decide (item ∈ B) then acc ∪ {[item]} else acc) ∅ A
  = A ∩ B.
Proof.
  pose (P := λ (r X : gset string), r = X ∩ B).
  change (P (set_fold (λ item acc, if decide (item ∈ B) then acc ∪ {[item]} else acc)
               ∅ A) A).
  apply set_fold_ind_L; unfold P; clear P; [set_solver |].
  intros x X r _ ->. case_decide; set_solver.
Qed.

Lemma jaccard_union A B : list_to_set (elements A ++ elements B) = A ∪ B.
Proof. set_solver. Qed.

Lemma calculateJaccardSimilarity_eq A B :
  calculateJaccardSimilarity A B =
  if decide (size (A ∪ B) = 0) then 0%Q
  else Z.of_nat (size (A ∩ B)) # Pos.of_nat (size (A ∪ B)).
Proof.
  unfold calculateJaccardSimilarity. by rewrite jaccard_intersection, jaccard_union.
Qed.

Lemma Qmake_of_nat (a b : nat) :
  b ≠ 0 →
  (Z.of_nat a # Pos.of_nat b == inject_Z (Z.of_nat a) / inject_Z (Z.of_nat b))%Q.
Proof.
  intros Hb. rewrite Qmake_Qdiv.
  replace (Z.pos (Pos.of_nat b)) with (Z.of_nat b); [reflexivity |].
  destruct b; [done |]. rewrite <- Pos.of_nat_succ. lia.
Qed.

Lemma calculateJaccardSimilarity_ratio A B :
  (calculateJaccardSimilarity A B ==
   inject_Z (Z.of_nat (size (A ∩ B))) / inject_Z (Z.of_nat (size (A ∪ B))))%Q.
Proof.
  rewrite calculateJaccardSimilarity_eq. case_decide as Hu.
  - rewrite Hu. simpl. unfold Qdiv, Qinv. simpl. by rewrite Qmult_0_r.
  - by apply Qmake_of_nat.
Qed.

End jaccard.

Lemma reachable_build entries : reachable (buildFromSubjects entries newIndex).
Proof. apply (reachable_perform (OpBuildFromSubjects entries)), reachable_new. Qed.

Lemma reachable_add entry s : reachable s → reachable (addSubject entry s).
Proof. apply (reachable_perform (OpAddSubject entry)). Qed.

Lemma reachable_update entry s : reachable s → reachable (updateSubject entry s).
Proof. apply (reachable_perform (OpUpdateSubject entry)). Qed.

Lemma reachable_remove id s : reachable s → reachable (removeSubject id s).2.
Proof. apply (reachable_perform (OpRemoveSubject id)). Qed.

(** In every state the public operations reach, each stored entry sits
    under its own identifier and is listed under each of its normalized
    keywords, and no posting list is empty. *)
Theorem reachable_state_invariant (s : SubjectIndex) :
  reachable s →
  (∀ id e, subjects s !! id = Some e →
     idHash e = id
     ∧ ∀ k, k ∈ normalizedKeywords e →
            ∃ X, keywordToSubjects s !! k = Some X ∧ id ∈ X)
  ∧ (∀ k X, keywordToSubjects s !! k = Some X → X ≠ ∅).
Proof.
  intros [Hkey Hidx Hne]%reachable_consistent. split; [| done].
  intros id e He. split; [by apply Hkey |]. intros k Hk. by eapply Hidx.
Qed.

Lemma reachable_state_invariant_witness :
  idHash rustWeb = "s2"
  ∧ ∃ X, keywordToSubjects threeSubjects !! "web" = Some X ∧ "s2" ∈ X.
Proof.
  destruct (reachable_state_invariant threeSubjects) as (Hentries & _).
  { apply reachable_build. }
  destruct (Hentries "s2" rustWeb) as (Hid & Hlisted); [reflexivity |].
  split; [exact Hid |]. apply Hlisted. compute_done.
Defined.

(** The ranking order of the specification: matches scoring 0.2, 0.9 and 0.5
    come out as 0.9, 0.5, 0.2. *)
Example sortMatches_ranking :
  map relevanceScore
    (sortMatches [mkMatch "a" "" [] [] (1 # 5); mkMatch "b" "" [] [] (9 # 10);
                  mkMatch "c" "" [] [] (1 # 2)])
  = [9 # 10; 1 # 2; 1 # 5]%Q.
Proof. reflexivity. Qed.

(** ** The claims about the index *)

(** C3: for finite string sets [A] (the normalized query keywords) and [B] (a
    candidate's normalized keywords) the relevance score is
    [|A ∩ B| / |A ∪ B|], and [0] when both are empty; [{a, b}] against
    [{a, b, c}] scores [2/3], disjoint sets score [0], identical non-empty
    sets score [1]; and this is the score of every match the index returns. *)
Theorem calculateJaccardSimilarity_spec (A B : gset string) :
  (calculateJaccardSimilarity A B ==
   inject_Z (Z.of_nat (size (A ∩ B))) / inject_Z (Z.of_nat (size (A ∪ B))))%Q
  ∧ (A = ∅ → B = ∅ → calculateJaccardSimilarity A B = 0%Q)
  ∧ (A ≠ ∅ → B ≠ ∅ → A ## B → (calculateJaccardSimilarity A B == 0)%Q)
  ∧ (A ≠ ∅ → (calculateJaccardSimilarity A A == 1)%Q)
  ∧ calculateJaccardSimilarity {["a"; "b"]} {["a"; "b"; "c"]} = (2 # 3)%Q
  ∧ (∀ kws s m, m ∈ findByKeywords kws s →
       ∃ id entry, subjects s !! id = Some entry
                   ∧ relevanceScore m =
                     calculateJaccardSimilarity (list_to_set (normalizeKeywords kws))
                       (normalizedKeywords entry)).
Proof.
  split_and!.
  - apply calculateJaccardSimilarity_ratio.
  - intros -> ->. done.
  - intros _ _ Hdisj. rewrite calculateJaccardSimilarity_eq.
    case_decide; [done |].
    replace (A ∩ B) with (∅ : gset string) by set_solver. done.
  - intros HA. rewrite calculateJaccardSimilarity_eq.
    replace (A ∪ A) with A by set_solver. replace (A ∩ A) with A by set_solver.
    case_decide as Hs; [by apply size_zero_empty in Hs |].
    rewrite Qmake_of_nat by done. field.
    intros Hz. apply Hs.
    assert (Z.of_nat (size A) = 0%Z) as Hz'; [| lia].
    unfold Qeq in Hz. simpl in Hz. lia.
  - done.
  - intros kws s m (id & entry & k & X & _ & _ & _ & E & _ & ->)%elem_of_findByKeywords.
    by exists id, entry.
Qed.

Lemma calculateJaccardSimilarity_spec_witness :
  (calculateJaccardSimilarity {["rust"]} {["web"]} == 0)%Q
  ∧ (calculateJaccardSimilarity {["rust"]} {["rust"]} == 1)%Q
  ∧ calculateJaccardSimilarity ∅ ∅ = 0%Q.
Proof.
  destruct (calculateJaccardSimilarity_spec {["rust"]} {["web"]})
    as (_ & _ & Hdisjoint & _).
  destruct (calculateJaccardSimilarity_spec {["rust"]} {["rust"]})
    as (_ & _ & _ & Hsame & _).
  destruct (calculateJaccardSimilarity_spec ∅ ∅) as (_ & Hempty & _).
  split_and!.
  - apply Hdisjoint; [done | done |]. compute_done.
  - by apply Hsame.
  - by apply Hempty.
Defined.

(** C7: adding the same entry twice in succession leaves the index (stored
    entries and posting lists) as one addition does. *)
Theorem addSubject_idempotent (s : SubjectIndex) (e : SubjectIndexEntry) :
  addSubject e (addSubject e s) = addSubject e s.
Proof.
  apply index_eq.
  - apply map_eq. intros k. rewrite !addSubject_postings.
    case_decide; [| done]. f_equal. unfold addTo. simpl. set_solver.
  - rewrite !addSubject_subjects. apply insert_insert_eq.
Qed.

(** C9: [addSubject] removes no identifier from a posting list and deletes no
    posting list; so when it overwrites the entry stored under [e]'s
    identifier, a keyword [k] of the old entry that [e] no longer has keeps
    that identifier in its posting list. *)
Theorem addSubject_keeps_postings (s : SubjectIndex) (e : SubjectIndexEntry) :
  (∀ k X id, keywordToSubjects s !! k = Some X → id ∈ X →
     ∃ X', keywordToSubjects (addSubject e s) !! k = Some X' ∧ id ∈ X')
  ∧ (∀ k, is_Some (keywordToSubjects s !! k) →
          is_Some (keywordToSubjects (addSubject e s) !! k))
  ∧ (∀ old k, reachable s →
       subjects s !! idHash e = Some old →
       k ∈ normalizedKeywords old → k ∉ normalizedKeywords e →
       ∃ X', keywordToSubjects (addSubject e s) !! k = Some X' ∧ idHash e ∈ X').
Proof.
  assert (Hkeep : ∀ k X id, keywordToSubjects s !! k = Some X → id ∈ X →
     ∃ X', keywordToSubjects (addSubject e s) !! k = Some X' ∧ id ∈ X').
  { intros k X id HX Hid. rewrite addSubject_postings.
    case_decide; [| eauto].
    eexists; split; [done |]. apply elem_of_addTo. eauto. }
  split_and!; [done | |].
  - intros k [X HX]. rewrite addSubject_postings. case_decide; [done | by rewrite HX].
  - intros old k Hs Hold Hk _.
    destruct (consistent_indexed _ (reachable_consistent _ Hs) _ _ _ Hold Hk)
      as (X & HX & Hin).
    by apply (Hkeep k X).
Qed.

Lemma addSubject_keeps_postings_witness :
  ∃ X', keywordToSubjects (addSubject catsEntry (addSubject catEntry newIndex)) !! "cat"
        = Some X' ∧ "s1" ∈ X'.
Proof.
  destruct (addSubject_keeps_postings (addSubject catEntry newIndex) catsEntry)
    as (_ & _ & Hstale).
  apply (Hstale catEntry "cat").
  - apply reachable_add, reachable_new.
  - reflexivity.
  - compute_done.
  - compute_done.
Defined.

Lemma addTo_dropFrom id (X : gset string) :
  id ∈ X → addTo id (dropFrom id (Some X)) = X.
Proof.
  intros Hid. unfold addTo, dropFrom. case_decide as He; simpl.
  - apply set_eq. intros x.
    assert (x ∉ X ∖ {[id]}) as Hx by (rewrite He; set_solver).
    destruct (decide (x = id)) as [->|Hne]; set_solver.
  - apply set_eq. intros x.
    destruct (decide (x = id)) as [->|Hne]; set_solver.
Qed.

Lemma updateSubject_subjects e s :
  subjects (updateSubject e s) = <[idHash e := e]> (subjects s).
Proof.
  destruct (subjects s !! idHash e) as [old|] eqn:E.
  - by destruct (updateSubject_known _ _ _ E).
  - by rewrite updateSubject_unknown.
Qed.

Lemma updateSubject_remove_add e s :
  consistent s → is_Some (subjects s !! idHash e) →
  updateSubject e s = addSubject e (removeSubject (idHash e) s).2.
Proof.
  intros Hs [old Hold].
  destruct (updateSubject_known _ _ _ Hold) as (Hsub & Hpost).
  destruct (removeSubject_known _ _ _ Hold) as (_ & Hrsub & Hrpost).
  apply index_eq.
  - apply map_eq. intros k. rewrite Hpost, addSubject_postings, Hrpost.
    destruct (decide (k ∈ normalizedKeywords e)) as [Hnew|Hnew];
      destruct (decide (k ∈ normalizedKeywords old)) as [Hk|Hk].
    + rewrite decide_False by set_solver. rewrite decide_False by set_solver.
      destruct (consistent_indexed _ Hs _ _ _ Hold Hk) as (X & HX & Hin).
      rewrite HX. by rewrite addTo_dropFrom.
    + by rewrite decide_True by set_solver.
    + rewrite decide_False by set_solver. by rewrite decide_True by set_solver.
    + rewrite decide_False by set_solver. by rewrite decide_False by set_solver.
  - rewrite Hsub, addSubject_subjects, Hrsub. by rewrite insert_delete_eq.
Qed.

Lemma updateSubject_found e s (qs : list string) :
  consistent s →
  (∃ q, q ∈ qs ∧ normalizeKeyword q ∈ normalizedKeywords e) →
  ∃ m, m ∈ findByKeywords qs (updateSubject e s) ∧ matchIdHash m = idHash e.
Proof.
  intros Hs (q & Hq & Hk).
  pose proof (consistent_updateSubject e _ Hs) as Hs'.
  assert (He : subjects (updateSubject e s) !! idHash e = Some e)
    by (by rewrite updateSubject_subjects, lookup_insert_eq).
  destruct (consistent_indexed _ Hs' _ _ _ He Hk) as (X & HX & Hin).
  assert (Hnorm : normalizeKeyword q ∈ normalizeKeywords qs)
    by (by apply list_elem_of_fmap_2).
  exists (matchOf (list_to_set (normalizeKeywords qs)) e). split; [| done].
  apply elem_of_findByKeywords. simpl.
  exists (idHash e), e, (normalizeKeyword q), X. split_and!; [done.. | | done].
  intros Hnil.
  assert (Hm : normalizeKeyword q ∈
               findMatchingKeywords (list_to_set (normalizeKeywords qs))
                 (normalizedKeywords e)).
  { apply findMatchingKeywords_exact; [| done]. by apply elem_of_list_to_set. }
  rewrite Hnil in Hm. by inversion Hm.
Qed.

Lemma updateSubject_not_found e s old (qs : list string) m :
  consistent s →
  subjects s !! idHash e = Some old →
  (∀ q, q ∈ qs → normalizeKeyword q ∈ normalizedKeywords old ∖ normalizedKeywords e) →
  m ∈ findByKeywords qs (updateSubject e s) → matchIdHash m ≠ idHash e.
Proof.
  intros Hs Hold Hqs Hm Heq.
  pose proof (consistent_updateSubject e _ Hs) as Hs'.
  apply elem_of_findByKeywords in Hm
    as (id & entry & k & X & Hk & HX & Hid & E & _ & ->).
  simpl in Heq. rewrite (consistent_key _ Hs' _ _ E) in Heq. subst id.
  apply list_elem_of_fmap in Hk as (q & -> & Hq). specialize (Hqs _ Hq).
  destruct (updateSubject_known _ _ _ Hold) as (_ & Hpost).
  rewrite Hpost in HX. rewrite decide_False in HX by set_solver.
  rewrite decide_True in HX by done.
  apply dropFrom_Some in HX as (X0 & _ & -> & _). set_solver.
Qed.

(** C4: on every state of an index, [updateSubject(e)] leaves the same stored
    entries and posting lists as [removeSubject(e.idHash)] followed by
    [addSubject(e)] when an entry is stored under [e.idHash], and as
    [addSubject(e)] alone when none is.  Afterwards a query holding one of
    [e]'s keywords returns the subject, and a query made of keywords that the
    old entry had and [e] has not does not return it. *)
Theorem updateSubject_refines_remove_add (s : SubjectIndex) (e : SubjectIndexEntry) :
  reachable s →
  (is_Some (subjects s !! idHash e) →
     updateSubject e s = addSubject e (removeSubject (idHash e) s).2)
  ∧ (subjects s !! idHash e = None → updateSubject e s = addSubject e s)
  ∧ (∀ qs : list string,
       (∃ q, q ∈ qs ∧ normalizeKeyword q ∈ normalizedKeywords e) →
       ∃ m, m ∈ findByKeywords qs (updateSubject e s) ∧ matchIdHash m = idHash e)
  ∧ (∀ old (qs : list string),
       subjects s !! idHash e = Some old →
       (∀ q, q ∈ qs →
          normalizeKeyword q ∈ normalizedKeywords old ∖ normalizedKeywords e) →
       ∀ m, m ∈ findByKeywords qs (updateSubject e s) → matchIdHash m ≠ idHash e).
Proof.
  intros Hs%reachable_consistent. split_and!.
  - by apply updateSubject_remove_add.
  - apply updateSubject_unknown.
  - intros qs. by apply updateSubject_found.
  - intros old qs Hold Hqs m. by apply updateSubject_not_found with old.
Qed.

Lemma updateSubject_refines_remove_add_witness :
  let s := addSubject rustWeb (addSubject catEntry newIndex) in
  updateSubject catsEntry s = addSubject catsEntry (removeSubject "s1" s).2
  ∧ (∃ m, m ∈ findByKeywords ["Cats!"] (updateSubject catsEntry s)
          ∧ matchIdHash m = "s1")
  ∧ (∀ m, m ∈ findByKeywords ["cat"] (updateSubject catsEntry s)
          → matchIdHash m ≠ "s1").
Proof.
  intros s.
  destruct (updateSubject_refines_remove_add s catsEntry)
    as (Hsame & _ & Hfound & Hgone).
  { apply reachable_add, reachable_add, reachable_new. }
  split_and!.
  - apply Hsame. compute_done.
  - apply Hfound. exists "Cats!". split; compute_done.
  - apply (Hgone catEntry); [reflexivity |].
    intros q ->%list_elem_of_singleton. compute_done.
Defined.

Lemma slice0_nonneg {A} (n : Z) (l : list A) :
  (0 ≤ n)%Z → slice0 n l = take (Z.to_nat n) l.
Proof.
  intros Hn. unfold slice0.
  destruct (n <? 0)%Z eqn:Hneg; [lia |].
  destruct (decide (n ≤ Z.of_nat (length l))%Z) as [Hle|Hgt].
  - by rewrite Z.min_l by lia.
  - rewrite Z.min_r by lia. rewrite Nat2Z.id.
    rewrite firstn_all. symmetry. apply take_ge. lia.
Qed.

Lemma sorted_head_highest (l : list SubjectMatch) top m :
  StronglySorted scoresNoHigher l → head l = Some top → m ∈ l → scoresNoHigher top m.
Proof.
  intros Hsorted Hhead Hm. destruct l as [|x l]; [done |].
  injection Hhead as ->. inversion Hsorted as [|? ? _ Hall]; subst.
  apply elem_of_cons in Hm as [->|Hm].
  - unfold scoresNoHigher. lra.
  - rewrite Forall_forall in Hall. by apply Hall.
Qed.

(** C6: a result of [findByKeywords] is in non-increasing [relevanceScore]
    order, and [findSimilar(keywords, n)] is its first [n] elements: all of
    them when no more than [n] match, the first ten when [n] is omitted, and
    on a result of three matches the limit 1 leaves exactly the
    highest-scoring one. *)
Theorem findSimilar_prefix_of_sorted (kws : list string) (s : SubjectIndex) :
  let found := findByKeywords kws s in
  StronglySorted scoresNoHigher found
  ∧ (∀ n, (0 ≤ n)%Z → findSimilar kws (Some n) s = take (Z.to_nat n) found)
  ∧ (∀ n, (Z.of_nat (length found) ≤ n)%Z → findSimilar kws (Some n) s = found)
  ∧ findSimilar kws None s = take 10 found
  ∧ (length found = 3 →
       ∃ top, findSimilar kws (Some 1%Z) s = [top]
              ∧ ∀ m, m ∈ found → scoresNoHigher top m).
Proof.
  intros found.
  assert (Hsorted : StronglySorted scoresNoHigher found) by apply sortMatches_sorted.
  split_and!.
  - done.
  - intros n Hn. by apply slice0_nonneg.
  - intros n Hn. unfold findSimilar. simpl. fold found.
    rewrite slice0_nonneg by lia. apply take_ge. lia.
  - unfold findSimilar. simpl. by rewrite slice0_nonneg.
  - intros Hlen. unfold findSimilar. simpl. fold found.
    rewrite slice0_nonneg by lia.
    destruct found as [|top rest] eqn:E; [done |].
    exists top. split; [done |].
    intros m Hm. by apply (sorted_head_highest (top :: rest)).
Qed.

Lemma findSimilar_prefix_of_sorted_witness :
  ∃ top, findSimilar ["rust"] (Some 1%Z) threeSubjects = [top]
         ∧ ∀ m, m ∈ findByKeywords ["rust"] threeSubjects → scoresNoHigher top m.
Proof.
  destruct (findSimilar_prefix_of_sorted ["rust"] threeSubjects)
    as (_ & _ & _ & _ & Hthree).
  apply Hthree. compute_done.
Defined.

Example findSimilar_three_candidates :
  map (λ m, (matchIdHash m, relevanceScore m)) (findByKeywords ["rust"] threeSubjects)
  = [("s3", 1 # 1); ("s1", 1 # 2); ("s2", 1 # 2)]%Q
  ∧ map matchIdHash (findSimilar ["rust"] (Some 1%Z) threeSubjects) = ["s3"]
  ∧ map matchIdHash (findSimilar ["rust"] None threeSubjects) = ["s3"; "s1"; "s2"].
Proof. split_and!; compute_done. Qed.

(** The end-to-end scenario of the specification. *)
Example findByKeywords_rust_cli :
  map (λ m, (matchIdHash m, matchingKeywords m, relevanceScore m))
    (findByKeywords ["rust"; "cli"] (buildFromSubjects [rustSystems; rustWeb] newIndex))
  = [("s1", ["rust"], 1 # 3); ("s2", ["rust"], 1 # 3)]%Q.
Proof. compute_done. Qed.

(** What [removeSubject] does on every state. *)
Lemma removeSubject_effect (s : SubjectIndex) (id : string) :
  (subjects s !! id = None → removeSubject id s = (false, s))
  ∧ (∀ e, subjects s !! id = Some e →
       (removeSubject id s).1 = true
       ∧ getSubject id (removeSubject id s).2 = None
       ∧ (∀ k X, k ∈ normalizedKeywords e →
                 keywordToSubjects (removeSubject id s).2 !! k = Some X →
                 (id ∉ X) ∧ (X ≠ ∅))
       ∧ (∀ k, k ∉ normalizedKeywords e →
               keywordToSubjects (removeSubject id s).2 !! k = keywordToSubjects s !! k)).
Proof.
  split; [apply removeSubject_unknown |].
  intros e He. destruct (removeSubject_known _ _ _ He) as (Hret & Hsub & Hpost).
  split_and!; [done | | |].
  - unfold getSubject. by rewrite Hsub, lookup_delete_eq.
  - intros k X Hk. rewrite Hpost, decide_True by done.
    intros (X0 & _ & -> & Hne)%dropFrom_Some. split; [set_solver | done].
  - intros k Hk. by rewrite Hpost, decide_False by done.
Qed.

Lemma noStalePostings_new : noStalePostings newIndex.
Proof. intros k X id HX. simpl in HX. by rewrite lookup_empty in HX. Qed.

Lemma noStalePostings_addSubject (s : SubjectIndex) e :
  noStalePostings s → subjects s !! idHash e = None → noStalePostings (addSubject e s).
Proof.
  intros Hstale Hnew k X id. rewrite addSubject_postings, addSubject_subjects.
  intros HX Hid.
  assert (Hold : ∀ X0, keywordToSubjects s !! k = Some X0 → id ∈ X0 →
            ∃ e', <[idHash e := e]> (subjects s) !! id = Some e'
                  ∧ k ∈ normalizedKeywords e').
  { intros X0 HX0 Hid0. destruct (Hstale _ _ _ HX0 Hid0) as (e' & He' & Hk').
    exists e'. split; [| done]. rewrite lookup_insert_ne; [done | congruence]. }
  case_decide as Hk; [| by eapply Hold].
  injection HX as <-. apply elem_of_addTo in Hid as [->|(X0 & HX0 & Hid0)].
  - exists e. by rewrite lookup_insert_eq.
  - by eapply Hold.
Qed.

Lemma noStalePostings_updateSubject (s : SubjectIndex) e :
  noStalePostings s → noStalePostings (updateSubject e s).
Proof.
  intros Hstale. destruct (subjects s !! idHash e) as [old|] eqn:Hold;
    [| rewrite updateSubject_unknown by done; by apply noStalePostings_addSubject].
  destruct (updateSubject_known _ _ _ Hold) as (Hsub & Hpost).
  intros k X id. rewrite Hpost, Hsub. intros HX Hid.
  destruct (decide (id = idHash e)) as [->|Hne].
  - exists e. rewrite lookup_insert_eq. split; [done |].
    repeat case_decide.
    + set_solver.
    + apply dropFrom_Some in HX as (X0 & _ & -> & _). set_solver.
    + destruct (Hstale _ _ _ HX Hid) as (e' & He' & Hk').
      rewrite Hold in He'. injection He' as <-.
      destruct (decide (k ∈ normalizedKeywords e)); [done | set_solver].
  - rewrite lookup_insert_ne by done.
    repeat case_decide.
    + injection HX as <-. apply elem_of_addTo in Hid as [?|(X0 & HX0 & Hid0)];
        [done | by eapply Hstale].
    + apply dropFrom_Some in HX as (X0 & HX0 & -> & _).
      eapply Hstale; [done | set_solver].
    + by eapply Hstale.
Qed.

Lemma noStalePostings_removeSubject (s : SubjectIndex) id :
  noStalePostings s → noStalePostings (removeSubject id s).2.
Proof.
  intros Hstale. destruct (subjects s !! id) as [e|] eqn:He;
    [| by rewrite removeSubject_unknown].
  destruct (removeSubject_known _ _ _ He) as (_ & Hsub & Hpost).
  intros k X id'. rewrite Hpost, Hsub. intros HX Hid.
  case_decide as Hk.
  - apply dropFrom_Some in HX as (X0 & HX0 & -> & _).
    destruct (Hstale k X0 id' HX0) as (e' & He' & Hk'); [set_solver |].
    exists e'. split; [| done]. rewrite lookup_delete_ne; [done | set_solver].
  - destruct (Hstale _ _ _ HX Hid) as (e' & He' & Hk').
    exists e'. split; [| done]. rewrite lookup_delete_ne; [done | congruence].
Qed.

(** The operations other than an overwriting [addSubject] make no stale
    posting: [addSubject] of an identifier that is not stored,
    [updateSubject] and [removeSubject] keep the posting lists exact. *)
Theorem noStalePostings_preserved (s : SubjectIndex) :
  noStalePostings s →
  (∀ e, subjects s !! idHash e = None → noStalePostings (addSubject e s))
  ∧ (∀ e, noStalePostings (updateSubject e s))
  ∧ (∀ id, noStalePostings (removeSubject id s).2).
Proof.
  intros Hstale. split_and!.
  - intros e. by apply noStalePostings_addSubject.
  - intros e. by apply noStalePostings_updateSubject.
  - intros id. by apply noStalePostings_removeSubject.
Qed.

Lemma noStalePostings_preserved_witness :
  noStalePostings (updateSubject catsEntry (addSubject catEntry newIndex)).
Proof.
  destruct (noStalePostings_preserved (addSubject catEntry newIndex))
    as (_ & Hupdate & _).
  { apply noStalePostings_addSubject; [apply noStalePostings_new | reflexivity]. }
  apply Hupdate.
Defined.

Lemma noStalePostings_updated_cats :
  noStalePostings (updateSubject catsEntry (addSubject catEntry newIndex)).
Proof.
  apply noStalePostings_updateSubject, noStalePostings_addSubject;
    [apply noStalePostings_new | reflexivity].
Qed.

(** As long as [addSubject] overwrites no stored entry, the reached states
    have no stale postings. *)
Theorem reachableWithoutOverwrite_noStalePostings (s : SubjectIndex) :
  reachableWithoutOverwrite s → reachable s ∧ noStalePostings s.
Proof.
  induction 1 as [|e s _ [Hr Hs] Hnew|e s _ [Hr Hs]|id s _ [Hr Hs]|s _ [Hr Hs]].
  - split; [apply reachable_new | apply noStalePostings_new].
  - split; [by apply reachable_add | by apply noStalePostings_addSubject].
  - split; [by apply reachable_update | by apply noStalePostings_updateSubject].
  - split; [by apply reachable_remove | by apply noStalePostings_removeSubject].
  - split; [apply (reachable_perform OpClear _ Hr) | apply noStalePostings_new].
Qed.

Lemma reachableWithoutOverwrite_noStalePostings_witness :
  reachable (updateSubject catsEntry (addSubject catEntry newIndex))
  ∧ noStalePostings (updateSubject catsEntry (addSubject catEntry newIndex)).
Proof.
  apply reachableWithoutOverwrite_noStalePostings.
  apply without_overwrite_update, without_overwrite_add;
    [apply without_overwrite_new | reflexivity].
Defined.

(** Without stale postings a removal leaves the identifier in no posting
    list. *)
Theorem removeSubject_clean (s : SubjectIndex) (id : string) e :
  noStalePostings s → subjects s !! id = Some e →
  ∀ k X, keywordToSubjects (removeSubject id s).2 !! k = Some X → id ∉ X.
Proof.
  intros Hstale He k X HX Hid.
  destruct (removeSubject_known _ _ _ He) as (_ & _ & Hpost).
  rewrite Hpost in HX. case_decide as Hk.
  - apply dropFrom_Some in HX as (X0 & _ & -> & _). set_solver.
  - destruct (Hstale _ _ _ HX Hid) as (e' & He' & Hk'). congruence.
Qed.

Lemma removeSubject_clean_witness :
  let s := updateSubject catsEntry (addSubject catEntry newIndex) in
  subjects s !! "s1" = Some catsEntry
  ∧ (∀ k X, keywordToSubjects (removeSubject "s1" s).2 !! k = Some X → "s1" ∉ X).
Proof.
  split; [reflexivity |].
  apply (removeSubject_clean _ "s1" catsEntry); [| reflexivity].
  apply noStalePostings_updated_cats.
Defined.

(** C5, at a state the public operations reach: after re-adding ["s1"] under
    another keyword, the posting list of its first keyword still names it,
    and [removeSubject] leaves that list in place. *)
Theorem removeSubject_leaves_stale_posting :
  let s := addSubject catsEntry (addSubject catEntry newIndex) in
  reachable s
  ∧ (removeSubject "s1" s).1 = true
  ∧ getSubject "s1" (removeSubject "s1" s).2 = None
  ∧ keywordToSubjects (removeSubject "s1" s).2 !! "cat" = Some {["s1"]}
  ∧ totalKeywords (getStats (removeSubject "s1" s).2) = 1.
Proof.
  split_and!; [| compute_done..].
  apply reachable_add, reachable_add, reachable_new.
Qed.

(** Without stale postings every match has a query keyword that is exactly
    one of the subject's normalized keywords. *)
Theorem findByKeywords_exact_keyword (kws : list string) (s : SubjectIndex) m :
  noStalePostings s → m ∈ findByKeywords kws s →
  ∃ id entry k,
    subjects s !! id = Some entry
    ∧ m = matchOf (list_to_set (normalizeKeywords kws)) entry
    ∧ k ∈ normalizeKeywords kws ∧ k ∈ normalizedKeywords entry
    ∧ k ∈ matchingKeywords m.
Proof.
  intros Hstale (id & entry & k & X & Hk & HX & Hid & E & _ & ->)%elem_of_findByKeywords.
  destruct (Hstale _ _ _ HX Hid) as (e' & He' & Hexact).
  rewrite E in He'. injection He' as <-.
  exists id, entry, k. split_and!; [done.. |].
  simpl. apply findMatchingKeywords_exact; [| done]. by apply elem_of_list_to_set.
Qed.

Lemma findByKeywords_exact_keyword_witness :
  let s := updateSubject catsEntry (addSubject catEntry newIndex) in
  ∃ m id entry k,
    findByKeywords ["cat"; "Cats"] s = [m]
    ∧ subjects s !! id = Some entry
    ∧ m = matchOf (list_to_set (normalizeKeywords ["cat"; "Cats"])) entry
    ∧ k ∈ normalizeKeywords ["cat"; "Cats"] ∧ k ∈ normalizedKeywords entry
    ∧ k ∈ matchingKeywords m.
Proof.
  intros s.
  assert (E : findByKeywords ["cat"; "Cats"] s
              = [matchOf (list_to_set (normalizeKeywords ["cat"; "Cats"])) catsEntry])
    by (vm_compute; reflexivity).
  destruct (findByKeywords_exact_keyword ["cat"; "Cats"] s
              (matchOf (list_to_set (normalizeKeywords ["cat"; "Cats"])) catsEntry))
    as (id & entry & k & H).
  - apply noStalePostings_updated_cats.
  - rewrite E. left.
  - eexists _, id, entry, k. split; [exact E | exact H].
Defined.

(** C10, at states the public operations reach: the subject indexed under
    ["cat"] and re-added under ["cats"] is returned for the query ["cat"],
    which is none of its keywords but a substring of one; re-added under
    ["dog"] it is still a candidate and the discard branch drops it. *)
Theorem findByKeywords_substring_only_match :
  let s := addSubject catsEntry (addSubject catEntry newIndex) in
  let s' := addSubject dogEntry (addSubject catEntry newIndex) in
  reachable s
  ∧ findByKeywords ["cat"] s = [mkMatch "s1" "Cats" ["cats"] ["cat"] (0 # 2)]
  ∧ normalizedKeywords catsEntry = {["cats"]}
  ∧ reachable s'
  ∧ candidateIdHashes ["cat"] s' = {["s1"]}
  ∧ findByKeywords ["cat"] s' = [].
Proof.
  split_and!; try compute_done; apply reachable_add, reachable_add, reachable_new.
Qed.

(** ** The extraction pipeline *)

Section chat_memory.
Import ChatMemory.

Section pipeline.
Context (analyze : string → nat → Extraction) (config : option ChatMemoryConfig)
  (total : nat).

Lemma occurrences_app k l1 l2 :
  occurrences k (l1 ++ l2) = occurrences k l1 + occurrences k l2.
Proof. unfold occurrences. by rewrite filter_app, length_app. Qed.

Lemma occurrences_pos kw (l : list string) :
  kw ∈ l → 0 < occurrences (JsString.toLowerCase kw) l.
Proof.
  intros Hin. unfold occurrences.
  assert (kw ∈ filter (λ w, JsString.toLowerCase w = JsString.toLowerCase kw) l)
    as Hf by (by apply list_elem_of_filter).
  destruct (filter _ l); [by inversion Hf | simpl; lia].
Qed.

Lemma trackKeyword_count (m : gmap string nat) kws k :
  default 0 (foldl trackKeyword m kws !! k) = default 0 (m !! k) + occurrences k kws.
Proof.
  revert m. induction kws as [|w kws IH]; intros m; simpl.
  - unfold occurrences. simpl. lia.
  - rewrite IH. unfold trackKeyword, occurrences. rewrite filter_cons.
    destruct (decide (JsString.toLowerCase w = k)) as [->|Hne].
    + rewrite lookup_insert_eq. simpl. lia.
    + by rewrite lookup_insert_ne.
Qed.

Lemma frequencyOf_counted (m : gmap string nat) (seen : list string) kw :
  (∀ k, default 0 (m !! k) = occurrences k seen) → kw ∈ seen →
  frequencyOf m kw = occurrences (JsString.toLowerCase kw) seen.
Proof.
  intros Hm Hin. pose proof (occurrences_pos _ _ Hin) as Hpos.
  unfold frequencyOf. specialize (Hm (JsString.toLowerCase kw)).
  destruct (m !! JsString.toLowerCase kw) as [[|n]|]; simpl in *; lia.
Qed.

Lemma foldl_sum {A} (f : A → nat) (l : list A) (a : nat) :
  foldl (λ sum x, sum + f x) a l = a + sum_list (f <$> l).
Proof.
  revert a. induction l as [|x l IH]; intros a; csimpl; [lia |].
  rewrite IH. lia.
Qed.

Lemma confidenceOf_counted (counted : gmap string nat) (top : list string)
    (freq : string → nat) :
  (∀ w, w ∈ top → frequencyOf counted w = freq w) →
  confidenceOf counted top total
  = Qmin (ratio (sum_list (freq <$> top)) (length top) / inject_Z (Z.of_nat total)) 1.
Proof.
  intros Hfreq. unfold confidenceOf. rewrite foldl_sum, Nat.add_0_l.
  replace (frequencyOf counted <$> top) with (freq <$> top); [done |].
  apply list_fmap_ext. intros i w Hw. symmetry. apply Hfreq.
  by apply list_elem_of_lookup_2 in Hw.
Qed.

Lemma processMessage_spec (before : list Message) (st : LoopState) (m : Message) :
  (∀ k, default 0 (allKeywords st !! k)
        = occurrences k (before ≫= usableKeywords analyze)) →
  let st' := processMessage analyze config total st m in
  extractedSubjects st'
  = extractedSubjects st
    ++ option_list (candidateOf analyze (minimumOf config) total before m)
  ∧ (∀ k, default 0 (allKeywords st' !! k)
          = occurrences k ((before ++ [m]) ≫= usableKeywords analyze)).
Proof.
  intros Hinv. simpl.
  assert (Hbind : (before ++ [m]) ≫= usableKeywords analyze
                  = (before ≫= usableKeywords analyze) ++ usableKeywords analyze m).
  { rewrite bind_app, bind_cons. csimpl. by rewrite app_nil_r. }
  assert (Hu : usableKeywords analyze m
               = match analyze (body m) 10 with
                 | Returns (Some keywords) => keywords
                 | _ => []
                 end) by done.
  unfold processMessage, candidateOf. rewrite Hbind.
  destruct (analyze (body m) 10) as [|[[|kw kws]|]] eqn:Ha; rewrite Hu.
  1, 2, 4: simpl; split; [by rewrite app_nil_r | intros k; by rewrite app_nil_r].
  lazy beta iota zeta.
  set (keywords := kw :: kws).
  set (counted := foldl trackKeyword (allKeywords st) keywords).
  assert (Hcounted : ∀ k, default 0 (counted !! k)
            = occurrences k ((before ≫= usableKeywords analyze) ++ keywords)).
  { intros k. unfold counted.
    by rewrite trackKeyword_count, occurrences_app, Hinv. }
  rewrite (confidenceOf_counted counted (take 3 keywords)
             (frequencySoFar analyze (before ++ [m]))).
  - unfold minimumOf. destruct (Qle_bool _ _); simpl;
      (split; [by rewrite ?app_nil_r | done]).
  - intros w Hw. unfold frequencySoFar. rewrite Hbind, Hu.
    apply frequencyOf_counted; [done |].
    apply elem_of_app. right.
    apply elem_of_take in Hw as (i & Hi & _). by eapply list_elem_of_lookup_2.
Qed.

Lemma loop_spec (rest before : list Message) (st : LoopState) :
  (∀ k, default 0 (allKeywords st !! k)
        = occurrences k (before ≫= usableKeywords analyze)) →
  extractedSubjects (foldl (processMessage analyze config total) st rest)
  = extractedSubjects st ++ candidatesFrom analyze (minimumOf config) total before rest.
Proof.
  revert before st. induction rest as [|m rest IH]; intros before st Hinv; simpl.
  - by rewrite app_nil_r.
  - destruct (processMessage_spec before st m Hinv) as [Hsub Hinv'].
    rewrite (IH (before ++ [m])) by done. by rewrite Hsub, <- app_assoc.
Qed.

Lemma elem_of_candidatesFrom (minimum : Q) before rest subj :
  subj ∈ candidatesFrom analyze minimum total before rest ↔
  ∃ pre m post, rest = pre ++ m :: post
                ∧ candidateOf analyze minimum total (before ++ pre) m = Some subj.
Proof.
  revert before. induction rest as [|m rest IH]; intros before; simpl.
  - split; [by inversion 1 |]. intros (pre & m & post & E & _). by destruct pre.
  - rewrite elem_of_app, IH. split.
    + intros [Hhere|(pre & m' & post & -> & Hc)].
      * exists [], m, rest. rewrite app_nil_r. split; [done |].
        destruct (candidateOf _ _ _ _ _); [| by inversion Hhere].
        by apply list_elem_of_singleton in Hhere as ->.
      * exists (m :: pre), m', post. split; [done |].
        by rewrite <- app_assoc in Hc.
    + intros (pre & m' & post & E & Hc). destruct pre as [|p pre]; simpl in E.
      * injection E as -> ->. rewrite app_nil_r in Hc. left. rewrite Hc. by left.
      * injection E as -> ->. right. exists pre, m', post. split; [done |].
        by rewrite <- app_assoc.
Qed.





End pipeline.

(** ** The claims about the pipeline *)








(** *** Deduplication *)

Lemma seenGet_Some key (seen : list (string * ExtractedSubject)) v :
  seenGet key seen = Some v → (key, v) ∈ seen.
Proof.
  induction seen as [|[k v'] rest IH]; simpl; [done |].
  case_decide as Hk; [intros [= ->]; subst; by left | right; auto].
Qed.

Lemma seenGet_seenSet key key' v (seen : list (string * ExtractedSubject)) :
  seenGet key' (seenSet key v seen)
  = if decide (key = key') then Some v else seenGet key' seen.
Proof.
  induction seen as [|[k v'] rest IH]; simpl.
  - by repeat case_decide.
  - repeat (case_decide; simpl; subst); try done; try congruence;
      rewrite IH; by repeat case_decide.
Qed.

Lemma elem_of_seenSet key v (seen : list (string * ExtractedSubject)) p :
  p ∈ seenSet key v seen → p = (key, v) ∨ p ∈ seen.
Proof.
  induction seen as [|[k v'] rest IH]; simpl.
  - intros ->%list_elem_of_singleton. by left.
  - case_decide as Hk; subst.
    + intros [->|?]%elem_of_cons; [by left | right; by right].
    + intros [->|Hin]%elem_of_cons; [right; by left |].
      destruct (IH Hin); [by left | right; by right].
Qed.

Lemma seenSet_keys key v (seen : list (string * ExtractedSubject)) :
  NoDup seen.*1 → NoDup (seenSet key v seen).*1.
Proof.
  induction seen as [|[k v'] rest IH]; simpl; [repeat constructor; by inversion 1 |].
  intros [Hk Hrest]%NoDup_cons. case_decide as Hkey; simpl.
  - by apply NoDup_cons.
  - apply NoDup_cons. split; [| auto].
    intros ((k' & v'') & -> & Hin)%list_elem_of_fmap.
    apply elem_of_seenSet in Hin as [[= -> ->]|Hin]; [done |].
    apply Hk. simpl. by apply (list_elem_of_fmap_2 fst) in Hin.
Qed.

Lemma seenFor_set processed seen x :
  seenFor processed seen →
  (∀ v, seenGet (labelKey x) seen = Some v → (confidence v <= confidence x)%Q) →
  seenFor (processed ++ [x]) (seenSet (labelKey x) x seen).
Proof.
  intros [Hkeys Hvals Hbest] Hx. split.
  - by apply seenSet_keys.
  - intros k v [[= -> ->]|Hin]%elem_of_seenSet.
    + split; [done |]. apply elem_of_app. right. by left.
    + destruct (Hvals _ _ Hin). split; [done |]. apply elem_of_app. by left.
  - intros y [Hy|Hy%list_elem_of_singleton]%elem_of_app; [| subst y].
    + rewrite seenGet_seenSet. case_decide as Hkey.
      * exists x. split; [done |].
        destruct (Hbest _ Hy) as (v & Hv & Hle). rewrite <- Hkey in Hv.
        specialize (Hx _ Hv). lra.
      * by apply Hbest.
    + exists x. rewrite seenGet_seenSet, decide_True by done. split; [done | lra].
Qed.

Lemma seenFor_step processed seen x :
  seenFor processed seen → seenFor (processed ++ [x]) (seenStep seen x).
Proof.
  intros Hseen. unfold seenStep. fold (labelKey x).
  destruct (seenGet (labelKey x) seen) as [existing|] eqn:Hget.
  - destruct (Qle_bool (confidence x) (confidence existing)) eqn:Hle; simpl.
    + apply Qle_bool_iff in Hle. destruct Hseen as [Hkeys Hvals Hbest]. split.
      * done.
      * intros k v Hin. destruct (Hvals _ _ Hin). split; [done |].
        apply elem_of_app. by left.
      * intros y [Hy|Hy%list_elem_of_singleton]%elem_of_app; [by apply Hbest |].
        subst y. by exists existing.
    + apply seenFor_set; [done |]. intros v Hv. rewrite Hget in Hv.
      injection Hv as <-.
      destruct (Qlt_le_dec (confidence existing) (confidence x)) as [?|Hge];
        [lra |].
      apply Qle_bool_iff in Hge. congruence.
  - apply seenFor_set; [done |]. intros v Hv. by rewrite Hget in Hv.
Qed.

Lemma seenFor_loop rest processed seen :
  seenFor processed seen → seenFor (processed ++ rest) (foldl seenStep seen rest).
Proof.
  revert processed seen. induction rest as [|x rest IH]; intros processed seen Hseen.
  - by rewrite app_nil_r.
  - simpl. replace (processed ++ x :: rest) with ((processed ++ [x]) ++ rest)
      by (by rewrite <- app_assoc).
    by apply IH, seenFor_step.
Qed.

(** Deduplication keeps one candidate per case-insensitive label, taken from
    the candidates given, and none of the given candidates with that label
    has a higher confidence. *)
Theorem deduplicateSubjects_spec (found : list ExtractedSubject) :
  NoDup (labelKey <$> deduplicateSubjects found)
  ∧ (∀ y, y ∈ deduplicateSubjects found → y ∈ found)
  ∧ (∀ x, x ∈ found →
       ∃ y, y ∈ deduplicateSubjects found ∧ labelKey y = labelKey x
            ∧ (confidence x <= confidence y)%Q).
Proof.
  assert (Hseen : seenFor found (foldl seenStep [] found)).
  { apply (seenFor_loop found [] []). split; [constructor | by inversion 1 | by inversion 1]. }
  change (deduplicateSubjects found) with (foldl seenStep [] found).*2.
  destruct Hseen as [Hkeys Hvals Hbest].
  set (seen := foldl seenStep [] found) in *.
  split_and!.
  - replace (labelKey <$> seen.*2) with seen.*1; [done |].
    rewrite <- list_fmap_compose. apply list_fmap_ext.
    intros i [k v] Hi. simpl. apply list_elem_of_lookup_2 in Hi.
    by destruct (Hvals _ _ Hi).
  - intros y ((k & v) & -> & Hin)%list_elem_of_fmap. by destruct (Hvals _ _ Hin).
  - intros x Hx. destruct (Hbest _ Hx) as (v & Hv & Hle).
    apply seenGet_Some in Hv. exists v. split_and!; [| | done].
    + by apply (list_elem_of_fmap_2 snd) in Hv.
    + by destruct (Hvals _ _ Hv).
Qed.

Example broken_record_is_skipped :
  map subjectName (extractedSubjects (runLoop exampleAnalyzer None brokenBatch))
  = []
  ∧ map subjectName
      (extractedSubjects
         (runLoop exampleAnalyzer (getConfig "topic" exampleService) brokenBatch))
    = ["a"; "b c d"].
Proof. split; reflexivity. Qed.

End chat_memory.

(** * Further properties of the index *)

Section jaccard_algebra.
Implicit Types (A B : gset string).

Lemma Zpos_of_nat (b : nat) : b ≠ 0 → Z.pos (Pos.of_nat b) = Z.of_nat b.
Proof. destruct b; [done |]. intros _. rewrite <- Pos.of_nat_succ. lia. Qed.

Lemma jaccard_sizes A B :
  size (A ∩ B) ≤ size (A ∪ B)
  ∧ (size (A ∩ B) = size (A ∪ B) ↔ A = B)
  ∧ (size (A ∩ B) = 0 ↔ A ## B).
Proof.
  assert (Hsub : A ∩ B ⊆ A ∪ B) by set_solver.
  split_and!.
  - by apply subseteq_size.
  - split.
    + intros Hsize. assert (A ∩ B = A ∪ B) as Heq
        by (apply set_subseteq_size_eq; [done | lia]).
      apply set_eq. intros x. split; intros Hx.
      * assert (x ∈ A ∩ B) by (rewrite Heq; set_solver). set_solver.
      * assert (x ∈ A ∩ B) by (rewrite Heq; set_solver). set_solver.
    + intros ->. f_equal. set_solver.
  - rewrite size_zero_empty. set_solver.
Qed.

Lemma calculateJaccardSimilarity_nonempty A B :
  A ∪ B ≠ ∅ →
  calculateJaccardSimilarity A B = Z.of_nat (size (A ∩ B)) # Pos.of_nat (size (A ∪ B))
  ∧ Z.pos (Pos.of_nat (size (A ∪ B))) = Z.of_nat (size (A ∪ B))
  ∧ size (A ∪ B) ≠ 0.
Proof.
  intros Hne. assert (size (A ∪ B) ≠ 0) as Hs by (by rewrite size_zero_empty).
  rewrite calculateJaccardSimilarity_eq, decide_False by done.
  split_and!; [done | by apply Zpos_of_nat | done].
Qed.

Lemma jaccard_bounds A B : (0 <= calculateJaccardSimilarity A B <= 1)%Q.
Proof.
  destruct (jaccard_sizes A B) as (Hle & _ & _).
  destruct (decide (A ∪ B = ∅)) as [He|Hne].
  - rewrite calculateJaccardSimilarity_eq, decide_True; [done |].
    by rewrite He, size_empty.
  - destruct (calculateJaccardSimilarity_nonempty A B Hne) as (-> & Hpos & _).
    unfold Qle. simpl. rewrite Hpos. lia.
Qed.

Lemma jaccard_one A B :
  (calculateJaccardSimilarity A B == 1)%Q ↔ A = B ∧ A ≠ ∅.
Proof.
  destruct (jaccard_sizes A B) as (_ & Hone & _).
  destruct (decide (A ∪ B = ∅)) as [He|Hne].
  - rewrite calculateJaccardSimilarity_eq, decide_True by (by rewrite He, size_empty).
    split; [done |]. intros [-> HA]. set_solver.
  - destruct (calculateJaccardSimilarity_nonempty A B Hne) as (-> & Hpos & _).
    unfold Qeq. simpl. rewrite Hpos. split.
    + intros Hsize. assert (A = B) as -> by (apply Hone; lia). set_solver.
    + intros [HAB _]. apply Hone in HAB. lia.
Qed.

Lemma jaccard_zero A B : (calculateJaccardSimilarity A B == 0)%Q ↔ A ## B.
Proof.
  destruct (jaccard_sizes A B) as (_ & _ & Hzero).
  destruct (decide (A ∪ B = ∅)) as [He|Hne].
  - rewrite calculateJaccardSimilarity_eq, decide_True by (by rewrite He, size_empty).
    split; [set_solver | done].
  - destruct (calculateJaccardSimilarity_nonempty A B Hne) as (-> & Hpos & _).
    unfold Qeq. simpl. rewrite <- Hzero. lia.
Qed.

(** The similarity is symmetric, lies between 0 and 1, is 1 exactly for two
    equal non-empty sets and 0 exactly for two sets with no common element. *)
Theorem calculateJaccardSimilarity_algebra A B :
  calculateJaccardSimilarity A B = calculateJaccardSimilarity B A
  ∧ (0 <= calculateJaccardSimilarity A B <= 1)%Q
  ∧ ((calculateJaccardSimilarity A B == 1)%Q ↔ A = B ∧ A ≠ ∅)
  ∧ ((calculateJaccardSimilarity A B == 0)%Q ↔ A ## B).
Proof.
  split; [| split; [| split]].
  - rewrite !calculateJaccardSimilarity_eq.
    by rewrite (comm_L (∪) B A), (comm_L (∩) B A).
  - apply jaccard_bounds.
  - apply jaccard_one.
  - apply jaccard_zero.
Qed.

End jaccard_algebra.

Section query_results.
Implicit Types (s : SubjectIndex) (m : SubjectMatch).

Lemma scoreCandidates_bind (S : gset string) (ids : list string) s :
  scoreCandidates S ids s = ids ≫= candidateMatch S s.
Proof.
  unfold scoreCandidates. rewrite (foldl_push _ (candidateMatch S s)); [done |].
  intros acc id. unfold candidateMatch, matchOf.
  destruct (subjects s !! id); [| by rewrite app_nil_r].
  simpl. destruct (0 <? _); [done | by rewrite app_nil_r].
Qed.

Lemma candidateMatch_ids (S : gset string) s (ids : list string) :
  consistent s → NoDup ids →
  NoDup (matchIdHash <$> (ids ≫= candidateMatch S s))
  ∧ (∀ x, x ∈ matchIdHash <$> (ids ≫= candidateMatch S s) →
          x ∈ ids ∧ is_Some (subjects s !! x)).
Proof.
  intros Hs. induction ids as [|id ids IH]; intros Hnd.
  - split; [constructor | by inversion 1].
  - apply NoDup_cons in Hnd as [Hid Hnd]. destruct (IH Hnd) as [IHnd IHin].
    rewrite bind_cons, fmap_app. unfold candidateMatch at 1 3.
    destruct (subjects s !! id) as [entry|] eqn:E; simpl;
      [destruct (0 <? _); simpl |].
    + rewrite (consistent_key _ Hs _ _ E). split.
      * apply NoDup_cons. split; [| done]. intros Hin. by destruct (IHin _ Hin).
      * intros x [->|Hx]%elem_of_cons.
        -- split; [by left | by rewrite E].
        -- destruct (IHin _ Hx). split; [by right | done].
    + split; [done |]. intros x Hx. destruct (IHin _ Hx). split; [by right | done].
    + split; [done |]. intros x Hx. destruct (IHin _ Hx). split; [by right | done].
Qed.

Lemma elem_of_findMatchingKeywords_search (S T : gset string) k :
  k ∈ findMatchingKeywords S T → k ∈ S.
Proof. by intros [? _]%elem_of_findMatchingKeywords. Qed.

(** A query none of whose normalized keywords has a posting list (an empty
    query, an empty index, unknown keywords) has the empty result. *)
Theorem findByKeywords_misses (kws : list string) s :
  (∀ q, q ∈ kws → keywordToSubjects s !! normalizeKeyword q = None) →
  findByKeywords kws s = [] ∧ findSimilar kws None s = [].
Proof.
  intros Hmiss.
  assert (Hnone : candidateIdHashes (normalizeKeywords kws) s = ∅).
  { apply set_eq. intros id. rewrite elem_of_candidateIdHashes. split; [| set_solver].
    intros (k & X & (q & -> & Hq)%list_elem_of_fmap & HX & _).
    by rewrite (Hmiss _ Hq) in HX. }
  assert (Hfound : findByKeywords kws s = []).
  { unfold findByKeywords. simpl. by rewrite Hnone, elements_empty. }
  split; [done |]. unfold findSimilar. by rewrite Hfound.
Qed.

Lemma findByKeywords_misses_witness :
  findByKeywords ["Python"; "go"] threeSubjects = []
  ∧ findSimilar ["Python"; "go"] None threeSubjects = [].
Proof.
  apply findByKeywords_misses.
  intros q Hq. repeat (apply elem_of_cons in Hq as [->|Hq]; [reflexivity |]).
  by inversion Hq.
Defined.

(** On a reachable state the matches of a query are matches of pairwise
    different stored subjects, at most as many as there are subjects; each
    carries the name and keywords of its subject, a score between 0 and 1,
    and a non-empty list of matching keywords taken from the normalized
    query. *)
Theorem findByKeywords_matches_stored (kws : list string) s :
  reachable s →
  NoDup (matchIdHash <$> findByKeywords kws s)
  ∧ length (findByKeywords kws s) ≤ totalSubjects (getStats s)
  ∧ (∀ m, m ∈ findByKeywords kws s →
       ∃ entry, getSubject (matchIdHash m) s = Some entry
                ∧ matchName m = name entry ∧ matchKeywords m = keywords entry
                ∧ (0 <= relevanceScore m <= 1)%Q
                ∧ matchingKeywords m ≠ []
                ∧ ∀ k, k ∈ matchingKeywords m → k ∈ normalizeKeywords kws).
Proof.
  intros Hs%reachable_consistent.
  set (S := list_to_set (normalizeKeywords kws) : gset string).
  set (ids := elements (candidateIdHashes (normalizeKeywords kws) s)).
  assert (Hperm : findByKeywords kws s ≡ₚ ids ≫= candidateMatch S s).
  { unfold findByKeywords. simpl. fold S ids.
    by rewrite sortMatches_Permutation, scoreCandidates_bind. }
  destruct (candidateMatch_ids S s ids Hs) as [Hnd Hin]; [apply NoDup_elements |].
  split_and!.
  - by rewrite Hperm.
  - rewrite Hperm. simpl. rewrite <- (length_fmap matchIdHash).
    transitivity (length (elements (dom (subjects s)))).
    + apply submseteq_length, NoDup_submseteq; [done |].
      intros x Hx. destruct (Hin _ Hx) as [_ Hsome].
      by apply elem_of_elements, elem_of_dom.
    + by rewrite <- size_dom.
  - intros m (id & entry & k & X & Hk & HX & Hid & E & Hne & ->)%elem_of_findByKeywords.
    exists entry. fold S. simpl. unfold getSubject.
    rewrite (consistent_key _ Hs _ _ E).
    pose proof (jaccard_bounds S (normalizedKeywords entry)) as [Hlow Hhigh].
    split; [done |]. split; [done |]. split; [done |]. split; [by split |].
    split; [done |].
    intros k' Hk'%elem_of_findMatchingKeywords_search.
    by apply elem_of_list_to_set in Hk'.
Qed.

Lemma findByKeywords_matches_stored_witness :
  NoDup (matchIdHash <$> findByKeywords ["rust"] threeSubjects)
  ∧ length (findByKeywords ["rust"] threeSubjects) ≤ 3.
Proof.
  destruct (findByKeywords_matches_stored ["rust"] threeSubjects) as (Hnd & Hlen & _).
  { apply reachable_build. }
  split; [exact Hnd | exact Hlen].
Defined.

End query_results.

Section self_match.
Implicit Types (s : SubjectIndex) (m : SubjectMatch).

Lemma stored_entry_found (kws : list string) s id nm md :
  consistent s → kws ≠ [] →
  subjects s !! id = Some (createIndexEntry id nm (Some kws) md) →
  ∃ m, m ∈ findByKeywords kws s
       ∧ matchIdHash m = id ∧ matchName m = nm ∧ matchKeywords m = kws
       ∧ (relevanceScore m == 1)%Q
       ∧ ∀ m', m' ∈ findByKeywords kws s → scoresNoHigher m m'.
Proof.
  intros Hs Hkws He.
  set (e := createIndexEntry id nm (Some kws) md) in *.
  set (S := list_to_set (normalizeKeywords kws) : gset string).
  assert (Hq : ∃ q, q ∈ kws) by (destruct kws as [|q ?]; [done | exists q; by left]).
  destruct Hq as [q Hq].
  assert (HkS : normalizeKeyword q ∈ S).
  { apply elem_of_list_to_set. by apply list_elem_of_fmap_2. }
  assert (Hk : normalizeKeyword q ∈ normalizedKeywords e) by done.
  destruct (consistent_indexed _ Hs _ _ _ He Hk) as (X & HX & Hin).
  assert (Hone : (calculateJaccardSimilarity S (normalizedKeywords e) == 1)%Q).
  { apply jaccard_one. split; [done |]. set_solver. }
  exists (matchOf S e). split_and!; [| done.. |].
  - apply elem_of_findByKeywords. simpl.
    exists id, e, (normalizeKeyword q), X.
    split_and!; [by apply list_elem_of_fmap_2 | done.. | | done].
    intros Hnil.
    assert (Hm : normalizeKeyword q ∈ findMatchingKeywords S (normalizedKeywords e))
      by (by apply findMatchingKeywords_exact).
    unfold S in Hm. rewrite Hnil in Hm. by inversion Hm.
  - intros m' (id' & e' & _ & _ & _ & _ & _ & _ & _ & ->)%elem_of_findByKeywords.
    unfold scoresNoHigher. simpl. fold S.
    pose proof (jaccard_bounds S (normalizedKeywords e')) as [_ Hhigh].
    change (list_to_set (map normalizeKeyword kws)) with (normalizedKeywords e).
    lra.
Qed.

(** A subject indexed through [createIndexEntry] with at least one keyword is
    found by its own keywords: after [addSubject] or [updateSubject] the query
    for them returns it with score 1, and no match scores higher. *)
Theorem indexed_subject_found_by_own_keywords (kws : list string) s id nm md :
  reachable s → kws ≠ [] →
  let e := createIndexEntry id nm (Some kws) md in
  ∀ s', s' = addSubject e s ∨ s' = updateSubject e s →
    ∃ m, m ∈ findByKeywords kws s'
         ∧ matchIdHash m = id ∧ matchName m = nm ∧ matchKeywords m = kws
         ∧ (relevanceScore m == 1)%Q
         ∧ ∀ m', m' ∈ findByKeywords kws s' → scoresNoHigher m m'.
Proof.
  intros Hs%reachable_consistent Hkws e s' [->| ->].
  - apply (stored_entry_found kws _ id nm md);
      [by apply consistent_addSubject | done |].
    rewrite addSubject_subjects. apply lookup_insert_eq.
  - apply (stored_entry_found kws _ id nm md);
      [by apply consistent_updateSubject | done |].
    rewrite updateSubject_subjects. apply lookup_insert_eq.
Qed.

Lemma indexed_subject_found_by_own_keywords_witness :
  ∃ m, m ∈ findByKeywords ["Type-Script"; "web"]
             (addSubject (createIndexEntry "s9" "TS" (Some ["Type-Script"; "web"]) None)
                threeSubjects)
       ∧ matchIdHash m = "s9" ∧ (relevanceScore m == 1)%Q.
Proof.
  destruct (indexed_subject_found_by_own_keywords ["Type-Script"; "web"]
              threeSubjects "s9" "TS" None) with
    (s' := addSubject (createIndexEntry "s9" "TS" (Some ["Type-Script"; "web"]) None)
             threeSubjects) as (m & Hm & Hid & _ & _ & Hone & _).
  - apply reachable_build.
  - done.
  - by left.
  - by exists m.
Defined.

End self_match.

Section limits.

Lemma slice0_negative {A} (n : Z) (l : list A) :
  (n < 0)%Z → slice0 n l = take (length l - Z.to_nat (- n)) l.
Proof.
  intros Hn. unfold slice0. destruct (n <? 0)%Z eqn:Hneg; [| lia].
  f_equal. lia.
Qed.

Lemma slice0_prefix {A} (n : Z) (l : list A) : slice0 n l `prefix_of` l.
Proof. unfold slice0. apply prefix_take. Qed.

(** [findSimilar] returns a prefix of the sorted matches for every limit: the
    first [n] for a limit [n >= 0], none for 0, and for a negative limit all
    but the last [-n] matches rather than none. *)
Theorem findSimilar_limits (kws : list string) (limit : option Z) (s : SubjectIndex) :
  findSimilar kws limit s `prefix_of` findByKeywords kws s
  ∧ (∀ n, limit = Some n → (0 ≤ n)%Z →
       length (findSimilar kws limit s)
       = Z.to_nat n `min` length (findByKeywords kws s))
  ∧ (∀ n, limit = Some n → (n < 0)%Z →
       findSimilar kws limit s
       = take (length (findByKeywords kws s) - Z.to_nat (- n)) (findByKeywords kws s)).
Proof.
  split_and!.
  - apply slice0_prefix.
  - intros n -> Hn. unfold findSimilar. simpl.
    by rewrite slice0_nonneg, length_take.
  - intros n -> Hn. unfold findSimilar. simpl. by apply slice0_negative.
Qed.

Lemma findSimilar_limits_witness :
  map matchIdHash (findSimilar ["rust"] (Some (-1)%Z) threeSubjects) = ["s3"; "s1"]
  ∧ length (findSimilar ["rust"] (Some 2%Z) threeSubjects) = 2.
Proof.
  destruct (findSimilar_limits ["rust"] (Some (-1)%Z) threeSubjects) as (_ & _ & Hneg).
  destruct (findSimilar_limits ["rust"] (Some 2%Z) threeSubjects) as (_ & Hpos & _).
  split.
  - rewrite (Hneg (-1)%Z); [reflexivity | reflexivity | lia].
  - rewrite (Hpos 2%Z); [reflexivity | reflexivity | lia].
Defined.

End limits.

Section bulk_build.
Implicit Types (s : SubjectIndex) (e : SubjectIndexEntry) (es : list SubjectIndexEntry).

Lemma addSubjects_subjects es s id :
  subjects (foldl (λ acc e, addSubject e acc) s es) !! id
  = match lastWithId id es with
    | Some e => Some e
    | None => subjects s !! id
    end.
Proof.
  revert s. induction es as [|e es IH]; intros s; [done |]. simpl foldl.
  rewrite IH, addSubject_subjects. unfold lastWithId. rewrite filter_cons.
  destruct (decide (idHash e = id)) as [<-|Hne].
  - rewrite last_cons. destruct (last (filter _ es)); [done |].
    by rewrite lookup_insert_eq.
  - destruct (last (filter _ es)); [done |]. by rewrite lookup_insert_ne.
Qed.

Lemma idsWithKeyword_cons k e es :
  idsWithKeyword k (e :: es)
  = (if decide (k ∈ normalizedKeywords e) then {[idHash e]} else ∅)
    ∪ idsWithKeyword k es.
Proof.
  unfold idsWithKeyword. rewrite filter_cons. case_decide; simpl; set_solver.
Qed.

Lemma addSubjects_postings es s k :
  keywordToSubjects (foldl (λ acc e, addSubject e acc) s es) !! k
  = if decide (idsWithKeyword k es = ∅) then keywordToSubjects s !! k
    else Some (default ∅ (keywordToSubjects s !! k) ∪ idsWithKeyword k es).
Proof.
  revert s. induction es as [|e es IH]; intros s; [done |]. simpl foldl.
  rewrite IH, addSubject_postings, idsWithKeyword_cons. unfold addTo.
  set (Y := idsWithKeyword k es). set (P := keywordToSubjects s !! k).
  destruct (decide (k ∈ normalizedKeywords e)) as [Hk|Hk];
    destruct (decide (Y = ∅)) as [He|He].
  - rewrite decide_False by set_solver. f_equal. set_solver.
  - rewrite decide_False by set_solver. simpl. f_equal. set_solver.
  - rewrite decide_True by set_solver. done.
  - rewrite decide_False by set_solver. f_equal. set_solver.
Qed.

Lemma addSubjects_noStalePostings es s :
  noStalePostings s → NoDup (idHash <$> es) →
  (∀ e, e ∈ es → subjects s !! idHash e = None) →
  noStalePostings (foldl (λ acc e, addSubject e acc) s es).
Proof.
  revert s. induction es as [|e es IH]; intros s Hs Hnd Hnew; [done |].
  simpl. apply NoDup_cons in Hnd as [Hid Hnd]. apply IH; [| done |].
  - apply noStalePostings_addSubject; [done |]. apply Hnew. by left.
  - intros e' He'. rewrite addSubject_subjects, lookup_insert_ne.
    + apply Hnew. by right.
    + intros Heq. apply Hid. rewrite Heq. by apply list_elem_of_fmap_2.
Qed.

(** [buildFromSubjects] forgets the state it starts from.  Afterwards the
    entry stored under an identifier is the last one given with it, and the
    posting list of a keyword holds the identifiers of all given entries with
    that keyword, overwritten ones included; when the identifiers of the
    entries are pairwise different the index has no stale postings. *)
Theorem buildFromSubjects_contents es s :
  buildFromSubjects es s = buildFromSubjects es newIndex
  ∧ (∀ id, getSubject id (buildFromSubjects es s) = lastWithId id es)
  ∧ (∀ id, hasSubject id (buildFromSubjects es s) = true ↔ id ∈ idHash <$> es)
  ∧ (∀ k, keywordToSubjects (buildFromSubjects es s) !! k
          = if decide (idsWithKeyword k es = ∅) then None
            else Some (idsWithKeyword k es))
  ∧ (NoDup (idHash <$> es) → noStalePostings (buildFromSubjects es s)).
Proof.
  assert (Hget : ∀ id, getSubject id (buildFromSubjects es s) = lastWithId id es).
  { intros id. unfold getSubject, buildFromSubjects, clear.
    rewrite addSubjects_subjects. simpl. rewrite lookup_empty.
    by destruct (lastWithId id es). }
  split_and!; [done | done | | |].
  - intros id. unfold hasSubject. rewrite bool_decide_eq_true.
    fold (getSubject id (buildFromSubjects es s)). rewrite Hget. unfold lastWithId.
    rewrite list_elem_of_fmap. split.
    + intros [e He]. apply last_Some_elem_of, list_elem_of_filter in He as [<- He].
      by exists e.
    + intros (e & -> & He).
      assert (e ∈ filter (λ e', idHash e' = idHash e) es) as Hin
        by (by apply list_elem_of_filter).
      destruct (filter _ es) as [|x l] eqn:Hf using rev_ind; [by inversion Hin |].
      rewrite last_snoc. by eexists.
  - intros k. unfold buildFromSubjects, clear. rewrite addSubjects_postings. simpl.
    rewrite lookup_empty. simpl. case_decide; [done |]. f_equal. set_solver.
  - intros Hnd. unfold buildFromSubjects, clear.
    apply addSubjects_noStalePostings; [apply noStalePostings_new | done |].
    intros e _. simpl. apply lookup_empty.
Qed.

Lemma buildFromSubjects_contents_witness :
  noStalePostings threeSubjects.
Proof.
  destruct (buildFromSubjects_contents [rustSystems; rustWeb; rustOnly] newIndex)
    as (_ & _ & _ & _ & Hclean).
  apply Hclean. compute_done.
Defined.

End bulk_build.

Section statistics.
Implicit Types (s : SubjectIndex).

Lemma elem_of_getAllSubjects s e :
  e ∈ getAllSubjects s ↔ ∃ id, subjects s !! id = Some e.
Proof.
  unfold getAllSubjects. rewrite list_elem_of_fmap. split.
  - intros ([id e'] & -> & Hin%elem_of_map_to_list). by exists id.
  - intros [id He]. exists (id, e). split; [done |]. by apply elem_of_map_to_list.
Qed.

Lemma elem_of_storedKeywords s k :
  k ∈ storedKeywords s ↔ ∃ id e, subjects s !! id = Some e ∧ k ∈ normalizedKeywords e.
Proof.
  unfold storedKeywords. rewrite elem_of_union_list. split.
  - intros (X & (e & -> & [id He]%elem_of_getAllSubjects)%list_elem_of_fmap & Hk).
    by exists id, e.
  - intros (id & e & He & Hk). exists (normalizedKeywords e). split; [| done].
    apply list_elem_of_fmap_2, elem_of_getAllSubjects. by exists id.
Qed.

(** [getStats] counts the stored subjects and the posting lists, and its
    memory estimate is 500 per subject plus 100 per posting list; there is no
    average without subjects.  On a reachable state every keyword of a stored
    subject is counted, and without stale postings nothing else is. *)
Theorem getStats_counts s :
  totalSubjects (getStats s) = size (subjects s)
  ∧ totalKeywords (getStats s) = size (dom (keywordToSubjects s))
  ∧ memoryUsageBytes (getStats s)
    = 500 * totalSubjects (getStats s) + 100 * totalKeywords (getStats s)
  ∧ (subjects s = ∅ → averageKeywordsPerSubject (getStats s) = 0%Q)
  ∧ (reachable s → storedKeywords s ⊆ dom (keywordToSubjects s))
  ∧ (reachable s → noStalePostings s →
     totalKeywords (getStats s) = size (storedKeywords s)).
Proof.
  assert (Hsub : reachable s → storedKeywords s ⊆ dom (keywordToSubjects s)).
  { intros Hs%reachable_consistent k (id & e & He & Hk)%elem_of_storedKeywords.
    destruct (consistent_indexed _ Hs _ _ _ He Hk) as (X & HX & _).
    apply elem_of_dom. by eexists. }
  split_and!; [done | | | | done |].
  - simpl. by rewrite size_dom.
  - simpl. lia.
  - intros He. simpl. rewrite He, map_size_empty. done.
  - intros Hr Hstale. simpl. rewrite <- size_dom. f_equal.
    apply set_eq. intros k. split; [| by apply Hsub].
    intros [X HX]%elem_of_dom.
    pose proof (consistent_nonempty _ (reachable_consistent _ Hr) _ _ HX) as Hne.
    apply set_choose_L in Hne as [id Hid].
    destruct (Hstale _ _ _ HX Hid) as (e & He & Hk).
    apply elem_of_storedKeywords. by exists id, e.
Qed.

Lemma getStats_counts_witness :
  storedKeywords threeSubjects ⊆ dom (keywordToSubjects threeSubjects)
  ∧ totalKeywords (getStats threeSubjects) = size (storedKeywords threeSubjects).
Proof.
  destruct (getStats_counts threeSubjects) as (_ & _ & _ & _ & Hsub & Hexact).
  split.
  - apply Hsub, reachable_build.
  - apply Hexact; [apply reachable_build |].
    apply addSubjects_noStalePostings; [apply noStalePostings_new | compute_done |].
    intros e _. apply lookup_empty.
Defined.

End statistics.

Section entry_store.
Implicit Types (s : SubjectIndex) (e : SubjectIndexEntry) (id : string).

(** The stored entries behave as a map from identifiers: [addSubject] and
    [updateSubject] store the entry under its identifier and touch no other,
    [removeSubject] removes that of its identifier and touches no other,
    [clear] removes all; [hasSubject] and [getAllSubjects] agree with
    [getSubject]. *)
Theorem getSubject_after s e id :
  getSubject id (addSubject e s) = (if decide (id = idHash e) then Some e else getSubject id s)
  ∧ getSubject id (updateSubject e s)
    = (if decide (id = idHash e) then Some e else getSubject id s)
  ∧ (∀ id', getSubject id (removeSubject id' s).2
            = if decide (id = id') then None else getSubject id s)
  ∧ getSubject id (clear s) = None
  ∧ (hasSubject id s = true ↔ is_Some (getSubject id s))
  ∧ (e ∈ getAllSubjects s ↔ ∃ id', getSubject id' s = Some e).
Proof.
  unfold getSubject. split_and!.
  - rewrite addSubject_subjects, lookup_insert. by repeat case_decide.
  - rewrite updateSubject_subjects, lookup_insert. by repeat case_decide.
  - intros id'. destruct (subjects s !! id') as [e'|] eqn:E.
    + destruct (removeSubject_known _ _ _ E) as (_ & -> & _).
      rewrite lookup_delete. by repeat case_decide.
    + rewrite removeSubject_unknown by done. simpl. case_decide; congruence.
  - apply lookup_empty.
  - unfold hasSubject. apply bool_decide_eq_true.
  - apply elem_of_getAllSubjects.
Qed.

End entry_store.

Section substring_matching.

Lemma isPrefixOf_spec (p s : string) :
  JsString.isPrefixOf p s = true ↔ ∃ post, s = p +:+ post.
Proof.
  revert s. induction p as [|a p IH]; intros s; simpl.
  - split; [by exists s | done].
  - destruct s as [|b s]; [split; [done | by intros [? ?]] |].
    destruct (Ascii.eqb a b) eqn:Hab.
    + apply Ascii.eqb_eq in Hab as ->. rewrite IH. split.
      * intros [post ->]. by exists post.
      * intros [post [= ->]]. by exists post.
    + apply Ascii.eqb_neq in Hab. split; [done |]. intros [post [= ? _]]. done.
Qed.

Lemma includes_spec (s sub : string) :
  JsString.includes s sub = true ↔ occursIn sub s.
Proof.
  unfold occursIn. induction s as [|a s IH]; simpl.
  - rewrite orb_false_r, isPrefixOf_spec. split.
    + intros [post ->]. by exists "", post.
    + intros ([|? ?] & post & E); [by exists post | done].
  - rewrite orb_true_iff, isPrefixOf_spec, IH. split.
    + intros [[post ->]|(pre & post & ->)].
      * by exists "", post.
      * by exists (String a pre), post.
    + intros ([|b pre] & post & E).
      * left. by exists post.
      * right. injection E as -> ->. by exists pre, post.
Qed.

Lemma includes_empty (s : string) : JsString.includes s "" = true.
Proof. by destruct s. Qed.

Lemma includes_refl (s : string) : JsString.includes s s = true.
Proof.
  apply includes_spec. exists "", "".
  change ("" +:+ s +:+ "") with (s +:+ "").
  induction s as [|a s IH]; [done |].
  change (String a s +:+ "") with (String a (s +:+ "")). by rewrite <- IH.
Qed.

Lemma keywordMatches_spec (T : gset string) (k : string) :
  keywordMatches T k = true ↔ ∃ t, t ∈ T ∧ (occursIn k t ∨ occursIn t k).
Proof.
  unfold keywordMatches. rewrite orb_true_iff, bool_decide_eq_true, existsb_exists.
  split.
  - intros [Hk|(t & Ht & Hinc)].
    + exists k. split; [done |]. left. apply includes_spec, includes_refl.
    + exists t. split; [by apply elem_of_elements, list_elem_of_In |].
      apply orb_true_iff in Hinc as [?|?]; [left | right]; by apply includes_spec.
  - intros (t & Ht & Hocc). right. exists t.
    split; [by apply list_elem_of_In, elem_of_elements |].
    apply orb_true_iff. destruct Hocc; [left | right]; by apply includes_spec.
Qed.

(** The matching keywords of a subject are, each once, the search keywords
    that occur in one of the subject's keywords or in which one of those
    occurs; the exact matches are among them, and so is the empty search
    keyword whenever the subject has a keyword. *)
Theorem findMatchingKeywords_substrings (S T : gset string) :
  NoDup (findMatchingKeywords S T)
  ∧ (∀ k, k ∈ findMatchingKeywords S T ↔
          k ∈ S ∧ ∃ t, t ∈ T ∧ (occursIn k t ∨ occursIn t k))
  ∧ (∀ k, k ∈ S → k ∈ T → k ∈ findMatchingKeywords S T)
  ∧ ("" ∈ S → T ≠ ∅ → "" ∈ findMatchingKeywords S T).
Proof.
  assert (Hspec : ∀ k, k ∈ findMatchingKeywords S T ↔
                       k ∈ S ∧ ∃ t, t ∈ T ∧ (occursIn k t ∨ occursIn t k)).
  { intros k. by rewrite elem_of_findMatchingKeywords, keywordMatches_spec. }
  split_and!; [| done | apply findMatchingKeywords_exact |].
  - rewrite findMatchingKeywords_filter.
    apply NoDup_ListNoDup, List.NoDup_filter, NoDup_ListNoDup, NoDup_elements.
  - intros Hempty [t Ht]%set_choose_L. apply Hspec. split; [done |].
    exists t. split; [done |]. left. by exists "", t.
Qed.

Lemma findMatchingKeywords_substrings_witness :
  "" ∈ findMatchingKeywords {[""; "zebra"]} {["cat"]}.
Proof.
  destruct (findMatchingKeywords_substrings {[""; "zebra"]} {["cat"]})
    as (_ & _ & _ & Hempty).
  apply Hempty; [compute_done | done].
Defined.

End substring_matching.

(** * Further properties of the chat memory service *)

Section relevance.
Import ChatMemory.

Lemma overlap_size (A B : gset string) :
  set_fold (λ k n, if decide (k ∈ B) then S n else n) 0 A = size (A ∩ B).
Proof.
  pose (P := λ (n : nat) (X : gset string), n = size (X ∩ B)).
  change (P (set_fold (λ k n, if decide (k ∈ B) then S n else n) 0 A) A).
  apply set_fold_ind_L; unfold P; clear P.
  - by rewrite intersection_empty_l_L, size_empty.
  - intros x X r Hx ->. destruct (decide (x ∈ B)) as [HB|HB].
    + replace (({[x]} ∪ X) ∩ B) with ({[x]} ∪ X ∩ B) by set_solver.
      assert ({[x]} ## X ∩ B) as Hdisj by set_solver.
      by rewrite (size_union {[x]} (X ∩ B) Hdisj), size_singleton.
    + f_equal. set_solver.
Qed.

Lemma lowerSet_empty (keywords : list string) : lowerSet keywords = ∅ ↔ keywords = [].
Proof.
  unfold lowerSet. split; [| by intros ->].
  destruct keywords as [|k ks]; [done |]. simpl. set_solver.
Qed.

Lemma calculateRelevance_ratio (keywords1 keywords2 : list string) :
  (calculateRelevance keywords1 keywords2
   == calculateJaccardSimilarity (lowerSet keywords1) (lowerSet keywords2))%Q.
Proof.
  unfold calculateRelevance.
  destruct (length keywords1 =? 0) eqn:H1; simpl.
  - apply Nat.eqb_eq, length_zero_iff_nil in H1 as ->.
    symmetry. apply jaccard_zero. set_solver.
  - destruct (length keywords2 =? 0) eqn:H2.
    + apply Nat.eqb_eq, length_zero_iff_nil in H2 as ->.
      symmetry. apply jaccard_zero. set_solver.
    + rewrite overlap_size, jaccard_union. symmetry.
      apply calculateJaccardSimilarity_ratio.
Qed.

(** The relevance of a stored subject for a query is the Jaccard similarity,
    as the index computes it, of the two keyword lists taken as sets of lower
    case keywords: it does not depend on case, order or repetitions, is
    symmetric, lies between 0 and 1, is 1 exactly when the two sets are equal
    and not empty, and 0 exactly when they share no keyword. *)
Theorem calculateRelevance_jaccard (keywords1 keywords2 : list string) :
  (calculateRelevance keywords1 keywords2
   == calculateJaccardSimilarity (lowerSet keywords1) (lowerSet keywords2))%Q
  ∧ (∀ keywords1' keywords2',
       lowerSet keywords1' = lowerSet keywords1 →
       lowerSet keywords2' = lowerSet keywords2 →
       (calculateRelevance keywords1' keywords2'
        == calculateRelevance keywords1 keywords2)%Q)
  ∧ (calculateRelevance keywords1 keywords2
     == calculateRelevance keywords2 keywords1)%Q
  ∧ (0 <= calculateRelevance keywords1 keywords2 <= 1)%Q
  ∧ ((calculateRelevance keywords1 keywords2 == 1)%Q
     ↔ lowerSet keywords1 = lowerSet keywords2 ∧ keywords1 ≠ [])
  ∧ ((calculateRelevance keywords1 keywords2 == 0)%Q
     ↔ lowerSet keywords1 ## lowerSet keywords2).
Proof.
  split; [| split; [| split; [| split; [| split]]]].
  - apply calculateRelevance_ratio.
  - intros k1' k2' E1 E2. rewrite !calculateRelevance_ratio. by rewrite E1, E2.
  - rewrite !calculateRelevance_ratio, !calculateJaccardSimilarity_eq.
    by rewrite (comm_L (∪) (lowerSet keywords2)), (comm_L (∩) (lowerSet keywords2)).
  - rewrite calculateRelevance_ratio. apply jaccard_bounds.
  - rewrite calculateRelevance_ratio, jaccard_one. by rewrite lowerSet_empty.
  - rewrite calculateRelevance_ratio. apply jaccard_zero.
Qed.

End relevance.

Section keyword_metadata.
Import ChatMemory.

Lemma split_nonempty (sep : ascii) (s : string) : JsString.split sep s ≠ [].
Proof.
  induction s as [|c r IH]; simpl; [done |].
  destruct (Ascii.eqb c sep); [done |]. by destruct (JsString.split sep r).
Qed.

Lemma split_app (sep : ascii) (p r : string) :
  JsString.split sep (p +:+ String sep r) = JsString.split sep p ++ JsString.split sep r.
Proof.
  induction p as [|c p IH].
  - simpl. by rewrite Ascii.eqb_refl.
  - change (String c p +:+ String sep r) with (String c (p +:+ String sep r)).
    simpl. destruct (Ascii.eqb c sep); [by rewrite IH |].
    rewrite IH. pose proof (split_nonempty sep p) as Hne.
    by destruct (JsString.split sep p).
Qed.

Lemma split_join (sep : ascii) (parts : list string) :
  parts ≠ [] →
  JsString.split sep (JsString.join (String sep "") parts)
  = parts ≫= JsString.split sep.
Proof.
  induction parts as [|p [|q rest] IH]; [done | |]; intros _.
  - csimpl. by rewrite app_nil_r.
  - change (JsString.join (String sep "") (p :: q :: rest))
      with (p +:+ String sep (JsString.join (String sep "") (q :: rest))).
    rewrite split_app, IH by done. done.
Qed.

Lemma join_split (sep : ascii) (s : string) :
  JsString.join (String sep "") (JsString.split sep s) = s.
Proof.
  induction s as [|c r IH]; [done |]. simpl.
  pose proof (split_nonempty sep r) as Hne.
  destruct (Ascii.eqb c sep) eqn:Hc.
  - apply Ascii.eqb_eq in Hc as ->.
    destruct (JsString.split sep r) as [|p ps] eqn:E; [done |].
    by rewrite <- IH.
  - destruct (JsString.split sep r) as [|p [|q ps]] eqn:E; [done | |].
    + simpl in *. by rewrite IH.
    + rewrite <- IH. done.
Qed.

Lemma occursIn_char (c a : ascii) (s : string) :
  occursIn (String c "") (String a s) ↔ a = c ∨ occursIn (String c "") s.
Proof.
  unfold occursIn. split.
  - intros ([|b pre] & post & E).
    + injection E as -> _. by left.
    + injection E as -> ->. right. by exists pre, post.
  - intros [->|(pre & post & ->)].
    + by exists "", s.
    + by exists (String a pre), post.
Qed.

Lemma split_without_separator (sep : ascii) (s : string) :
  ¬ occursIn (String sep "") s → JsString.split sep s = [s].
Proof.
  induction s as [|c r IH]; [done |]. intros Hno. simpl.
  destruct (Ascii.eqb c sep) eqn:Hc.
  - apply Ascii.eqb_eq in Hc. destruct Hno. apply occursIn_char. by left.
  - rewrite IH; [done |]. intros Hr. apply Hno, occursIn_char. by right.
Qed.

Lemma join_empty (sep : ascii) (parts : list string) :
  JsString.join (String sep "") parts = "" ↔ parts = [] ∨ parts = [""].
Proof.
  split.
  - destruct parts as [|p [|q rest]]; [by left | simpl; intros ->; by right |].
    change (JsString.join (String sep "") (p :: q :: rest))
      with (p +:+ String sep (JsString.join (String sep "") (q :: rest))).
    by destruct p.
  - by intros [->| ->].
Qed.

(** The keyword list that [storeSubjectAsMemory] writes into the metadata is
    read back by [extractKeywordsFromSubject] as it was when no keyword holds
    a comma or has white space at an end, the list of the empty keyword alone
    excepted, which reads back as no keyword; in general each keyword comes
    back cut at its commas, the pieces trimmed. *)
Theorem stored_keywords_read_back (topic confidenceText extractedAt : string)
    (subject : ExtractedSubject) (stored : StoredSubject) :
  storedMetadata stored = Some (memoryMetadata topic subject confidenceText extractedAt) →
  (subjectKeywords subject = [] ∨ subjectKeywords subject = [""] →
   extractKeywordsFromSubject stored = [])
  ∧ (subjectKeywords subject ≠ [] → subjectKeywords subject ≠ [""] →
     extractKeywordsFromSubject stored
     = JsString.trim <$> (subjectKeywords subject ≫= JsString.split ","))
  ∧ (subjectKeywords subject ≠ [""] →
     Forall (λ k, ¬ occursIn "," k ∧ JsString.trim k = k) (subjectKeywords subject) →
     extractKeywordsFromSubject stored = subjectKeywords subject).
Proof.
  intros Hmeta.
  assert (Hread : extractKeywordsFromSubject stored
                  = if decide (JsString.join "," (subjectKeywords subject) = "") then []
                    else JsString.trim
                           <$> JsString.split "," (JsString.join "," (subjectKeywords subject))).
  { unfold extractKeywordsFromSubject. rewrite Hmeta. unfold memoryMetadata.
    destruct (decide (messageExcerpt subject = "")).
    - by rewrite !lookup_insert_ne, lookup_insert_eq by done.
    - by rewrite !lookup_insert_ne, lookup_insert_eq by done. }
  assert (Hgeneral : subjectKeywords subject ≠ [] → subjectKeywords subject ≠ [""] →
            extractKeywordsFromSubject stored
            = JsString.trim <$> (subjectKeywords subject ≫= JsString.split ",")).
  { intros Hne Hne'. rewrite Hread, decide_False.
    - by rewrite split_join.
    - intros Hj. apply (join_empty ",") in Hj as [?|?]; done. }
  split_and!; [| done |].
  - intros Hempty. apply (join_empty ",") in Hempty. by rewrite Hread, decide_True.
  - intros Hne' Hclean. destruct (decide (subjectKeywords subject = [])) as [He|Hne].
    + rewrite Hread, He. done.
    + rewrite Hgeneral by done. clear Hgeneral Hread Hne Hne' Hmeta.
      induction Hclean as [|k ks [Hcomma Htrim] _ IH]; [done |].
      rewrite bind_cons, fmap_app, split_without_separator, IH by done.
      change (JsString.trim <$> [k]) with [JsString.trim k]. by rewrite Htrim.
Qed.

Lemma stored_keywords_read_back_witness :
  extractKeywordsFromSubject
    (mkStored "rust cli" None
       (Some (memoryMetadata "topic"
                (mkSubject "rust cli" ["rust"; "cli tools"] (1 # 2) "" "text") "0.5" "17"))
       0 None)
  = ["rust"; "cli tools"]
  ∧ extractKeywordsFromSubject
      (mkStored "a" None
         (Some (memoryMetadata "topic" (mkSubject "a" ["a,b "; "c"] 1 "" "") "1" "17"))
         0 None)
    = ["a"; "b"; "c"].
Proof.
  split.
  - destruct (stored_keywords_read_back "topic" "0.5" "17"
                (mkSubject "rust cli" ["rust"; "cli tools"] (1 # 2) "" "text")
                (mkStored "rust cli" None
                   (Some (memoryMetadata "topic"
                            (mkSubject "rust cli" ["rust"; "cli tools"] (1 # 2) "" "text")
                            "0.5" "17"))
                   0 None))
      as (_ & _ & Hclean); [reflexivity |].
    apply Hclean; [done |].
    repeat constructor; try reflexivity; intros Hin%includes_spec; vm_compute in Hin; done.
  - destruct (stored_keywords_read_back "topic" "1" "17"
                (mkSubject "a" ["a,b "; "c"] 1 "" "")
                (mkStored "a" None
                   (Some (memoryMetadata "topic" (mkSubject "a" ["a,b "; "c"] 1 "" "")
                            "1" "17"))
                   0 None))
      as (_ & Hpieces & _); [reflexivity |].
    rewrite Hpieces; [reflexivity | done | done].
Defined.

End keyword_metadata.

Section related_memories.
Import ChatMemory.

Lemma insertMemory_Permutation x l : insertMemory x l ≡ₚ x :: l.
Proof.
  induction l as [|y l IH]; simpl; [done |].
  destruct (Qle_bool _ _); [done |]. by rewrite IH, Permutation_swap.
Qed.

Lemma sortMemories_Permutation l : sortMemories l ≡ₚ l.
Proof.
  induction l as [|x l IH]; simpl; [done |].
  by rewrite insertMemory_Permutation, IH.
Qed.

Lemma insertMemory_sorted x l :
  StronglySorted memoryNoHigher l → StronglySorted memoryNoHigher (insertMemory x l).
Proof.
  induction 1 as [|y l Hl IH Hy]; simpl.
  - by repeat constructor.
  - destruct (Qle_bool (relatedScore y - relatedScore x) 0) eqn:Hc.
    + apply Qle_bool_iff in Hc.
      constructor; [by constructor |]. constructor; [unfold memoryNoHigher; lra |].
      eapply Forall_impl; [exact Hy |]. intros z Hz.
      unfold memoryNoHigher in *. lra.
    + constructor; [done |].
      rewrite insertMemory_Permutation. constructor; [| done].
      unfold memoryNoHigher.
      destruct (Qlt_le_dec (relatedScore y) (relatedScore x)) as [Hlt|Hle]; [| done].
      assert (Qle_bool (relatedScore y - relatedScore x) 0 = true) as Habs
        by (apply Qle_bool_iff; lra).
      congruence.
Qed.

Lemma sortMemories_sorted l : StronglySorted memoryNoHigher (sortMemories l).
Proof.
  induction l as [|x l IH]; simpl; [constructor | by apply insertMemory_sorted].
Qed.

Lemma collectRelated_resolved store request ids acc :
  (∀ id, id ∈ ids → ∃ r, getSubject store id = inr r) →
  collectRelated store request ids acc = inr (acc ++ ids ≫= relatedFor store request).
Proof.
  revert acc. induction ids as [|id ids IH]; intros acc Hread; simpl.
  - by rewrite app_nil_r.
  - destruct (Hread id) as [r Hr]; [left |].
    assert (Hrest : ∀ id', id' ∈ ids → ∃ r, getSubject store id' = inr r)
      by (intros id' Hin; apply Hread; by right).
    unfold relatedFor at 1. rewrite Hr. destruct r as [subject|].
    + unfold relatedOf. destruct (Qle_bool _ _).
      * rewrite IH by done. by rewrite <- app_assoc.
      * by rewrite IH.
    + by rewrite IH.
Qed.

Lemma collectRelated_rejected store request ids acc id error :
  id ∈ ids → getSubject store id = inl error →
  ∃ error', collectRelated store request ids acc = inl error'.
Proof.
  revert acc. induction ids as [|id' ids IH]; intros acc Hin Herr; [by inversion Hin |].
  simpl. destruct (getSubject store id') as [e|[subject|]] eqn:Hr; [by exists e | |].
  - apply elem_of_cons in Hin as [->|Hin]; [congruence |].
    destruct (Qle_bool _ _); by apply IH.
  - apply elem_of_cons in Hin as [->|Hin]; [congruence |]. by apply IH.
Qed.

Lemma collectRelated_reads store request ids acc l :
  collectRelated store request ids acc = inr l →
  ∀ id, id ∈ ids → ∃ r, getSubject store id = inr r.
Proof.
  intros Hres id Hin. destruct (getSubject store id) as [error|r] eqn:Hr; [| by exists r].
  destruct (collectRelated_rejected store request ids acc id error Hin Hr) as [e He].
  congruence.
Qed.

Lemma elem_of_relatedFor store request id m :
  m ∈ relatedFor store request id ↔
  ∃ subject, getSubject store id = inr (Some subject)
             ∧ m = relatedOf request id subject
             ∧ (default (3 # 10) (minRelevance request) <= relatedScore m)%Q.
Proof.
  unfold relatedFor. split.
  - destruct (getSubject store id) as [e|[subject|]]; [by inversion 1 | | by inversion 1].
    destruct (Qle_bool _ _) eqn:Hle; [| by inversion 1].
    intros ->%list_elem_of_singleton. apply Qle_bool_iff in Hle. by exists subject.
  - intros (subject & -> & -> & Hle). apply Qle_bool_iff in Hle.
    simpl in Hle. rewrite Hle. by left.
Qed.

Lemma findRelatedMemories_resolved plan request resp :
  findRelatedMemories plan request = inr resp →
  ∃ store ids,
    plan = Some store ∧ listSubjects store = inr ids
    ∧ resp = mkFound
               (limitMemories (findLimit request)
                  (sortMemories (ids ≫= relatedFor store request)))
               (findKeywords request)
               (length (sortMemories (ids ≫= relatedFor store request))).
Proof.
  unfold findRelatedMemories. destruct plan as [store|]; [| done].
  destruct (listSubjects store) as [e|ids] eqn:Hids; [done |].
  destruct (collectRelated store request ids []) as [e|l] eqn:Hl; [done |].
  pose proof (collectRelated_reads _ _ _ _ _ Hl) as Hreads.
  rewrite (collectRelated_resolved _ _ _ [] Hreads) in Hl. injection Hl as <-.
  intros [= <-]. by exists store, ids.
Qed.

Lemma limitMemories_prefix limit l : limitMemories limit l `prefix_of` l.
Proof.
  unfold limitMemories. destruct limit as [n|]; [| done].
  destruct (n =? 0)%Z; [done | apply slice0_prefix].
Qed.

(** [findRelatedMemories] fails when the store is missing or a read throws.
    When every read succeeds it answers with the stored subjects whose
    relevance for the query is at least the minimum (0.3 when none is
    given), highest relevance first; it echoes the query, counts all of
    them in [totalFound], and returns the first [n] for a limit [n > 0],
    all but the last [-n] for a negative limit, and all of them when the
    limit is zero or absent. *)
Theorem findRelatedMemories_spec (plan : option SubjectStore)
    (request : FindRelatedMemoriesRequest) :
  (plan = None → findRelatedMemories plan request = inl "Memory plan not available")
  ∧ (∀ store ids, plan = Some store → listSubjects store = inr ids →
       ((∃ id error, id ∈ ids ∧ getSubject store id = inl error) →
        ∃ error, findRelatedMemories plan request = inl error)
       ∧ ((∀ id, id ∈ ids → ∃ r, getSubject store id = inr r) →
          ∃ found resp,
            findRelatedMemories plan request = inr resp
            ∧ (∀ m, m ∈ found ↔
                 ∃ id subject,
                   id ∈ ids ∧ getSubject store id = inr (Some subject)
                   ∧ m = relatedOf request id subject
                   ∧ (default (3 # 10) (minRelevance request) <= relatedScore m)%Q)
            ∧ StronglySorted memoryNoHigher found
            ∧ searchKeywords resp = findKeywords request
            ∧ totalFound resp = length found
            ∧ memories resp `prefix_of` found
            ∧ (findLimit request = None ∨ findLimit request = Some 0%Z →
               memories resp = found)
            ∧ (∀ n, findLimit request = Some n → (0 < n)%Z →
                 memories resp = take (Z.to_nat n) found)
            ∧ (∀ n, findLimit request = Some n → (n < 0)%Z →
                 memories resp = take (length found - Z.to_nat (- n)) found))).
Proof.
  split; [by intros -> |].
  intros store ids -> Hids. split.
  - intros (id & error & Hin & Herr). unfold findRelatedMemories. rewrite Hids.
    destruct (collectRelated_rejected store request ids [] id error Hin Herr) as [e ->].
    by exists e.
  - intros Hreads. exists (sortMemories (ids ≫= relatedFor store request)).
    eexists. unfold findRelatedMemories.
    rewrite Hids, (collectRelated_resolved _ _ _ [] Hreads). simpl.
    split; [reflexivity |]. simpl. split_and!; try done.
    + intros m. rewrite sortMemories_Permutation, list_elem_of_bind.
      setoid_rewrite elem_of_relatedFor. naive_solver.
    + apply sortMemories_sorted.
    + apply (limitMemories_prefix (findLimit request)).
    + by intros [-> | ->].
    + intros n -> Hn. destruct (n =? 0)%Z eqn:Hz; [lia |].
      apply slice0_nonneg. lia.
    + intros n -> Hn. destruct (n =? 0)%Z eqn:Hz; [lia |]. by apply slice0_negative.
Qed.

End related_memories.

Section handler.
Import ChatMemory.

Lemma calculateRelevance_bounds (keywords1 keywords2 : list string) :
  (0 <= calculateRelevance keywords1 keywords2 <= 1)%Q.
Proof. rewrite calculateRelevance_ratio. apply jaccard_bounds. Qed.

Lemma calculateRelevance_positive (keywords1 keywords2 : list string) :
  (0 < calculateRelevance keywords1 keywords2)%Q →
  ∃ k, k ∈ lowerSet keywords1 ∧ k ∈ lowerSet keywords2.
Proof.
  intros Hpos.
  destruct (decide (lowerSet keywords1 ∩ lowerSet keywords2 = ∅)) as [Hd|Hd].
  - assert (lowerSet keywords1 ## lowerSet keywords2) as Hdisj by set_solver.
    apply jaccard_zero in Hdisj. rewrite <- calculateRelevance_ratio in Hdisj. lra.
  - apply set_choose_L in Hd as [k Hk]. exists k. set_solver.
Qed.

(** What the handler's [findRelatedMemories] returns, with its minimum
    relevance of 0.3 and its limit of 10 when none is given: every memory
    scores between 0.3 and 1 and shares a keyword with the query, up to case;
    there are as many as the limit allows, a limit of zero allowing all; and
    a query without keywords finds nothing. *)
Theorem handler_findRelatedMemories_defaults (plan : option SubjectStore)
    (keywords : list string) (limit : option Z) (resp : FindRelatedMemoriesResponse) :
  ChatMemoryHandler.findRelatedMemories plan keywords limit = inr resp →
  (∀ m, m ∈ memories resp →
     (3 # 10 <= relatedScore m <= 1)%Q
     ∧ ∃ k, k ∈ lowerSet keywords ∧ k ∈ lowerSet (relatedKeywords m))
  ∧ (limit = None → length (memories resp) = 10 `min` totalFound resp)
  ∧ (∀ n, limit = Some n → (0 < n)%Z →
       length (memories resp) = Z.to_nat n `min` totalFound resp)
  ∧ (limit = Some 0%Z → length (memories resp) = totalFound resp)
  ∧ (keywords = [] → memories resp = [] ∧ totalFound resp = 0).
Proof.
  intros (store & ids & -> & Hids & ->)%findRelatedMemories_resolved. simpl.
  set (request := mkFind keywords (Some (default 10%Z limit)) (Some (3 # 10)%Q)).
  set (found := sortMemories (ids ≫= relatedFor store request)).
  assert (Hin : ∀ m, m ∈ found →
            ∃ id subject, m = relatedOf request id subject
                          ∧ (3 # 10 <= relatedScore m)%Q).
  { intros m. unfold found. rewrite sortMemories_Permutation, list_elem_of_bind.
    intros (id & (subject & _ & -> & Hle)%elem_of_relatedFor & _). by exists id, subject. }
  split_and!.
  - intros m Hm.
    assert (m ∈ found) as Hfound.
    { eapply elem_of_prefix; [exact Hm |].
      apply (limitMemories_prefix (Some (default 10%Z limit)) found). }
    destruct (Hin m Hfound) as (id & subject & -> & Hle). simpl in *.
    split.
    + split; [done | apply calculateRelevance_bounds].
    + apply calculateRelevance_positive. lra.
  - intros ->. simpl. by rewrite slice0_nonneg, length_take by lia.
  - intros n -> Hn. simpl. destruct (n =? 0)%Z eqn:Hz; [lia |].
    by rewrite slice0_nonneg, length_take by lia.
  - by intros ->.
  - intros ->.
    assert (found = []) as ->.
    2: { split; [| done].
         destruct (default 10%Z limit =? 0)%Z; [done |].
         apply prefix_nil_inv, slice0_prefix. }
    apply elem_of_nil_inv. intros m Hm.
    destruct (Hin m Hm) as (id & subject & -> & Hle).
    vm_compute in Hle. done.
Qed.

Lemma handler_findRelatedMemories_defaults_witness :
  ∃ resp,
    ChatMemoryHandler.findRelatedMemories (Some exampleStore) ["rust"] (Some 0%Z) = inr resp
    ∧ length (memories resp) = totalFound resp.
Proof.
  destruct (ChatMemoryHandler.findRelatedMemories (Some exampleStore) ["rust"] (Some 0%Z))
    as [error|resp] eqn:E; [by vm_compute in E |].
  exists resp. split; [done |].
  destruct (handler_findRelatedMemories_defaults _ _ _ _ E) as (_ & _ & _ & Hzero & _).
  by apply Hzero.
Defined.

Lemma disableMemories_lookup topic topic' svc :
  getConfig topic' (disableMemories topic svc)
  = if decide (topic' = topic)
    then (λ config, mkConfig (topicId config) false (autoExtract config)
                      (updateInterval config) (minConfidence config)
                      (trackedKeywords config)) <$> getConfig topic svc
    else getConfig topic' svc.
Proof.
  unfold disableMemories, getConfig.
  destruct (configs svc !! topic) as [config|] eqn:E; simpl.
  - destruct (decide (topic' = topic)) as [->|Hne].
    + by rewrite lookup_insert_eq.
    + by rewrite lookup_insert_ne.
  - destruct (decide (topic' = topic)) as [->|Hne]; [by rewrite E | done].
Qed.

(** The handler's toggle reports the new state and flips it, leaving the
    other topics alone.  Switching off keeps the settings of the topic and
    makes every extraction for it fail with no call made; switching on
    installs the default settings, whatever was configured before. *)
Theorem toggleMemories_spec (topic : string) (svc : Service) :
  (ChatMemoryHandler.toggleMemories topic svc).1 = negb (isEnabled topic svc)
  ∧ isEnabled topic (ChatMemoryHandler.toggleMemories topic svc).2
    = negb (isEnabled topic svc)
  ∧ (∀ topic', topic' ≠ topic →
       getConfig topic' (ChatMemoryHandler.toggleMemories topic svc).2
       = getConfig topic' svc)
  ∧ (isEnabled topic svc = true →
     (∃ config,
        getConfig topic svc = Some config
        ∧ getConfig topic (ChatMemoryHandler.toggleMemories topic svc).2
          = Some (mkConfig (topicId config) false (autoExtract config)
                    (updateInterval config) (minConfidence config)
                    (trackedKeywords config)))
     ∧ ∀ request startTime endTime,
         requestTopicId request = topic →
         extractAndStoreSubjects (ChatMemoryHandler.toggleMemories topic svc).2
           request startTime endTime
         = (Rejected ("Memories not enabled for topic: " +:+ topic), []))
  ∧ (isEnabled topic svc = false →
     getConfig topic (ChatMemoryHandler.toggleMemories topic svc).2
     = Some (mkConfig topic true true (Some 60000%Z) (Some (1 # 2)%Q) (Some []))).
Proof.
  unfold ChatMemoryHandler.toggleMemories, ChatMemoryHandler.disableMemories,
    ChatMemoryHandler.enableMemories.
  assert (Hoff : isEnabled topic (disableMemories topic svc) = false).
  { pose proof (disableMemories_lookup topic topic svc) as Hl.
    rewrite decide_True in Hl by done. unfold isEnabled, getConfig in *.
    rewrite Hl. by destruct (configs svc !! topic). }
  destruct (isEnabled topic svc) eqn:Hon; simpl.
  - split_and!; [done | done | | | done].
    + intros topic' Hne. by rewrite disableMemories_lookup, decide_False.
    + intros _. split.
      * unfold isEnabled in Hon. rewrite disableMemories_lookup, decide_True by done.
        unfold getConfig. destruct (configs svc !! topic) as [config|]; [| done].
        by exists config.
      * intros request startTime endTime <-. unfold extractAndStoreSubjects.
        by rewrite Hoff.
  - split_and!; [done | | | done |].
    + unfold isEnabled, enableMemories. simpl. by rewrite lookup_insert_eq.
    + intros topic' Hne. unfold getConfig, enableMemories. simpl.
      by rewrite lookup_insert_ne.
    + intros _. unfold getConfig, enableMemories. simpl. by rewrite lookup_insert_eq.
Qed.

End handler.

(** * Properties of the subject identifiers *)

Section chat_scoped_ids.
Import SubjectMigration.

Lemma split_head (sep : ascii) (s t : string) (ps : list string) :
  JsString.split sep s = t :: ps → ¬ occursIn (String sep "") t.
Proof.
  revert t ps. induction s as [|c r IH]; intros t ps; simpl.
  - intros [= <- <-]. intros ([|? ?] & ? & ?); done.
  - destruct (Ascii.eqb c sep) eqn:Hc.
    + intros [= <- <-]. intros ([|? ?] & ? & ?); done.
    + apply Ascii.eqb_neq in Hc.
      destruct (JsString.split sep r) as [|p ps'] eqn:E; [intros [= <- <-] |].
      * intros [?|([|? ?] & ? & ?)]%occursIn_char; done.
      * intros [= <- <-]. intros [?|Hp]%occursIn_char; [done |].
        by apply (IH p ps').
Qed.

Lemma append_assoc (a b c : string) : (a +:+ b) +:+ c = a +:+ b +:+ c.
Proof.
  induction a as [|x a IH]; [done |].
  change (String x ((a +:+ b) +:+ c) = String x (a +:+ b +:+ c)). by rewrite IH.
Qed.

Lemma split_chat_scoped (topic name : string) :
  ¬ occursIn "-" topic →
  JsString.split "-" ("chat-" +:+ topic +:+ "-" +:+ name)
  = "chat" :: topic :: JsString.split "-" name.
Proof.
  intros Hno.
  change ("chat-" +:+ topic +:+ "-" +:+ name)
    with ("chat" +:+ String "-" (topic +:+ String "-" name)).
  rewrite !split_app. by rewrite (split_without_separator "-" topic).
Qed.

Lemma parse_built (topic name : string) :
  topic ≠ "" → ¬ occursIn "-" topic → name ≠ "" →
  parseChatScopedId ("chat-" +:+ topic +:+ "-" +:+ name) = Some (topic, name).
Proof.
  intros Ht Hno Hn. unfold parseChatScopedId, isChatScopedSubjectId.
  rewrite split_chat_scoped by done.
  pose proof (split_nonempty "-" name) as Hne.
  pose proof (join_split "-" name) as Hjoin.
  set (parts := JsString.split "-" name) in *.
  assert ((3 <=? length ("chat" :: topic :: parts)) = true) as ->
    by (by destruct parts).
  change (JsString.isPrefixOf "chat-" ("chat-" +:+ topic +:+ "-" +:+ name)) with true.
  change (drop 2 ("chat" :: topic :: parts)) with parts.
  change (("chat" :: topic :: parts) !! 1) with (Some topic).
  change (JsString.join "-" parts) with (JsString.join (String "-" "") parts).
  rewrite Hjoin. simpl. by rewrite !decide_False.
Qed.

Lemma parse_sound (id topic name : string) :
  parseChatScopedId id = Some (topic, name) →
  id = "chat-" +:+ topic +:+ "-" +:+ name
  ∧ topic ≠ "" ∧ ¬ occursIn "-" topic ∧ name ≠ "".
Proof.
  unfold parseChatScopedId, isChatScopedSubjectId.
  destruct (JsString.isPrefixOf "chat-" id) eqn:Hpre; [| done]. simpl.
  apply isPrefixOf_spec in Hpre as [rest ->].
  change ("chat-" +:+ rest) with ("chat" +:+ String "-" rest).
  rewrite split_app.
  change (JsString.split "-" "chat") with ["chat"].
  pose proof (join_split "-" rest) as Hjoin.
  destruct (JsString.split "-" rest) as [|t [|q qs]] eqn:E;
    [by destruct (split_nonempty "-" rest) | done |].
  cbn -[JsString.join].
  destruct (decide (t = "")); [done |].
  destruct (decide (JsString.join "-" (q :: qs) = "")) as [|Hname]; [done |].
  intros [= <- <-]. split_and!; [| done | by apply (split_head "-" rest t (q :: qs)) | done].
  by rewrite <- Hjoin.
Qed.

(** A chat-scoped identifier parses to the topic and the name it was built
    from exactly when the topic is not empty and holds no hyphen and the
    name is not empty: such identifiers parse back, every parsed identifier
    is such a one, and a topic with a hyphen is cut at its first hyphen, the
    rest going to the name. *)
Theorem parseChatScopedId_roundtrip :
  (∀ topic name,
     topic ≠ "" → ¬ occursIn "-" topic → name ≠ "" →
     parseChatScopedId ("chat-" +:+ topic +:+ "-" +:+ name) = Some (topic, name))
  ∧ (∀ id topic name,
       parseChatScopedId id = Some (topic, name) →
       id = "chat-" +:+ topic +:+ "-" +:+ name
       ∧ topic ≠ "" ∧ ¬ occursIn "-" topic ∧ name ≠ "")
  ∧ (∀ head rest name,
       head ≠ "" → ¬ occursIn "-" head →
       parseChatScopedId ("chat-" +:+ (head +:+ "-" +:+ rest) +:+ "-" +:+ name)
       = Some (head, rest +:+ "-" +:+ name))
  ∧ (∀ id, isChatScopedSubjectId id = true ↔
           ∃ first rest, id = "chat-" +:+ first +:+ "-" +:+ rest).
Proof.
  split_and!.
  - apply parse_built.
  - apply parse_sound.
  - intros head rest name Hne Hno.
    rewrite (append_assoc head), (append_assoc "-" rest).
    apply parse_built; [done | done |]. by destruct rest.
  - intros id. unfold isChatScopedSubjectId. rewrite andb_true_iff, isPrefixOf_spec.
    split.
    + intros [[tail ->] Hlen].
      change ("chat-" +:+ tail) with ("chat" +:+ String "-" tail) in Hlen.
      rewrite split_app in Hlen.
      change (JsString.split "-" "chat") with ["chat"] in Hlen.
      pose proof (join_split "-" tail) as Hjoin.
      destruct (JsString.split "-" tail) as [|t [|q qs]]; [done | done |].
      exists t, (JsString.join "-" (q :: qs)). by rewrite <- Hjoin.
    + intros (first & rest & ->). split; [by exists (first +:+ "-" +:+ rest) |].
      change ("chat-" +:+ first +:+ "-" +:+ rest)
        with ("chat" +:+ String "-" (first +:+ String "-" rest)).
      rewrite !split_app. rewrite !length_app.
      pose proof (split_nonempty "-" first). pose proof (split_nonempty "-" rest).
      destruct (JsString.split "-" first), (JsString.split "-" rest); try done.
      apply Nat.leb_le. simpl. lia.
Qed.

End chat_scoped_ids.

Section global_ids.
Import SubjectMigration.

Lemma lowerChar_idempotent c : JsString.lowerChar (JsString.lowerChar c) = JsString.lowerChar c.
Proof. by destruct c as [[] [] [] [] [] [] [] []]; vm_compute. Qed.

Lemma lowerChar_whitespace c :
  JsString.isWhitespace (JsString.lowerChar c) = JsString.isWhitespace c.
Proof. by destruct c as [[] [] [] [] [] [] [] []]; vm_compute. Qed.

Lemma isHyphen_eqb c : Ascii.eqb "-" c = JsString.isHyphen c.
Proof. by destruct c as [[] [] [] [] [] [] [] []]; vm_compute. Qed.

Lemma isHyphen_eq c : JsString.isHyphen c = true → c = "-"%char.
Proof. rewrite <- isHyphen_eqb. intros H. symmetry. by apply Ascii.eqb_eq. Qed.

Lemma whitespace_not_hyphen c :
  JsString.isWhitespace c = true → JsString.isHyphen c = false.
Proof. by destruct c as [[] [] [] [] [] [] [] []]; vm_compute. Qed.

Lemma whitespace_special c :
  JsString.isWhitespace c = true →
  JsString.isWordChar c || JsString.isWhitespace c || JsString.isHyphen c = true.
Proof. intros ->. by rewrite orb_true_r. Qed.

Lemma idChar_of_lowered c :
  JsString.isWordChar (JsString.lowerChar c) || JsString.isWhitespace (JsString.lowerChar c)
  || JsString.isHyphen (JsString.lowerChar c) = true →
  isSeparator (JsString.lowerChar c) = false →
  isIdChar (JsString.lowerChar c) = true.
Proof. by destruct c as [[] [] [] [] [] [] [] []]; vm_compute. Qed.

Lemma idChar_not_whitespace c : isIdChar c = true → JsString.isWhitespace c = false.
Proof. by destruct c as [[] [] [] [] [] [] [] []]; vm_compute. Qed.

Lemma toLowerCase_idempotent s :
  JsString.toLowerCase (JsString.toLowerCase s) = JsString.toLowerCase s.
Proof.
  induction s as [|c r IH]; simpl; [done |]. by rewrite lowerChar_idempotent, IH.
Qed.

Lemma toLowerCase_replaceRuns b s :
  JsString.toLowerCase (JsString.replaceRunsFrom JsString.isWhitespace b s)
  = JsString.replaceRunsFrom JsString.isWhitespace b (JsString.toLowerCase s).
Proof.
  revert b. induction s as [|c r IH]; intros b; simpl; [done |].
  rewrite lowerChar_whitespace. destruct (JsString.isWhitespace c).
  - destruct b; simpl; by rewrite IH.
  - simpl. by rewrite IH.
Qed.

Lemma replaceRunsFrom_cons (p : ascii → bool) b c s :
  JsString.replaceRunsFrom p b (String c s)
  = if p c
    then if b then JsString.replaceRunsFrom p true s
         else String "-" (JsString.replaceRunsFrom p true s)
    else String c (JsString.replaceRunsFrom p false s).
Proof. reflexivity. Qed.

Lemma removeSpecial_cons c s :
  JsString.removeSpecial (String c s)
  = if JsString.isWordChar c || JsString.isWhitespace c || JsString.isHyphen c
    then String c (JsString.removeSpecial s)
    else JsString.removeSpecial s.
Proof. reflexivity. Qed.

Lemma isSeparator_hyphen : isSeparator "-" = true.
Proof. reflexivity. Qed.

(** Runs of white space made hyphens, then runs of hyphens made one: the
    runs of separators made one hyphen each. *)
Lemma collapse_runs z b1 b2 :
  (b2 = true → b1 = true) →
  JsString.replaceRunsFrom JsString.isHyphen b1
    (JsString.replaceRunsFrom JsString.isWhitespace b2 z)
  = JsString.replaceRunsFrom isSeparator b1 z.
Proof.
  revert b1 b2. induction z as [|c z IH]; intros b1 b2 Hb; [done |].
  rewrite (replaceRunsFrom_cons JsString.isWhitespace),
    (replaceRunsFrom_cons isSeparator).
  unfold isSeparator at 1.
  destruct (JsString.isWhitespace c) eqn:Hw.
  - rewrite orb_true_l. destruct b2.
    + rewrite Hb by done. by apply IH.
    + rewrite replaceRunsFrom_cons. change (JsString.isHyphen "-") with true.
      destruct b1; by rewrite (IH true true).
  - rewrite orb_false_l, replaceRunsFrom_cons.
    destruct (JsString.isHyphen c) eqn:Hh.
    + destruct b1; by rewrite (IH true false).
    + by rewrite (IH false false).
Qed.

(** The same when the special characters go only after the white space
    has been made hyphens, as for a name that went through [memoryId]. *)
Lemma collapse_runs_special y b1 b2 :
  (b2 = true → b1 = true) →
  JsString.replaceRunsFrom JsString.isHyphen b1
    (JsString.removeSpecial (JsString.replaceRunsFrom JsString.isWhitespace b2 y))
  = JsString.replaceRunsFrom isSeparator b1 (JsString.removeSpecial y).
Proof.
  revert b1 b2. induction y as [|c y IH]; intros b1 b2 Hb; [done |].
  rewrite (replaceRunsFrom_cons JsString.isWhitespace), (removeSpecial_cons c y).
  destruct (JsString.isWhitespace c) eqn:Hw.
  - rewrite orb_true_r, orb_true_l, (replaceRunsFrom_cons isSeparator).
    unfold isSeparator at 1. rewrite Hw, orb_true_l.
    destruct b2.
    + rewrite Hb by done. by apply IH.
    + rewrite removeSpecial_cons. change (JsString.isHyphen "-") with true.
      rewrite orb_true_r, replaceRunsFrom_cons.
      change (JsString.isHyphen "-") with true.
      destruct b1; by rewrite (IH true true).
  - rewrite removeSpecial_cons, Hw, orb_false_r.
    destruct (JsString.isWordChar c || JsString.isHyphen c) eqn:Hk;
      [| by apply IH].
    rewrite replaceRunsFrom_cons, (replaceRunsFrom_cons isSeparator).
    unfold isSeparator at 1. rewrite Hw, orb_false_l.
    destruct (JsString.isHyphen c) eqn:Hh.
    + destruct b1; by rewrite (IH true false).
    + by rewrite (IH false false).
Qed.

Lemma replaceRuns_whitespace_fixed y b b2 :
  JsString.replaceRunsFrom JsString.isWhitespace b
    (JsString.removeSpecial (JsString.replaceRunsFrom JsString.isWhitespace b2 y))
  = JsString.removeSpecial (JsString.replaceRunsFrom JsString.isWhitespace b2 y).
Proof.
  revert b b2. induction y as [|c y IH]; intros b b2; [done |].
  rewrite (replaceRunsFrom_cons JsString.isWhitespace b2).
  destruct (JsString.isWhitespace c) eqn:Hw.
  - destruct b2; [by apply IH |].
    rewrite removeSpecial_cons. change (JsString.isHyphen "-") with true.
    rewrite orb_true_r, replaceRunsFrom_cons.
    change (JsString.isWhitespace "-") with false. by rewrite !IH.
  - rewrite removeSpecial_cons, Hw, orb_false_r.
    destruct (JsString.isWordChar c || JsString.isHyphen c); [| by apply IH].
    by rewrite replaceRunsFrom_cons, Hw, IH.
Qed.

Lemma replaceRunsFrom_chars (p : ascii → bool) b s c :
  c ∈ String.list_ascii_of_string (JsString.replaceRunsFrom p b s) →
  c = "-"%char ∨ (c ∈ String.list_ascii_of_string s ∧ p c = false).
Proof.
  revert b. induction s as [|a s IH]; intros b; simpl; [by inversion 1 |].
  destruct (p a) eqn:Ha.
  - destruct b; simpl.
    + intros [?|[? ?]]%IH; [by left | right; split; [by right | done]].
    + intros [->|[?|[? ?]]%IH]%elem_of_cons;
        [by left | by left | right; split; [by right | done]].
  - simpl. intros [->|[?|[? ?]]%IH]%elem_of_cons.
    + right. split; [by left | done].
    + by left.
    + right. split; [by right | done].
Qed.

Lemma removeSpecial_chars s c :
  c ∈ String.list_ascii_of_string (JsString.removeSpecial s) →
  c ∈ String.list_ascii_of_string s
  ∧ JsString.isWordChar c || JsString.isWhitespace c || JsString.isHyphen c = true.
Proof.
  induction s as [|a s IH]; simpl; [by inversion 1 |].
  destruct (JsString.isWordChar a || JsString.isWhitespace a || JsString.isHyphen a) eqn:Ha.
  - simpl. intros [->|[? ?]%IH]%elem_of_cons; [split; [by left | done] |].
    split; [by right | done].
  - intros [? ?]%IH. split; [by right | done].
Qed.

Lemma includes_double_hyphen a r :
  JsString.includes (String a r) "--"
  = (if Ascii.eqb "-" a then JsString.isPrefixOf "-" r else false)
    || JsString.includes r "--".
Proof. reflexivity. Qed.

Lemma isPrefixOf_hyphen a r :
  JsString.isPrefixOf "-" (String a r) = Ascii.eqb "-" a.
Proof.
  change (JsString.isPrefixOf "-" (String a r))
    with (if Ascii.eqb "-" a then true else false).
  by destruct (Ascii.eqb "-" a).
Qed.

Lemma collapsed_no_double_hyphen (p : ascii → bool) b s :
  (∀ c, p c = false → JsString.isHyphen c = false) →
  JsString.includes (JsString.replaceRunsFrom p b s) "--" = false
  ∧ (b = true → JsString.isPrefixOf "-" (JsString.replaceRunsFrom p b s) = false).
Proof.
  intros Hp. revert b. induction s as [|c s IH]; intros b; [done |].
  rewrite replaceRunsFrom_cons. destruct (p c) eqn:Hc.
  - destruct b; [by apply IH |]. destruct (IH true) as [Hin Hpre].
    split; [| done]. rewrite includes_double_hyphen, Hin, Hpre by done.
    by destruct (Ascii.eqb "-" "-").
  - destruct (IH false) as [Hin _].
    rewrite includes_double_hyphen, isPrefixOf_hyphen, isHyphen_eqb, (Hp c Hc).
    by rewrite Hin.
Qed.

Lemma trim_fixed s :
  (∀ c, c ∈ String.list_ascii_of_string s → JsString.isWhitespace c = false) →
  JsString.trim s = s.
Proof.
  intros Hall. unfold JsString.trim.
  rewrite trimStart_fixed.
  - apply trimEnd_fixed. intros c Hc. apply Hall. by apply last_Some_elem_of.
  - intros c Hc. apply Hall. by apply head_Some_elem_of.
Qed.

Lemma normalized_chars name c :
  c ∈ String.list_ascii_of_string
        (JsString.replaceRunsFrom isSeparator false
           (JsString.removeSpecial (JsString.toLowerCase name))) →
  isIdChar c = true.
Proof.
  intros [->|[[Hin Hk]%removeSpecial_chars Hsep]]%replaceRunsFrom_chars; [done |].
  rewrite toLowerCase_chars in Hin.
  apply list_elem_of_In, in_map_iff in Hin as (c0 & <- & _).
  by apply idChar_of_lowered.
Qed.

Lemma generateGlobalSubjectId_eq name :
  generateGlobalSubjectId name
  = "subject-" +:+ JsString.replaceRuns isSeparator
                     (JsString.removeSpecial (JsString.toLowerCase name)).
Proof.
  unfold generateGlobalSubjectId, JsString.replaceRuns.
  rewrite (collapse_runs _ false false) by done.
  rewrite trim_fixed; [done |].
  intros c Hc. by apply idChar_not_whitespace, (normalized_chars name).
Qed.

Lemma generateGlobalSubjectId_slug name :
  generateGlobalSubjectId
    (JsString.replaceRuns JsString.isWhitespace (JsString.toLowerCase name))
  = generateGlobalSubjectId name.
Proof.
  rewrite (generateGlobalSubjectId_eq name).
  unfold generateGlobalSubjectId, JsString.replaceRuns.
  rewrite toLowerCase_replaceRuns, toLowerCase_idempotent.
  rewrite replaceRuns_whitespace_fixed, (collapse_runs_special _ false false) by done.
  rewrite trim_fixed; [done |].
  intros c Hc. by apply idChar_not_whitespace, (normalized_chars name).
Qed.

(** The global identifier of a name is [subject-] followed by the name in
    lower case, without the characters that are neither letters, digits,
    underscores, white space nor hyphens, and with every run of white space
    and hyphens made one hyphen; the final [trim] removes nothing.  So the
    part after the prefix consists of lower case letters, digits,
    underscores and hyphens, with no two hyphens in a row; and a name gets
    the identifier of its lower case form and of the form [memoryId] puts
    in a chat-scoped identifier. *)
Theorem generateGlobalSubjectId_spec (name : string) :
  ∃ normalized,
    generateGlobalSubjectId name = "subject-" +:+ normalized
    ∧ normalized = JsString.replaceRuns isSeparator
                     (JsString.removeSpecial (JsString.toLowerCase name))
    ∧ Forall (λ c, isIdChar c = true) (String.list_ascii_of_string normalized)
    ∧ ¬ occursIn "--" normalized
    ∧ generateGlobalSubjectId (JsString.toLowerCase name) = generateGlobalSubjectId name
    ∧ generateGlobalSubjectId
        (JsString.replaceRuns JsString.isWhitespace (JsString.toLowerCase name))
      = generateGlobalSubjectId name.
Proof.
  eexists. split; [apply generateGlobalSubjectId_eq |]. split_and!.
  - done.
  - apply Forall_forall. intros c Hc. by apply (normalized_chars name).
  - rewrite <- includes_spec.
    destruct (collapsed_no_double_hyphen isSeparator false
                (JsString.removeSpecial (JsString.toLowerCase name))) as [Hno _].
    + intros c Hc. unfold isSeparator in Hc. by apply orb_false_iff in Hc as [_ ?].
    + unfold JsString.replaceRuns. by rewrite Hno.
  - by rewrite !generateGlobalSubjectId_eq, toLowerCase_idempotent.
  - apply generateGlobalSubjectId_slug.
Qed.

Example generateGlobalSubjectId_example :
  generateGlobalSubjectId "Project  Lama!" = "subject-project-lama"
  ∧ generateGlobalSubjectId " C++ -- notes " = "subject--c-notes-".
Proof. split; reflexivity. Qed.

End global_ids.

Section chat_to_global.
Import SubjectMigration ChatMemory.

Lemma replaceRuns_nonempty (p : ascii → bool) s :
  s ≠ "" → JsString.replaceRuns p s ≠ "".
Proof.
  destruct s as [|c s]; [done |]. intros _. unfold JsString.replaceRuns.
  rewrite replaceRunsFrom_cons. by destruct (p c).
Qed.

Lemma toLowerCase_nonempty s : s ≠ "" → JsString.toLowerCase s ≠ "".
Proof. by destruct s. Qed.

Lemma globalIdOf_built (topic name : string) :
  topic ≠ "" → ¬ occursIn "-" topic → name ≠ "" →
  globalIdOf ("chat-" +:+ topic +:+ "-" +:+ name)
  = (generateGlobalSubjectId name, Some topic).
Proof.
  intros Ht Hno Hn. pose proof (parse_built topic name Ht Hno Hn) as Hparse.
  unfold globalIdOf. rewrite Hparse.
  unfold parseChatScopedId in Hparse.
  by destruct (isChatScopedSubjectId ("chat-" +:+ topic +:+ "-" +:+ name)).
Qed.

Lemma generateGlobalSubjectId_lower name :
  generateGlobalSubjectId (JsString.toLowerCase name) = generateGlobalSubjectId name.
Proof. by rewrite !generateGlobalSubjectId_eq, toLowerCase_idempotent. Qed.

(** A subject that the chat service stores for a topic is filed by the
    store under the global identifier of its name and with the topic as its
    source, when the topic is not empty and holds no hyphen: the identifier
    does not depend on the topic, nor on the case of the name.  A topic
    that holds a hyphen is cut at the first one: the source is the part
    before it, and the rest goes into the identifier. *)
Theorem chat_subject_global_id (topic : string) (subject : ExtractedSubject) :
  topic ≠ "" → ¬ occursIn "-" topic → subjectName subject ≠ "" →
  globalIdOf (memoryId topic subject)
  = (generateGlobalSubjectId (subjectName subject), Some topic)
  ∧ (∀ topic' subject',
       topic' ≠ "" → ¬ occursIn "-" topic' →
       JsString.toLowerCase (subjectName subject')
       = JsString.toLowerCase (subjectName subject) →
       (globalIdOf (memoryId topic' subject')).1 = (globalIdOf (memoryId topic subject)).1)
  ∧ (∀ rest,
       globalIdOf (memoryId (topic +:+ "-" +:+ rest) subject)
       = (generateGlobalSubjectId
            (rest +:+ "-"
             +:+ JsString.replaceRuns JsString.isWhitespace
                   (JsString.toLowerCase (subjectName subject))),
          Some topic)).
Proof.
  intros Ht Hno Hn.
  assert (Hbuilt : ∀ t s, t ≠ "" → ¬ occursIn "-" t → subjectName s ≠ "" →
            globalIdOf (memoryId t s) = (generateGlobalSubjectId (subjectName s), Some t)).
  { intros t s Ht' Hno' Hn'. unfold memoryId.
    rewrite globalIdOf_built; [| done | done |].
    - by rewrite generateGlobalSubjectId_slug.
    - by apply replaceRuns_nonempty, toLowerCase_nonempty. }
  split_and!.
  - by apply Hbuilt.
  - intros topic' subject' Ht' Hno' Hsame.
    assert (subjectName subject' ≠ "") as Hn'.
    { intros He. rewrite He in Hsame. by destruct (subjectName subject). }
    rewrite !Hbuilt by done. simpl.
    by rewrite <- (generateGlobalSubjectId_lower (subjectName subject')), Hsame,
      generateGlobalSubjectId_lower.
  - intros rest. unfold memoryId.
    rewrite (append_assoc topic), (append_assoc "-" rest).
    apply globalIdOf_built; [done | done |]. by destruct rest.
Qed.

Lemma chat_subject_global_id_witness :
  globalIdOf (memoryId "abc123" (mkSubject "Project  Lama" ["project"] 1 "" ""))
  = ("subject-project-lama", Some "abc123")
  ∧ globalIdOf (memoryId "abc-123" (mkSubject "Project  Lama" ["project"] 1 "" ""))
    = ("subject-123-project-lama", Some "abc").
Proof.
  assert (¬ occursIn "-" "abc123") as Hno
    by (intros Hin%includes_spec; by vm_compute in Hin).
  assert (¬ occursIn "-" "abc") as Hno'
    by (intros Hin%includes_spec; by vm_compute in Hin).
  split.
  - destruct (chat_subject_global_id "abc123"
                (mkSubject "Project  Lama" ["project"] 1 "" "")) as (-> & _);
      [done | done | done | reflexivity].
  - destruct (chat_subject_global_id "abc"
                (mkSubject "Project  Lama" ["project"] 1 "" "")) as (_ & _ & Hcut);
      [done | done | done |].
    etrans; [exact (Hcut "123") | reflexivity].
Defined.

End chat_to_global.

(** * Properties of the subject memory plan *)

Lemma findSimilar_unfold (kws : list string) (limit : option Z) (s : SubjectIndex) :
  findSimilar kws limit s = slice0 (default 10%Z limit) (findByKeywords kws s).
Proof. reflexivity. Qed.

Section plan_search.
Import SubjectMemoryPlan.

Lemma filter_all {A} (P : A → Prop) `{∀ x, Decision (P x)} (l : list A) :
  Forall P l → filter P l = l.
Proof.
  induction 1 as [|x l Hx _ IH]; [done |].
  by rewrite filter_cons, decide_True, IH.
Qed.

Lemma take_filter_other {A B} (f : A → B) `{EqDecision B} (x : B) (l : list A) n :
  NoDup (f <$> l) →
  take n (filter (λ m, f m ≠ x) (take (S n) l)) = take n (filter (λ m, f m ≠ x) l).
Proof.
  revert n. induction l as [|a l IH]; intros n Hnd; [done |].
  rewrite fmap_cons in Hnd. apply NoDup_cons in Hnd as [Ha Hnd].
  rewrite firstn_cons, !filter_cons.
  destruct (decide (f a ≠ x)) as [Hne|Heq].
  - destruct n as [|n]; [done |]. simpl. by rewrite IH.
  - assert (f a = x) as Hx by (by destruct (decide (f a = x))).
    assert (Forall (λ m, f m ≠ x) l) as Hall.
    { apply Forall_forall. intros m Hm He. apply Ha. rewrite Hx, <- He.
      by apply list_elem_of_fmap_2. }
    rewrite (filter_all _ l Hall).
    rewrite (filter_all _ (take n l)) by (by apply Forall_take).
    by rewrite take_take, Nat.min_id.
Qed.

Lemma findByKeywords_ids (kws : list string) (s : SubjectIndex) :
  consistent s → NoDup (matchIdHash <$> findByKeywords kws s).
Proof.
  intros Hs. unfold findByKeywords. simpl.
  rewrite sortMatches_Permutation, scoreCandidates_bind.
  apply candidateMatch_ids; [done | apply NoDup_elements].
Qed.

Lemma getSubject_spec (storage : Storage) (idHash : string) (plan : Plan) r plan' :
  getSubject storage idHash plan = (inr r, plan') →
  r = visible storage plan idHash
  ∧ index plan' = index plan
  ∧ indexInitialized plan' = indexInitialized plan
  ∧ (∀ id, visible storage plan' id = visible storage plan id)
  ∧ (∀ id, is_Some (subjectCache plan !! id) → is_Some (subjectCache plan' !! id)).
Proof.
  unfold getSubject, visible.
  destruct (subjectCache plan !! idHash) as [cached|] eqn:Hc.
  - by intros [= <- <-].
  - destruct (storedSubject storage idHash) as [e|[subject|]] eqn:Hs; [done | |].
    + intros [= <- <-]. simpl. split_and!; [done | done | done | |].
      * intros id. destruct (decide (id = idHash)) as [->|Hne].
        -- by rewrite lookup_insert_eq, Hc, Hs.
        -- by rewrite lookup_insert_ne.
      * intros id Hid. destruct (decide (id = idHash)) as [->|Hne].
        -- by rewrite lookup_insert_eq.
        -- by rewrite lookup_insert_ne.
    + by intros [= <- <-].
Qed.

Lemma getSubject_readable (storage : Storage) (idHash : string) (plan : Plan) :
  is_Some (subjectCache plan !! idHash) ∨ (∃ r, storedSubject storage idHash = inr r) →
  ∃ r plan', getSubject storage idHash plan = (inr r, plan').
Proof.
  unfold getSubject. intros [[cached ->]|[r Hr]]; [by eauto |].
  destruct (subjectCache plan !! idHash); [by eauto |].
  rewrite Hr. destruct r; by eauto.
Qed.

Lemma omap_visible (storage : Storage) (plan plan' : Plan) (ids : list string) :
  (∀ id, visible storage plan' id = visible storage plan id) →
  omap (visible storage plan') ids = omap (visible storage plan) ids.
Proof.
  intros Hvis. induction ids as [|id ids IH]; [done |].
  csimpl. by rewrite Hvis, IH.
Qed.

Lemma loadSubjects_spec (storage : Storage) (ids : list string) (plan : Plan) loaded :
  readable storage plan ids →
  ∃ plan',
    loadSubjects storage ids plan loaded
    = (inr (loaded ++ omap (visible storage plan) ids), plan')
    ∧ index plan' = index plan
    ∧ (∀ id, visible storage plan' id = visible storage plan id).
Proof.
  revert plan loaded. induction ids as [|id ids IH]; intros plan loaded Hread.
  - exists plan. simpl. by rewrite app_nil_r.
  - destruct (getSubject_readable storage id plan) as (r & plan1 & Hget);
      [apply Hread; by left |].
    destruct (getSubject_spec _ _ _ _ _ Hget) as (-> & Hidx & _ & Hvis & Hcache).
    assert (Hread1 : readable storage plan1 ids).
    { intros id' Hin. destruct (Hread id') as [Hc|Hs]; [by right | |].
      - left. by apply Hcache.
      - by right. }
    simpl. rewrite Hget.
    destruct (visible storage plan id) as [subject|] eqn:Hv.
    + destruct (IH plan1 (loaded ++ [subject]) Hread1) as (plan' & -> & Hidx' & Hvis').
      exists plan'. split_and!.
      * rewrite <- app_assoc. simpl.
        by rewrite (omap_visible storage plan plan1 ids Hvis).
      * by rewrite Hidx'.
      * intros id'. by rewrite Hvis'.
    + destruct (IH plan1 loaded Hread1) as (plan' & -> & Hidx' & Hvis').
      exists plan'. split_and!.
      * by rewrite (omap_visible storage plan plan1 ids Hvis).
      * by rewrite Hidx'.
      * intros id'. by rewrite Hvis'.
Qed.

Lemma buildIndex_spec (storage : Storage) (plan : Plan) ids :
  storedIds storage = inr ids → readable storage plan ids →
  ∃ plan',
    buildIndex storage plan = (None, plan')
    ∧ index plan'
      = buildFromSubjects (entryOf <$> omap (visible storage plan) ids) newIndex
    ∧ indexInitialized plan' = true
    ∧ (∀ id, visible storage plan' id = visible storage plan id).
Proof.
  intros Hids Hread. unfold buildIndex. rewrite Hids.
  destruct (loadSubjects_spec storage ids plan [] Hread) as (plan' & -> & Hidx & Hvis).
  eexists. split; [reflexivity |]. simpl. by split_and!.
Qed.

(** The first search of a plan builds the index from the subjects its
    storage lists, each as the cache or else the storage gives it, and
    answers from that index; every later search answers from the index as it
    is then, without reading the storage again.  A listing that throws makes
    the search fail and leaves the plan as it was. *)
Theorem searchByKeywords_builds_once (storage : Storage) (plan : Plan)
    (keywords : list string) (limit : option Z) :
  indexInitialized plan = false →
  (∀ error, storedIds storage = inl error →
     searchByKeywords storage keywords limit plan = (inl error, plan))
  ∧ (∀ ids, storedIds storage = inr ids → readable storage plan ids →
       ∃ plan',
         searchByKeywords storage keywords limit plan
         = (inr (slice0 (default 10%Z limit)
                   (findByKeywords keywords
                      (buildFromSubjects (entryOf <$> omap (visible storage plan) ids)
                         newIndex))),
            plan')
         ∧ indexInitialized plan' = true
         ∧ reachable (index plan')
         ∧ ∀ storage' keywords' limit',
             searchByKeywords storage' keywords' limit' plan'
             = (inr (slice0 (default 10%Z limit') (findByKeywords keywords' (index plan'))),
                plan')).
Proof.
  intros Hinit. split.
  - intros error Herr. unfold searchByKeywords, ensureIndex, buildIndex.
    by rewrite Hinit, Herr.
  - intros ids Hids Hread.
    destruct (buildIndex_spec storage plan ids Hids Hread)
      as (plan' & Hbuild & Hidx & Hinit' & _).
    exists plan'. unfold searchByKeywords, ensureIndex.
    rewrite Hinit, Hbuild, Hidx. split_and!; [done | done | apply reachable_build |].
    intros storage' keywords' limit'. by rewrite Hinit', Hidx.
Qed.

Lemma searchByKeywords_builds_once_witness :
  ∃ plan' found,
    searchByKeywords exampleStorage ["web"] None newPlan = (inr found, plan')
    ∧ map matchIdHash found = ["h2"]
    ∧ searchByKeywords brokenStorage ["systems"] None plan'
      = (inr (slice0 10 (findByKeywords ["systems"] (index plan'))), plan').
Proof.
  destruct (searchByKeywords_builds_once exampleStorage newPlan ["web"] None eq_refl)
    as [_ Hbuilt].
  destruct (Hbuilt ["h1"; "h2"; "h3"] eq_refl) as (plan' & Hsearch & _ & _ & Hlater).
  { intros idHash Hin. right. unfold exampleStorage. simpl.
    destruct (decide (idHash = "h1")); [by eauto |].
    destruct (decide (idHash = "h2")); by eauto. }
  exists plan'. eexists. split; [exact Hsearch |]. split; [reflexivity | apply Hlater].
Defined.

Lemma ensureIndex_reachable (storage : Storage) (plan plan' : Plan) :
  reachable (index plan) → ensureIndex storage plan = (None, plan') →
  reachable (index plan').
Proof.
  intros Hreach. unfold ensureIndex, buildIndex.
  destruct (indexInitialized plan); [by intros [= <-] |].
  destruct (storedIds storage) as [e|ids]; [done |].
  destruct (loadSubjects storage ids plan []) as [[e|loaded] plan1]; [done |].
  intros [= <-]. apply (reachable_build (entryOf <$> loaded)).
Qed.

(** Of the subjects similar to a given one the plan returns the first
    [limit] that are not filed under the identifier asked for: asking the
    index for one more and dropping the subject itself loses none, because
    the index returns no subject twice.  A subject that is unknown or has no
    keyword array has no similar ones. *)
Theorem plan_findSimilar_excludes_self (storage : Storage) (idHash : string)
    (limit : option Z) (plan plan' : Plan) (result : list SubjectMatch) :
  (0 ≤ default 10 limit)%Z →
  reachable (index plan) →
  findSimilar storage idHash limit plan = (inr result, plan') →
  Forall (λ m, matchIdHash m ≠ idHash) result
  ∧ length result ≤ Z.to_nat (default 10%Z limit)
  ∧ match visible storage plan idHash ≫= subjectKeywords with
    | Some keywords =>
        reachable (index plan')
        ∧ result
          = take (Z.to_nat (default 10%Z limit))
              (filter (λ m, matchIdHash m ≠ idHash)
                 (findByKeywords keywords (index plan')))
    | None => result = []
    end.
Proof.
  intros Hlimit Hreach. unfold findSimilar.
  destruct (getSubject storage idHash plan) as [[e|r] plan1] eqn:Hget; [done |].
  destruct (getSubject_spec _ _ _ _ _ Hget) as (-> & Hidx & _ & _ & _).
  destruct (visible storage plan idHash) as [subject|]; simpl;
    [| intros [= <- <-]; split_and!; [constructor | simpl; lia | done]].
  destruct (subjectKeywords subject) as [keywords|];
    [| intros [= <- <-]; split_and!; [constructor | simpl; lia | done]].
  destruct (ensureIndex storage plan1) as [[e|] plan2] eqn:Hensure; [done |].
  intros [= <- <-].
  assert (Hreach2 : reachable (index plan2)).
  { apply (ensureIndex_reachable storage plan1); [by rewrite Hidx | done]. }
  assert (Hresult :
    slice0 (default 10%Z limit)
      (filter (λ m, matchIdHash m ≠ idHash)
         (slice0 (default 10 limit + 1)%Z (findByKeywords keywords (index plan2))))
    = take (Z.to_nat (default 10%Z limit))
        (filter (λ m, matchIdHash m ≠ idHash) (findByKeywords keywords (index plan2)))).
  { rewrite !slice0_nonneg by lia.
    replace (Z.to_nat (default 10 limit + 1)%Z) with (S (Z.to_nat (default 10%Z limit)))
      by lia.
    apply (take_filter_other matchIdHash).
    by apply findByKeywords_ids, reachable_consistent. }
  rewrite findSimilar_unfold.
  change (default 10%Z (Some (default 10 limit + 1)%Z)) with (default 10 limit + 1)%Z.
  rewrite !Hresult.
  split_and!; [| | done | done].
  - apply Forall_forall. intros m Hm. apply subseteq_take in Hm.
    by apply list_elem_of_filter in Hm as [? _].
  - rewrite length_take. lia.
Qed.

Lemma plan_findSimilar_excludes_self_witness :
  ∃ result plan',
    findSimilar exampleStorage "h1" (Some 5%Z) newPlan = (inr result, plan')
    ∧ map matchIdHash result = ["h2"]
    ∧ Forall (λ m, matchIdHash m ≠ "h1") result.
Proof.
  destruct (findSimilar exampleStorage "h1" (Some 5%Z) newPlan)
    as [[error|result] plan'] eqn:E; [by vm_compute in E |].
  exists result, plan'. split; [done |]. split.
  - pose proof E as E'. vm_compute in E'. injection E' as <- _. reflexivity.
  - destruct (plan_findSimilar_excludes_self exampleStorage "h1" (Some 5%Z)
                newPlan plan' result) as (Hall & _);
      [done | apply reachable_new | exact E | exact Hall].
Defined.

End plan_search.

(** * Further properties of the extraction *)

Section extraction_bounds.
Import ChatMemory.

Lemma string_length_app (a b : string) :
  String.length (a +:+ b) = String.length a + String.length b.
Proof.
  induction a as [|c a IH]; [done |].
  change (String c a +:+ b) with (String c (a +:+ b)). simpl. by rewrite IH.
Qed.

Lemma substring0_length (n : nat) (s : string) :
  String.length (JsString.substring0 n s) = n `min` String.length s.
Proof.
  revert s. induction n as [|n IH]; intros [|c s]; simpl; [done.. |]. by rewrite IH.
Qed.

Lemma getExcerpt_length (content : string) (maxLength : nat) :
  String.length (getExcerpt content maxLength) ≤ maxLength + 3
  ∧ (String.length content ≤ maxLength → getExcerpt content maxLength = content)
  ∧ (maxLength < String.length content →
     getExcerpt content maxLength = JsString.substring0 maxLength content +:+ "..."
     ∧ String.length (getExcerpt content maxLength) = maxLength + 3).
Proof.
  unfold getExcerpt. destruct (String.length content <=? maxLength) eqn:Hle.
  - apply Nat.leb_le in Hle. split_and!; [lia | done | lia].
  - apply Nat.leb_gt in Hle.
    assert (String.length (JsString.substring0 maxLength content +:+ "...") = maxLength + 3)
      as Hlen by (rewrite string_length_app, substring0_length; simpl; lia).
    split_and!; [lia | lia | done].
Qed.

Lemma ratio_pos (a b : nat) : 0 < a → 0 < b → (0 < ratio a b)%Q.
Proof.
  intros Ha Hb. unfold ratio. apply Qlt_shift_div_l.
  - change 0%Q with (inject_Z 0). rewrite <- Zlt_Qlt. lia.
  - rewrite Qmult_0_l. change 0%Q with (inject_Z 0). rewrite <- Zlt_Qlt. lia.
Qed.

Lemma sum_list_pos (l : list nat) : l ≠ [] → Forall (λ n, 0 < n) l → 0 < sum_list l.
Proof. destruct 2; [done |]. simpl. lia. Qed.

Lemma candidateOf_bounds (analyze : string → nat → Extraction) (minimum : Q)
    (total : nat) (before : list Message) (m : Message) (subj : ExtractedSubject) :
  0 < total →
  candidateOf analyze minimum total before m = Some subj →
  1 ≤ length (subjectKeywords subj) ≤ 3
  ∧ (0 < confidence subj)%Q ∧ (confidence subj <= 1)%Q
  ∧ (minimum <= confidence subj)%Q
  ∧ String.length (description subj) ≤ 153
  ∧ String.length (messageExcerpt subj) ≤ 203.
Proof.
  intros Htotal. unfold candidateOf.
  destruct (usableKeywords analyze m) as [|kw kws] eqn:Hu; [done |].
  lazy zeta.
  remember (take 3 (kw :: kws)) as top eqn:Htop.
  destruct (Qle_bool _ _) eqn:Hle; [| done]. intros [= <-].
  cbn [subjectKeywords confidence description messageExcerpt].
  apply Qle_bool_iff in Hle.
  assert (1 ≤ length top ≤ 3) as Hlen.
  { rewrite Htop, length_take. simpl length. lia. }
  assert (Forall (λ n, 0 < n) (frequencySoFar analyze (before ++ [m]) <$> top)) as Hfreq.
  { apply Forall_fmap, Forall_forall. intros k Hk. unfold frequencySoFar.
    apply occurrences_pos. rewrite bind_app. apply elem_of_app. right.
    csimpl. rewrite app_nil_r, Hu. apply (subseteq_take 3). by rewrite <- Htop. }
  assert (0 < sum_list (frequencySoFar analyze (before ++ [m]) <$> top)) as Hsum.
  { apply sum_list_pos; [| done]. destruct top; [simpl in Hlen; lia | done]. }
  split_and!; [lia | lia | | apply Q.le_min_r | done | |].
  - apply Q.min_glb_lt; [| done].
    apply Qlt_shift_div_l.
    + change 0%Q with (inject_Z 0). rewrite <- Zlt_Qlt. lia.
    + rewrite Qmult_0_l. apply ratio_pos; lia.
  - pose proof (getExcerpt_length (body m) 150) as [? _]. lia.
  - pose proof (getExcerpt_length (body m) 200) as [? _]. lia.
Qed.

Lemma candidatesFrom_length (analyze : string → nat → Extraction) (minimum : Q)
    (total : nat) (before rest : list Message) :
  length (candidatesFrom analyze minimum total before rest) ≤ length rest.
Proof.
  revert before. induction rest as [|m rest IH]; intros before; simpl; [done |].
  rewrite length_app. specialize (IH (before ++ [m])).
  destruct (candidateOf analyze minimum total before m); simpl; lia.
Qed.

(** Whatever the keyword extractor returns, a batch yields at most one
    subject for each of its messages, and every subject has one to three
    keywords, a confidence above 0, at most 1 and at least the configured
    minimum, a description of at most 153 characters and an excerpt of at
    most 203. *)
Theorem extracted_subjects_bounds (analyze : string → nat → Extraction)
    (config : option ChatMemoryConfig) (messages : list Message) :
  length (extractedSubjects (runLoop analyze config messages)) ≤ length messages
  ∧ Forall (λ subj,
       1 ≤ length (subjectKeywords subj) ≤ 3
       ∧ (0 < confidence subj)%Q ∧ (confidence subj <= 1)%Q
       ∧ (minimumOf config <= confidence subj)%Q
       ∧ String.length (description subj) ≤ 153
       ∧ String.length (messageExcerpt subj) ≤ 203)
      (extractedSubjects (runLoop analyze config messages)).
Proof.
  unfold runLoop.
  rewrite (loop_spec analyze config (length messages) messages [] (mkLoop [] ∅ []))
    by (intros k; simpl; by rewrite lookup_empty).
  simpl. split; [apply candidatesFrom_length |].
  apply Forall_forall. intros subj (pre & m & post & Hsplit & Hc)%elem_of_candidatesFrom.
  apply (candidateOf_bounds analyze _ (length messages) ([] ++ pre) m); [| done].
  rewrite Hsplit, length_app. simpl. lia.
Qed.

End extraction_bounds.

Section store_calls.
Import ChatMemory.









End store_calls.

Section memory_updates.
Import ChatMemory.






Lemma updateAssociation_lookup topic topic' subjectIdHash keywords now
    (associations : gmap string (list ChatMemoryAssociation)) :
  getAssociations topic' (updateAssociation topic subjectIdHash keywords now associations)
  = if decide (topic' = topic)
    then updateFirst subjectIdHash keywords now (getAssociations topic associations)
    else getAssociations topic' associations.
Proof.
  unfold updateAssociation, getAssociations.
  destruct (associations !! topic) as [l|] eqn:E.
  - destruct (decide (topic' = topic)) as [->|Hne].
    + by rewrite lookup_insert_eq.
    + by rewrite lookup_insert_ne.
  - destruct (decide (topic' = topic)) as [->|Hne]; [by rewrite E | done].
Qed.

Lemma updateFirst_spec subjectIdHash keywords now (l : list ChatMemoryAssociation) :
  (associationSubject <$> updateFirst subjectIdHash keywords now l)
  = (associationSubject <$> l)
  ∧ (subjectIdHash ∉ (associationSubject <$> l) → updateFirst subjectIdHash keywords now l = l)
  ∧ (subjectIdHash ∈ (associationSubject <$> l) →
     ∃ before a after,
       l = before ++ a :: after
       ∧ (subjectIdHash ∉ (associationSubject <$> before))
       ∧ associationSubject a = subjectIdHash
       ∧ updateFirst subjectIdHash keywords now l
         = before
           ++ mkAssociation (associationId a) (associationTopic a) subjectIdHash keywords
                (associationConfidence a) (associationCreated a) now (messageCount a + 1)
           :: after).
Proof.
  induction l as [|a l (IHids & IHout & IHin)].
  - split_and!; [done | done | by inversion 1].
  - cbn [updateFirst]. rewrite !fmap_cons.
    destruct (decide (associationSubject a = subjectIdHash)) as [Ha|Ha].
    + split_and!; [by rewrite fmap_cons | |].
      * intros Hout. destruct Hout. rewrite Ha. by left.
      * intros _. exists [], a, l. split_and!; [done | by inversion 1 | done |].
        simpl. by rewrite Ha.
    + split_and!.
      * by rewrite !fmap_cons, IHids.
      * intros Hout. rewrite IHout; [done |]. intros Hin. apply Hout. by right.
      * intros [?|Hin]%elem_of_cons; [done |].
        destruct (IHin Hin) as (before & a' & after & -> & Hout & Ha' & ->).
        exists (a :: before), a', after. split_and!; [done | | done | done].
        rewrite fmap_cons. intros [?|?]%elem_of_cons; done.
Qed.

(** A topic without associations has the empty array.  [createAssociation]
    appends an association with count 1 to the array of its topic, whether
    or not the subject has one there already, and [updateAssociation]
    changes the first association of the subject on the topic only: it gets
    the new keywords and time and its count goes up by one; when the subject
    has none on the topic nothing changes and none is created.  Other
    topics are left alone by both. *)
Theorem associations_spec (topic subjectIdHash : string) (keywords : list string)
    (associations : gmap string (list ChatMemoryAssociation)) :
  getAssociations topic ∅ = []
  ∧ (∀ confidence created updated,
       getAssociations topic
         (createAssociation topic subjectIdHash keywords confidence created updated
            associations)
       = getAssociations topic associations
         ++ [mkAssociation (topic +:+ "-" +:+ subjectIdHash) topic subjectIdHash keywords
               confidence created updated 1]
       ∧ ∀ topic', topic' ≠ topic →
           getAssociations topic'
             (createAssociation topic subjectIdHash keywords confidence created updated
                associations)
           = getAssociations topic' associations)
  ∧ (∀ now,
       let before := getAssociations topic associations in
       let after :=
         getAssociations topic
           (updateAssociation topic subjectIdHash keywords now associations) in
       associationSubject <$> after = associationSubject <$> before
       ∧ (∀ topic', topic' ≠ topic →
            getAssociations topic'
              (updateAssociation topic subjectIdHash keywords now associations)
            = getAssociations topic' associations)
       ∧ (subjectIdHash ∉ (associationSubject <$> before) → after = before)
       ∧ (subjectIdHash ∈ (associationSubject <$> before) →
          ∃ pre a post,
            before = pre ++ a :: post
            ∧ (subjectIdHash ∉ (associationSubject <$> pre))
            ∧ associationSubject a = subjectIdHash
            ∧ after
              = pre
                ++ mkAssociation (associationId a) (associationTopic a) subjectIdHash
                     keywords (associationConfidence a) (associationCreated a) now
                     (messageCount a + 1)
                :: post)).
Proof.
  split_and!.
  - done.
  - intros confidence created updated. unfold createAssociation, getAssociations. split.
    + by rewrite lookup_insert_eq.
    + intros topic' Hne. by rewrite lookup_insert_ne.
  - intros now before after. unfold after.
    rewrite updateAssociation_lookup, decide_True by done. fold before.
    destruct (updateFirst_spec subjectIdHash keywords now before) as (Hids & Hout & Hin).
    split_and!; [done | | done | done].
    intros topic' Hne. by rewrite updateAssociation_lookup, decide_False.
Qed.

End memory_updates.
